(** * A bidirectional map over two intrusive binary search trees

    Shallow embedding of [intrusive_tree.h], [intrusive_tree.cpp] and
    [bimap.h].  Objects live in a store indexed by object identifiers; a
    pointer to a [base_tree_element] of a fixed tag is an [option nat]
    ([None] is [nullptr]).  Every function returns [None] where the C++
    program has undefined behaviour (a null or dangling dereference) or
    where the iteration bound of a loop is exhausted. *)

From Stdlib Require Import ZArith Lia String.
From stdpp Require Import base option list sorting gmap.

Local Open Scope Z_scope.

(** ** [struct base_tree_element] *)

Module base_tree_element.

Record t := mk {
  left : option nat;
  right : option nat;
  parent : option nat
}.

(** [base_tree_element() noexcept = default]: the member initialisers. *)
Definition null : t := mk None None None.

Definition set_left (l : option nat) (e : t) : t := mk l (right e) (parent e).
Definition set_right (r : option nat) (e : t) : t := mk (left e) r (parent e).
Definition set_parent (p : option nat) (e : t) : t := mk (left e) (right e) p.

Definition is_null (p : option nat) : bool :=
  match p with None => true | Some _ => false end.

Definition in_tree (e : t) : bool :=
  negb (is_null (parent e) && is_null (left e) && is_null (right e)).

Definition is_leaf (e : t) : bool :=
  is_null (left e) && is_null (right e).

Definition has_one_child (e : t) : bool :=
  (negb (is_null (left e)) && is_null (right e))
  || (is_null (left e) && negb (is_null (right e))).

Definition get_only_child (e : t) : option nat :=
  if negb (is_null (left e)) then left e else right e.

Section with_store.

Implicit Types st : gmap nat t.

Definition link_left st (parent left : option nat) : option (gmap nat t) :=
  match parent with
  | None => Some st
  | Some p =>
      pe ← st !! p;
      let st1 := <[p := set_left left pe]> st in
      match left with
      | None => Some st1
      | Some l => le ← st1 !! l; Some (<[l := set_parent (Some p) le]> st1)
      end
  end.

Definition link_right st (parent right : option nat) : option (gmap nat t) :=
  match parent with
  | None => Some st
  | Some p =>
      pe ← st !! p;
      let st1 := <[p := set_right right pe]> st in
      match right with
      | None => Some st1
      | Some r => re ← st1 !! r; Some (<[r := set_parent (Some p) re]> st1)
      end
  end.

(** Only for the sentinel. *)
Definition move_from st (this other : nat) : option (gmap nat t) :=
  oe ← st !! other;
  st1 ← link_left st (Some this) (left oe);
  oe1 ← st1 !! other;
  st2 ← link_right st1 (Some this) (right oe1);
  _ ← st2 !! other;
  Some (<[other := null]> st2).

Fixpoint max_in_subtree (fuel : nat) st (p : nat) : option nat :=
  match fuel with
  | O => None
  | S f =>
      e ← st !! p;
      match right e with
      | Some r => max_in_subtree f st r
      | None => Some p
      end
  end.

Fixpoint min_in_subtree (fuel : nat) st (p : nat) : option nat :=
  match fuel with
  | O => None
  | S f =>
      e ← st !! p;
      match left e with
      | Some l => min_in_subtree f st l
      | None => Some p
      end
  end.

Definition is_left_child st (this : nat) : option bool :=
  e ← st !! this;
  p ← parent e;
  pe ← st !! p;
  Some (bool_decide (left pe = Some this)).

(** The [else] branch of [prev]: climb while [p] is a left child. *)
Fixpoint prev_up (fuel : nat) st (p : nat) : option nat :=
  match fuel with
  | O => None
  | S f =>
      b ← is_left_child st p;
      e ← st !! p;
      q ← parent e;
      if (b : bool) then prev_up f st q else Some q
  end.

Definition prev (fuel : nat) st (p : nat) : option nat :=
  e ← st !! p;
  match left e with
  | Some l => max_in_subtree fuel st l
  | None => prev_up fuel st p
  end.

(** The [else] branch of [next]: climb while [p] is not a left child. *)
Fixpoint next_up (fuel : nat) st (p : nat) : option nat :=
  match fuel with
  | O => None
  | S f =>
      b ← is_left_child st p;
      e ← st !! p;
      q ← parent e;
      if (b : bool) then Some q else next_up f st q
  end.

Definition next (fuel : nat) st (p : nat) : option nat :=
  e ← st !! p;
  match right e with
  | Some r => min_in_subtree fuel st r
  | None => next_up fuel st p
  end.

Definition link_with_parent st (this : nat) (node : option nat)
  : option (gmap nat t) :=
  b ← is_left_child st this;
  e ← st !! this;
  if (b : bool) then link_left st (parent e) node
  else link_right st (parent e) node.

(** [fuel] bounds both the recursion [n->unlink()] and the loops of
    [next]. *)
Fixpoint unlink (fuel : nat) st (this : nat) : option (gmap nat t) :=
  match fuel with
  | O => None
  | S f =>
      e ← st !! this;
      if negb (in_tree e) then Some st
      else if is_leaf e || has_one_child e then
        link_with_parent st this (get_only_child e)
      else
        n ← next (S f) st this;
        st1 ← unlink f st n;
        e1 ← st1 !! this;
        st2 ← link_left st1 (Some n) (left e1);
        e2 ← st2 !! this;
        st3 ← link_right st2 (Some n) (right e2);
        st4 ← link_with_parent st3 this (Some n);
        _ ← st4 !! this;
        Some (<[this := null]> st4)
  end.

(** Iteration bound handed to the loops by the callers below: no
    simple path in the store is longer than its number of cells. *)
Definition fuel_of st : nat := S (size st).

End with_store.

End base_tree_element.

(** ** [struct intr_tree<Elt, Tag, Key, Comparator>]

    One instance per tag.  [st] holds the [base_tree_element]s of that
    tag, [root] is the address of the tree's sentinel, [get_key] reads the
    key of the entry an element belongs to ([None] when the element is not
    part of an [Elt], where the [static_cast] is undefined). *)

Module intr_tree.

Import base_tree_element.

(** [iterator]: the only member is [untagged* ptr{nullptr}]. *)
Definition iterator : Type := option nat.

Definition as_iterator (elt : nat) : iterator := Some elt.

(** [operator++] of [iterator]. *)
Definition incr (fuel : nat) (st : gmap nat t) (it : iterator)
  : option iterator :=
  p ← it; q ← next fuel st p; Some (Some q).

(** [operator--] of [iterator]. *)
Definition decr (fuel : nat) (st : gmap nat t) (it : iterator)
  : option iterator :=
  p ← it; q ← prev fuel st p; Some (Some q).

Section with_key.

Context {Key : Type}.
Variable Comparator : Key → Key → bool.
Variable get_key : nat → option Key.

Implicit Types st : gmap nat t.

Definition cmp_key (a b : Key) : bool := Comparator a b.

Definition cmp_node (a b : nat) : option bool :=
  ka ← get_key a; kb ← get_key b; Some (cmp_key ka kb).

Definition empty st (root : nat) : option bool :=
  r ← st !! root; Some (is_null (left r) && is_null (right r)).

Definition end_ (root : nat) : iterator := Some root.

Definition begin st (root : nat) : option iterator :=
  p ← min_in_subtree (fuel_of st) st root; Some (Some p).

Fixpoint find_loop (fuel : nat) st (root : nat) (cur : option nat)
    (key : Key) : option iterator :=
  match fuel with
  | O => None
  | S f =>
      match cur with
      | None => Some (end_ root)
      | Some c =>
          k ← get_key c;
          e ← st !! c;
          if cmp_key k key then find_loop f st root (right e) key
          else if cmp_key key k then find_loop f st root (left e) key
          else Some (Some c)
      end
  end.

Definition find st (root : nat) (key : Key) : option iterator :=
  r ← st !! root; find_loop (fuel_of st) st root (left r) key.

Fixpoint insert_loop (fuel : nat) st (root : nat) (cur elt_p : nat)
  : option (gmap nat t * iterator) :=
  match fuel with
  | O => None
  | S f =>
      lt_cur_elt ← cmp_node cur elt_p;
      if (lt_cur_elt : bool) then
        e ← st !! cur;
        match right e with
        | Some r => insert_loop f st root r elt_p
        | None =>
            st1 ← link_right st (Some cur) (Some elt_p);
            Some (st1, as_iterator elt_p)
        end
      else
        lt_elt_cur ← cmp_node elt_p cur;
        if (lt_elt_cur : bool) then
          e ← st !! cur;
          match left e with
          | Some l => insert_loop f st root l elt_p
          | None =>
              st1 ← link_left st (Some cur) (Some elt_p);
              Some (st1, as_iterator elt_p)
          end
        else Some (st, end_ root)
  end.

Definition insert st (root : nat) (elt : nat)
  : option (gmap nat t * iterator) :=
  r ← st !! root;
  match left r with
  | None =>
      st1 ← link_left st (Some root) (Some elt);
      Some (st1, left r)
  | Some cur => insert_loop (fuel_of st) st root cur elt
  end.

Definition erase st (elt : nat) : option (gmap nat t * iterator) :=
  let it := as_iterator elt in
  st1 ← unlink (fuel_of st) st elt;
  it1 ← incr (fuel_of st) st1 it;
  Some (st1, it1).

Fixpoint lower_bound_loop (fuel : nat) st (res : nat) (cur : option nat)
    (key : Key) : option iterator :=
  match fuel with
  | O => None
  | S f =>
      match cur with
      | None => Some (Some res)
      | Some c =>
          k ← get_key c;
          e ← st !! c;
          if cmp_key k key then lower_bound_loop f st res (right e) key
          else lower_bound_loop f st c (left e) key
      end
  end.

Definition lower_bound st (root : nat) (key : Key) : option iterator :=
  r ← st !! root; lower_bound_loop (fuel_of st) st root (left r) key.

Fixpoint upper_bound_loop (fuel : nat) st (res : nat) (cur : option nat)
    (key : Key) : option iterator :=
  match fuel with
  | O => None
  | S f =>
      match cur with
      | None => Some (Some res)
      | Some c =>
          k ← get_key c;
          e ← st !! c;
          if cmp_key key k then upper_bound_loop f st c (left e) key
          else upper_bound_loop f st res (right e) key
      end
  end.

Definition upper_bound st (root : nat) (key : Key) : option iterator :=
  r ← st !! root; upper_bound_loop (fuel_of st) st root (left r) key.

Fixpoint delete_subtree (fuel : nat) st (p : option nat)
  : option (gmap nat t) :=
  match fuel with
  | O => None
  | S f =>
      match p with
      | None => Some st
      | Some a =>
          e ← st !! a;
          st1 ← delete_subtree f st (left e);
          e1 ← st1 !! a;
          st2 ← delete_subtree f st1 (right e1);
          unlink (fuel_of st) st2 a
      end
  end.

Definition clear st (root : nat) : option (gmap nat t) :=
  delete_subtree (fuel_of st) st (Some root).

(** [intr_tree(intr_tree&& other)]: the sentinel [root] of the new tree
    is already allocated (with the default member initialisers). *)
Definition move_ctor st (root other : nat) : option (gmap nat t) :=
  move_from st root other.

(** [operator=(intr_tree&& other)]. *)
Definition move_assign st (root other : nat) : option (gmap nat t) :=
  st1 ← clear st root; move_from st1 root other.

(** [swap]: [std::swap(root, other.root)], which is
    [T tmp(std::move(root)); root = std::move(other.root);
     other.root = std::move(tmp);], with the temporary at the address
    [tmp], destroyed when the call returns. *)
Definition swap st (root other tmp : nat) : option (gmap nat t) :=
  st1 ← move_from (<[tmp := null]> st) tmp root;
  st2 ← move_from st1 root other;
  st3 ← move_from st2 other tmp;
  st4 ← unlink (fuel_of st3) st3 tmp;
  Some (delete tmp st4).

End with_key.

End intr_tree.

(** ** [struct bimap<Left, Right, CompareLeft, CompareRight>] *)

Inductive side := left_tag | right_tag.

Definition Other (s : side) : side :=
  match s with left_tag => right_tag | right_tag => left_tag end.

#[global] Instance side_eq_dec : EqDecision side.
Proof. solve_decision. Defined.

(** What [at] throws: [std::out_of_range("No such element")]. *)
Inductive exception := out_of_range (what : string).

(** A call either returns normally or leaves by an exception. *)
Inductive outcome (A : Type) :=
| Returned (a : A)
| Thrown (e : exception).
Arguments Returned {A} a.
Arguments Thrown {A} e.

Module bimap.

Import base_tree_element.

(** [std::size_t], taken as 64 bits wide. *)
Definition size_max : Z := 2 ^ 64.
Definition wrap (z : Z) : Z := z mod size_max.

(** [base_iterator<Side>]: [tree_t::iterator it] and [bimap const* map_p]. *)
Record base_iterator := mk_iterator {
  it : intr_tree.iterator;
  map_p : nat
}.

(** [operator==] compares the tree iterators only. *)
Definition iter_eqb (a b : base_iterator) : bool := bool_decide (it a = it b).

Section with_types.

Variables left_t right_t : Type.

(** The [Comparator] bases of the two trees of a map.  They are objects
    of the map and not part of the memory below: an operation that
    compares takes the comparators of the map it is called on, and an
    operation that takes none does not read or write any.  The
    constructors fix the comparators of a map, and of the operations
    below only the copy assignment replaces them, by those of its
    source, whose comparators it is given. *)
Variable CompareLeft : left_t → left_t → bool.
Variable CompareRight : right_t → right_t → bool.

Definition key_t (s : side) : Type :=
  match s with left_tag => left_t | right_tag => right_t end.

Definition Comparator (s : side) : key_t s → key_t s → bool :=
  match s with left_tag => CompareLeft | right_tag => CompareRight end.

(** The value-initialised [key_t<Side>()] of [at_or_default], for key
    types that are default constructible. *)
Variable default_key : ∀ s, key_t s.

(** [node_t]: the two [tree_element] bases are kept in the stores of
    their tags, the member [lr] here. *)
Record node_t := mk_node { lr : left_t * right_t }.

Definition key (s : side) (n : node_t) : key_t s :=
  match s with left_tag => fst (lr n) | right_tag => snd (lr n) end.

Definition set_key (s : side) (k : key_t s) (n : node_t) : node_t :=
  match s return key_t s → node_t with
  | left_tag => λ k, mk_node (k, snd (lr n))
  | right_tag => λ k, mk_node (fst (lr n), k)
  end k.

(** The memory: the [base_tree_element]s of either tag (of the entries
    and of the sentinels of the maps), the entries' payloads, the
    [size_] member of the maps, and the next unused object identifier. *)
Record heap := mk_heap {
  elements_left : gmap nat t;
  elements_right : gmap nat t;
  nodes : gmap nat node_t;
  size_ : gmap nat Z;
  brk : nat
}.

Definition elements (s : side) (h : heap) : gmap nat t :=
  match s with left_tag => elements_left h | right_tag => elements_right h end.

Definition set_elements (s : side) (st : gmap nat t) (h : heap) : heap :=
  match s with
  | left_tag => mk_heap st (elements_right h) (nodes h) (size_ h) (brk h)
  | right_tag => mk_heap (elements_left h) st (nodes h) (size_ h) (brk h)
  end.

Definition set_nodes (ns : gmap nat node_t) (h : heap) : heap :=
  mk_heap (elements_left h) (elements_right h) ns (size_ h) (brk h).

Definition set_size (this : nat) (z : Z) (h : heap) : heap :=
  mk_heap (elements_left h) (elements_right h) (nodes h)
    (<[this := z]> (size_ h)) (brk h).

Definition empty_heap : heap := mk_heap ∅ ∅ ∅ ∅ O.

(** [get_key] of the tree of tag [s]. *)
Definition get_key (s : side) (h : heap) (p : nat) : option (key_t s) :=
  n ← nodes h !! p; Some (key s n).

Definition fuel (h : heap) : nat :=
  S (size (elements_left h) + size (elements_right h)).

(** [explicit bimap(CompareLeft, CompareRight)]: a new map object with
    two sentinels and [size_{0}]; returns its address. *)
Definition ctor (h : heap) : heap * nat :=
  let this := brk h in
  (mk_heap (<[this := null]> (elements_left h))
           (<[this := null]> (elements_right h))
           (nodes h) (<[this := 0]> (size_ h)) (S this), this).

Definition begin (s : side) (h : heap) (this : nat) : option base_iterator :=
  i ← intr_tree.begin (elements s h) this; Some (mk_iterator i this).

Definition end_ (s : side) (this : nat) : base_iterator :=
  mk_iterator (intr_tree.end_ this) this.

Definition begin_left := begin left_tag.
Definition end_left := end_ left_tag.
Definition begin_right := begin right_tag.
Definition end_right := end_ right_tag.

(** [operator*] of [base_iterator<Side>]. *)
Definition deref (s : side) (h : heap) (i : base_iterator)
  : option (key_t s) :=
  p ← it i; get_key s h p.

(** [operator++] of [base_iterator<Side>]. *)
Definition incr (s : side) (h : heap) (i : base_iterator)
  : option base_iterator :=
  j ← intr_tree.incr (fuel_of (elements s h)) (elements s h) (it i);
  Some (mk_iterator j (map_p i)).

(** [operator--] of [base_iterator<Side>]. *)
Definition decr (s : side) (h : heap) (i : base_iterator)
  : option base_iterator :=
  j ← intr_tree.decr (fuel_of (elements s h)) (elements s h) (it i);
  Some (mk_iterator j (map_p i)).

(** [base_iterator<Side>::flip]: the entry reached through [it] has both
    tagged bases, [as_iterator] of the other tree takes the other one. *)
Definition flip (s : side) (h : heap) (i : base_iterator)
  : option base_iterator :=
  if bool_decide (it i = intr_tree.end_ (map_p i)) then
    Some (mk_iterator (intr_tree.end_ (map_p i)) (map_p i))
  else
    p ← it i;
    _ ← nodes h !! p;
    Some (mk_iterator (intr_tree.as_iterator p) (map_p i)).

Definition empty (h : heap) (this : nat) : option bool :=
  intr_tree.empty (elements_left h) this.

Definition size (h : heap) (this : nat) : option Z := size_ h !! this.

Definition find (s : side) (h : heap) (this : nat) (k : key_t s)
  : option base_iterator :=
  i ← intr_tree.find (Comparator s) (get_key s h) (elements s h) this k;
  Some (mk_iterator i this).

Definition find_left := find left_tag.
Definition find_right := find right_tag.

(** [delete node]: the destructor of [node_t] runs the destructors of
    its bases in reverse order of declaration, [tree_element<right_tag>]
    first; each is [~base_tree_element], that is [unlink].  Then the
    storage is released. *)
Definition delete_node (h : heap) (node : nat) : option heap :=
  _ ← nodes h !! node;
  str ← unlink (fuel_of (elements_right h)) (elements_right h) node;
  stl ← unlink (fuel_of (elements_left h)) (elements_left h) node;
  Some (mk_heap (delete node stl) (delete node str)
          (delete node (nodes h)) (size_ h) (brk h)).

(** [erase<Side>(iterator<Side>)]. *)
Definition erase (s : side) (h : heap) (this : nat) (i : base_iterator)
  : option (heap * base_iterator) :=
  if iter_eqb i (end_ s this) then Some (h, i)
  else
    sz ← size_ h !! this;
    let h1 := set_size this (wrap (sz - 1)) h in
    node ← it i;
    _ ← nodes h1 !! node;
    next ← incr s h1 i;
    h2 ← delete_node h1 node;
    Some (h2, next).

(** [erase<Side>(key_t<Side> const&)]. *)
Definition erase_key (s : side) (h : heap) (this : nat) (k : key_t s)
  : option (heap * bool) :=
  i ← find s h this k;
  '(h1, erase_res) ← erase s h this i;
  e ← empty h1 this;
  Some (h1, if negb e then negb (iter_eqb erase_res (end_ s this))
            else iter_eqb erase_res (end_ s this)).

(** [erase<Side>(first, last)]. *)
Fixpoint erase_range_loop (n : nat) (s : side) (h : heap) (this : nat)
    (i last : base_iterator) : option (heap * base_iterator) :=
  match n with
  | O => None
  | S n' =>
      if negb (iter_eqb i last) then
        '(h1, i1) ← erase s h this i;
        erase_range_loop n' s h1 this i1 last
      else Some (h, i)
  end.

Definition erase_range (s : side) (h : heap) (this : nat)
    (first last : base_iterator) : option (heap * base_iterator) :=
  erase_range_loop (fuel h) s h this first last.

Definition erase_left := erase left_tag.
Definition erase_right := erase right_tag.
Definition erase_left_key := erase_key left_tag.
Definition erase_right_key := erase_key right_tag.
Definition erase_left_range := erase_range left_tag.
Definition erase_right_range := erase_range right_tag.

(** [at<Side>]. *)
Definition at_ (s : side) (h : heap) (this : nat) (k : key_t s)
  : option (outcome (key_t (Other s))) :=
  i ← find s h this k;
  if iter_eqb i (end_ s this) then
    Some (Thrown (out_of_range "No such element"))
  else
    j ← flip s h i;
    v ← deref (Other s) h j;
    Some (Returned v).

Definition at_left := at_ left_tag.
Definition at_right := at_ right_tag.

Definition insert_no_check (h : heap) (this : nat) (l : left_t)
    (r : right_t) : option (heap * base_iterator) :=
  sz ← size_ h !! this;
  let h1 := set_size this (wrap (sz + 1)) h in
  let node := brk h1 in
  let h2 :=
    mk_heap (<[node := null]> (elements_left h1))
            (<[node := null]> (elements_right h1))
            (<[node := mk_node (l, r)]> (nodes h1))
            (size_ h1) (S node) in
  '(stl, _) ← intr_tree.insert CompareLeft (get_key left_tag h2)
                 (elements_left h2) this node;
  let h3 := set_elements left_tag stl h2 in
  '(str, _) ← intr_tree.insert CompareRight (get_key right_tag h3)
                 (elements_right h3) this node;
  let h4 := set_elements right_tag str h3 in
  Some (h4, mk_iterator (intr_tree.as_iterator node) this).

Definition insert_ (h : heap) (this : nat) (l : left_t) (r : right_t)
  : option (heap * base_iterator) :=
  fl ← find_left h this l;
  if negb (iter_eqb fl (end_left this)) then Some (h, end_left this)
  else
    fr ← find_right h this r;
    if negb (iter_eqb fr (end_right this)) then Some (h, end_left this)
    else insert_no_check h this l r.

Definition insert := insert_.

(** [at_or_default<Side>]. *)
Definition at_or_default (s : side) (h : heap) (this : nat) (k : key_t s)
  : option (heap * key_t (Other s)) :=
  it_side ← find s h this k;
  if negb (iter_eqb it_side (end_ s this)) then
    j ← flip s h it_side;
    v ← deref (Other s) h j;
    Some (h, v)
  else
    let other := default_key (Other s) in
    it_other ← find (Other s) h this other;
    if negb (iter_eqb it_other (end_ (Other s) this)) then
      p ← it it_other;
      n ← nodes h !! p;
      let h1 := set_nodes (<[p := set_key s k n]> (nodes h)) h in
      v ← deref (Other s) h1 it_other;
      Some (h1, v)
    else
      match s return key_t s → key_t (Other s)
                     → option (heap * key_t (Other s)) with
      | left_tag => λ k other,
          '(h1, i) ← insert_no_check h this k other;
          j ← flip left_tag h1 i;
          v ← deref right_tag h1 j;
          Some (h1, v)
      | right_tag => λ k other,
          '(h1, i) ← insert_no_check h this other k;
          v ← deref left_tag h1 i;
          Some (h1, v)
      end k other.

Definition at_left_or_default := at_or_default left_tag.
Definition at_right_or_default := at_or_default right_tag.

Definition clear (h : heap) (this : nat) : option heap :=
  b ← begin_left h this;
  '(h1, _) ← erase_left_range h this b (end_left this);
  Some h1.

(** [bimap(bimap&& other)]: [intr_tree(intr_tree&&)] moves the root
    only.  The [Comparator] bases of the new trees are default
    constructed, they are not those of [other]: the comparators that the
    later operations on the new map are given are [CompareLeft()] and
    [CompareRight()]. *)
Definition move_ctor (h : heap) (other : nat) : option (heap * nat) :=
  let this := brk h in
  let stl0 := <[this := null]> (elements_left h) in
  stl ← intr_tree.move_ctor stl0 this other;
  let str0 := <[this := null]> (elements_right h) in
  str ← intr_tree.move_ctor str0 this other;
  sz ← size_ h !! other;
  Some (mk_heap stl str (nodes h) (<[this := sz]> (size_ h)) (S this),
        this).

(** [operator=(bimap&& other)]: the move assignment of [intr_tree]
    clears the tree and moves the root only.  The map keeps its own
    [Comparator] bases: the later operations on it are given the
    comparators it had, not those of [other]. *)
Definition move_assign (h : heap) (this other : nat) : option heap :=
  if bool_decide (this ≠ other) then
    h1 ← clear h this;
    stl ← intr_tree.move_assign (elements_left h1) this other;
    let h2 := set_elements left_tag stl h1 in
    str ← intr_tree.move_assign (elements_right h2) this other;
    let h3 := set_elements right_tag str h2 in
    sz ← size_ h3 !! other;
    Some (set_size this sz h3)
  else Some h.

(** The entries met by [for (it = begin; it != end; ++it)] on the tree
    of tag [s], in order. *)
Fixpoint traverse_loop (n : nat) (s : side) (h : heap) (this : nat)
    (i : base_iterator) : option (list nat) :=
  match n with
  | O => None
  | S n' =>
      if negb (iter_eqb i (end_ s this)) then
        p ← it i;
        j ← incr s h i;
        ps ← traverse_loop n' s h this j;
        Some (p :: ps)
      else Some []
  end.

Definition traverse (s : side) (h : heap) (this : nat)
  : option (list nat) :=
  b ← begin s h this; traverse_loop (fuel h) s h this b.

(** [lower_bound<Side>] and [upper_bound<Side>]. *)
Definition lower_bound (s : side) (h : heap) (this : nat) (k : key_t s)
  : option base_iterator :=
  i ← intr_tree.lower_bound (Comparator s) (get_key s h) (elements s h)
        this k;
  Some (mk_iterator i this).

Definition upper_bound (s : side) (h : heap) (this : nat) (k : key_t s)
  : option base_iterator :=
  i ← intr_tree.upper_bound (Comparator s) (get_key s h) (elements s h)
        this k;
  Some (mk_iterator i this).

Definition lower_bound_left := lower_bound left_tag.
Definition upper_bound_left := upper_bound left_tag.
Definition lower_bound_right := lower_bound right_tag.
Definition upper_bound_right := upper_bound right_tag.

(** [swap]: the two trees, then [std::swap(size_, other.size_)].  The
    temporaries of [std::swap] are taken at the first unused address.
    [intr_tree::swap] swaps the roots only: each map keeps its own
    [Comparator] bases, and the later operations on a map are given the
    comparators it had before. *)
Definition swap (h : heap) (this other : nat) : option heap :=
  let tmp := brk h in
  stl ← intr_tree.swap (elements_left h) this other tmp;
  str ← intr_tree.swap (elements_right h) this other tmp;
  a ← size_ h !! this;
  b ← size_ h !! other;
  Some (mk_heap stl str (nodes h)
          (<[other := a]> (<[this := b]> (size_ h))) (brk h)).

(** The loop of [copy_from]: [it] runs over the left tree of [other]. *)
Fixpoint copy_loop (n : nat) (h : heap) (this other : nat)
    (i : intr_tree.iterator) : option heap :=
  match n with
  | O => None
  | S n' =>
      if bool_decide (i ≠ intr_tree.end_ other) then
        p ← i;
        nd ← nodes h !! p;
        '(h1, _) ← insert h this (key left_tag nd) (key right_tag nd);
        j ← intr_tree.incr (fuel_of (elements_left h1)) (elements_left h1) i;
        copy_loop n' h1 this other j
      else Some h
  end.

Definition copy_from (h : heap) (this other : nat) : option heap :=
  h1 ← clear h this;
  b ← intr_tree.begin (elements_left h1) other;
  copy_loop (fuel h1) h1 this other b.

(** [bimap(bimap const& other)]: the copy constructors of the trees copy
    the comparators only. *)
Definition copy_ctor (h : heap) (other : nat) : option (heap * nat) :=
  let '(h0, this) := ctor h in
  h1 ← copy_from h0 this other;
  Some (h1, this).

(** [operator=(bimap const& other)]. *)
Definition copy_assign (h : heap) (this other : nat) : option heap :=
  if bool_decide (this ≠ other) then
    h1 ← clear h this;
    copy_from h1 this other
  else Some h.

(** [operator==] of [node_t]: [a.lr == b.lr], with the [operator==] of
    the two key types. *)
Definition node_eqb (eq_left : left_t → left_t → bool)
    (eq_right : right_t → right_t → bool) (a b : node_t) : bool :=
  eq_left (fst (lr a)) (fst (lr b)) && eq_right (snd (lr a)) (snd (lr b)).

(** The loop of [operator==] of two maps. *)
Fixpoint eq_loop (n : nat) (eq_left : left_t → left_t → bool)
    (eq_right : right_t → right_t → bool) (h : heap) (a : nat)
    (it_a it_b : intr_tree.iterator) : option bool :=
  match n with
  | O => None
  | S n' =>
      if bool_decide (it_a ≠ intr_tree.end_ a) then
        pa ← it_a;
        pb ← it_b;
        na ← nodes h !! pa;
        nb ← nodes h !! pb;
        if negb (node_eqb eq_left eq_right na nb) then Some false
        else
          ja ← intr_tree.incr (fuel_of (elements_left h)) (elements_left h)
                 it_a;
          jb ← intr_tree.incr (fuel_of (elements_left h)) (elements_left h)
                 it_b;
          eq_loop n' eq_left eq_right h a ja jb
      else Some true
  end.

(** [operator==(bimap const& a, bimap const& b)]. *)
Definition eqb (eq_left : left_t → left_t → bool)
    (eq_right : right_t → right_t → bool) (h : heap) (a b : nat)
  : option bool :=
  sa ← size h a;
  sb ← size h b;
  if negb (Z.eqb sa sb) then Some false
  else
    it_a ← intr_tree.begin (elements_left h) a;
    it_b ← intr_tree.begin (elements_left h) b;
    eq_loop (fuel h) eq_left eq_right h a it_a it_b.

(** [operator!=]. *)
Definition neqb (eq_left : left_t → left_t → bool)
    (eq_right : right_t → right_t → bool) (h : heap) (a b : nat)
  : option bool :=
  negb <$> eqb eq_left eq_right h a b.

End with_types.

End bimap.

(** ** The shape of a linked tree

    The proofs relate the pointer structure in a store to a binary tree of
    object identifiers: [rep st par t] says that the elements of [st]
    reachable from the root of [t] are linked exactly as [t] is, below the
    element at [par]. *)

Module shape.

Module E := base_tree_element.

Inductive tree :=
| Leaf
| Node (l : tree) (x : nat) (r : tree).

Fixpoint inorder (t : tree) : list nat :=
  match t with
  | Leaf => []
  | Node l x r => inorder l ++ x :: inorder r
  end.

Definition root_of (t : tree) : option nat :=
  match t with Leaf => None | Node _ x _ => Some x end.

Fixpoint height (t : tree) : nat :=
  match t with
  | Leaf => O
  | Node l _ r => S (Nat.max (height l) (height r))
  end.

Fixpoint rep (st : gmap nat E.t) (par : nat) (t : tree) : Prop :=
  match t with
  | Leaf => True
  | Node l x r =>
      st !! x = Some (E.mk (root_of l) (root_of r) (Some par))
      ∧ rep st x l ∧ rep st x r
  end.

(** The slot of a parent through which a subtree hangs. *)
Inductive dir := dL | dR.

Definition child (d : dir) (e : E.t) : option nat :=
  match d with dL => E.left e | dR => E.right e end.

Definition set_child (d : dir) (c : option nat) (e : E.t) : E.t :=
  match d with dL => E.set_left c e | dR => E.set_right c e end.

(** What [unlink] does to the shape: the smallest entry of a non-empty
    tree together with the rest, and the removal of an entry, which
    promotes the successor when the entry has two children. *)
Fixpoint extract_min (l : tree) (x : nat) (r : tree) : nat * tree :=
  match l with
  | Leaf => (x, r)
  | Node ll y lr =>
      let '(m, l') := extract_min ll y lr in (m, Node l' x r)
  end.

Definition join (l r : tree) : tree :=
  match l, r with
  | Leaf, _ => r
  | _, Leaf => l
  | _, Node rl y rr => let '(m, r') := extract_min rl y rr in Node l m r'
  end.

Fixpoint remove (x : nat) (t : tree) : tree :=
  match t with
  | Leaf => Leaf
  | Node l y r =>
      if decide (x = y) then join l r
      else if decide (x ∈ inorder l) then Node (remove x l) y r
      else Node l y (remove x r)
  end.

(** [link_left] or [link_right], by the slot. *)
Definition link (d : dir) :=
  match d with dL => E.link_left | dR => E.link_right end.

(** A whole tree below its sentinel: the root of the tree is the left
    child of the sentinel, whose other two pointers stay null. *)
Definition tree_at (st : gmap nat E.t) (root : nat) (t : tree) : Prop :=
  st !! root = Some (E.mk (root_of t) None None)
  ∧ rep st root t
  ∧ NoDup (inorder t)
  ∧ root ∉ inorder t.

End shape.

(** ** Search-tree order of a linked tree

    The order of a tree of tag [Tag] as [intr_tree] sees it: through
    [get_key] and the comparator. *)

Module order.

Import shape.

Section with_key.

Context {Key : Type}.
Variable Comparator : Key → Key → bool.
Variable get_key : nat → option Key.

(** [!(a < b) && !(b < a)], the equivalence of keys. *)
Definition equiv_key (a b : Key) : Prop :=
  Comparator a b = false ∧ Comparator b a = false.

Definition lt_node (a b : nat) : Prop :=
  intr_tree.cmp_node Comparator get_key a b = Some true.

Definition lt_nodeb (a b : nat) : bool :=
  bool_decide (intr_tree.cmp_node Comparator get_key a b = Some true).

(** The key [k] is in use by the entry [n]. *)
Definition has_key (n : nat) (k : Key) : Prop :=
  ∃ kn, get_key n = Some kn ∧ equiv_key kn k.

Definition keyed (t : tree) : Prop :=
  ∀ n, n ∈ inorder t → is_Some (get_key n).

Fixpoint bst (t : tree) : Prop :=
  match t with
  | Leaf => True
  | Node l x r =>
      bst l ∧ bst r
      ∧ (∀ y, y ∈ inorder l → lt_node y x)
      ∧ (∀ y, y ∈ inorder r → lt_node x y)
  end.

(** Where [intr_tree::insert] links a new entry. *)
Fixpoint tins (e : nat) (t : tree) : tree :=
  match t with
  | Leaf => Node Leaf e Leaf
  | Node l x r =>
      if lt_nodeb x e then Node l x (tins e r)
      else if lt_nodeb e x then Node (tins e l) x r
      else t
  end.

(** Every entry of [t] compares strictly with [e]. *)
Definition apart (e : nat) (t : tree) : Prop :=
  ∀ n, n ∈ inorder t → lt_node n e ∨ lt_node e n.

(** The comparator contract: a strict weak ordering. *)
Record strict_weak : Prop := {
  sw_irrefl : ∀ a, Comparator a a = false;
  sw_trans : ∀ a b c,
    Comparator a b = true → Comparator b c = true → Comparator a c = true;
  sw_equiv_trans : ∀ a b c, equiv_key a b → equiv_key b c → equiv_key a c
}.

End with_key.

End order.

(** ** The invariant of a map *)

Module invariant.

Import shape.

Section with_types.

Variables left_t right_t : Type.
Variable CompareLeft : left_t → left_t → bool.
Variable CompareRight : right_t → right_t → bool.

Local Abbreviation heap := (bimap.heap left_t right_t).
Local Abbreviation key_t := (bimap.key_t left_t right_t).
Local Abbreviation Comparator :=
  (bimap.Comparator left_t right_t CompareLeft CompareRight).
Local Abbreviation get_key := (bimap.get_key left_t right_t).

(** The key on side [s] of the pair [(l, r)]. *)
Definition pair_key (l : left_t) (r : right_t) (s : side) : key_t s :=
  match s with left_tag => l | right_tag => r end.

(** Every object identifier from [brk] on is unused. *)
Definition unused_above (h : heap) : Prop :=
  ∀ n, (bimap.brk _ _ h ≤ n)%nat →
       bimap.elements_left _ _ h !! n = None
       ∧ bimap.elements_right _ _ h !! n = None
       ∧ bimap.nodes _ _ h !! n = None.

(** The trees of the map at [this] have the shapes [ts]: both are
    linked search trees over the same entries, and [size_] counts
    them. *)
Record inv (h : heap) (this : nat) (ts : side → tree) : Prop := {
  inv_tree : ∀ s, tree_at (bimap.elements _ _ s h) this (ts s);
  inv_bst : ∀ s, order.bst (Comparator s) (get_key s h) (ts s);
  inv_same : inorder (ts left_tag) ≡ₚ inorder (ts right_tag);
  inv_nodes : ∀ s n, n ∈ inorder (ts s) →
                     is_Some (bimap.nodes _ _ h !! n);
  inv_size : bimap.size_ _ _ h !! this
             = Some (Z.of_nat (length (inorder (ts left_tag))));
  inv_size_bound :
    Z.of_nat (length (inorder (ts left_tag))) < bimap.size_max;
  inv_unused : unused_above h
}.

Definition wf (h : heap) (this : nat) : Prop := ∃ ts, inv h this ts.

(** The entry [n] is in the map at [this]: the traversal of the tree
    of tag [s] meets it. *)
Definition resident (s : side) (h : heap) (this n : nat) : Prop :=
  ∃ ns, bimap.traverse _ _ s h this = Some ns ∧ n ∈ ns.

(** The keys of side [s] in the order of the traversal of the tree of
    tag [s]. *)
Definition keys (s : side) (h : heap) (this : nat)
  : option (list (key_t s)) :=
  ns ← bimap.traverse _ _ s h this; mapM (get_key s h) ns.

(** The pairs of the map in the order of the left tree. *)
Definition pairs (h : heap) (this : nat)
  : option (list (left_t * right_t)) :=
  ns ← bimap.traverse _ _ left_tag h this;
  mapM (λ n, bimap.lr _ _ <$> bimap.nodes _ _ h !! n) ns.

(** The memories [h] and [h'] hold the same at the object [z]. *)
Definition same_at (h h' : heap) (z : nat) : Prop :=
  (∀ s, bimap.elements _ _ s h' !! z = bimap.elements _ _ s h !! z)
  ∧ bimap.nodes _ _ h' !! z = bimap.nodes _ _ h !! z
  ∧ bimap.size_ _ _ h' !! z = bimap.size_ _ _ h !! z.

(** The key [k] is in use on side [s] of the map at [this]. *)
Definition key_in_use (s : side) (h : heap) (this : nat) (k : key_t s)
  : Prop :=
  ∃ n, resident s h this n
       ∧ order.has_key (Comparator s) (get_key s h) n k.

(** The memories reached from a new map at [this] by [insert], by
    [erase] through an iterator at an entry of the map, and by [erase]
    of a key. *)
Inductive built : heap → nat → Prop :=
| built_ctor h :
    unused_above h →
    built (bimap.ctor _ _ h).1 (bimap.ctor _ _ h).2
| built_insert h this l r h' i :
    built h this →
    (∀ sz, bimap.size _ _ h this = Some sz → sz + 1 < bimap.size_max) →
    bimap.insert _ _ CompareLeft CompareRight h this l r = Some (h', i) →
    built h' this
| built_erase h this s n h' i :
    built h this →
    resident s h this n →
    bimap.erase _ _ s h this (bimap.mk_iterator (Some n) this) = Some (h', i) →
    built h' this
| built_erase_key h this s (k : key_t s) h' b :
    built h this →
    bimap.erase_key _ _ CompareLeft CompareRight s h this k = Some (h', b) →
    built h' this.

End with_types.

End invariant.

(** ** Concrete maps *)

Module examples.

Import bimap.

(** *** [bimap<int, std::string>] *)

Definition default_key (s : side) : key_t Z string s :=
  match s with left_tag => 0 | right_tag => EmptyString end.

Abbreviation heap := (bimap.heap Z string).
Abbreviation insert := (bimap.insert Z string Z.ltb String.ltb).
Abbreviation find_left := (bimap.find_left Z string Z.ltb String.ltb).
Abbreviation find_right := (bimap.find_right Z string Z.ltb String.ltb).
Abbreviation at_left := (bimap.at_left Z string Z.ltb String.ltb).
Abbreviation at_left_or_default :=
  (bimap.at_left_or_default Z string Z.ltb String.ltb default_key).
Abbreviation erase_left_key :=
  (bimap.erase_left_key Z string Z.ltb String.ltb).
Abbreviation traverse := (bimap.traverse Z string).

(** A map at address [0] in an otherwise empty memory. *)
Definition new_map : heap := (ctor Z string (empty_heap Z string)).1.

(** The map after [insert(10, "b")] and [insert(5, std::string())]: the
    entries are the objects [1] and [2]. *)
Definition two_entries : option heap :=
  '(h, _) ← insert new_map 0%nat 10 "b"%string;
  '(h, _) ← insert h 0%nat 5 EmptyString;
  Some h.

(** The left keys met by the traversal of the left tree. *)
Definition left_keys (h : heap) (this : nat) : option (list Z) :=
  ns ← traverse left_tag h this;
  mapM (get_key Z string left_tag h) ns.

(** The map after [insert(10, "b")], [insert(5, std::string())] and
    [at_left_or_default(20)]: the entry [2] has the left key [20] and
    is still linked to the left of the entry [1], whose left key is
    [10]. *)
Definition rewritten_leaf : option heap :=
  h ← two_entries;
  '(h, _) ← at_left_or_default h 0%nat 20;
  Some h.

(** The map after [insert(5, std::string())], [insert(10, "a")] and
    [at_left_or_default(20)]: the entry [1], the root of the left tree,
    has the left key [20], and the entry [2] with the pair [(10, "a")]
    is still linked to its right. *)
Definition rewritten_root : option heap :=
  '(h, _) ← insert new_map 0%nat 5 EmptyString;
  '(h, _) ← insert h 0%nat 10 "a"%string;
  '(h, _) ← at_left_or_default h 0%nat 20;
  Some h.

(** A tree of tag-less elements: the sentinel [0], below it [1] with
    the leaves [2] on the left and [3] on the right. *)
Definition three_elements : gmap nat base_tree_element.t :=
  <[0%nat := base_tree_element.mk (Some 1%nat) None None]>
    (<[1%nat := base_tree_element.mk (Some 2%nat) (Some 3%nat) (Some 0%nat)]>
       (<[2%nat := base_tree_element.mk None None (Some 1%nat)]>
          (<[3%nat := base_tree_element.mk None None (Some 1%nat)]> ∅))).

(** *** [bimap<int, int>] *)

Definition int_map : bimap.heap Z Z := (ctor Z Z (empty_heap Z Z)).1.

(** The map after [insert(5, 7)]: the entry is the object [1]. *)
Definition int_one_entry : bimap.heap Z Z :=
  default int_map (fst <$> bimap.insert Z Z Z.ltb Z.ltb int_map 0%nat 5 7).

(** The map after [insert(3, 9)] and [insert(8, 1)] as well: the entries
    are the objects [1], [2] and [3]; the left tree meets them in the
    order [2], [1], [3], the right tree in the order [3], [1], [2]. *)
Definition int_three_entries : bimap.heap Z Z :=
  let h1 :=
    default int_one_entry
      (fst <$> bimap.insert Z Z Z.ltb Z.ltb int_one_entry 0%nat 3 9) in
  default h1 (fst <$> bimap.insert Z Z Z.ltb Z.ltb h1 0%nat 8 1).

(** Two maps in one memory: the map at [0] with the entry [(5, 7)], and
    a second map at [2] with the entry [(4, 6)], which is the object
    [3]. *)
Definition int_two_maps : bimap.heap Z Z :=
  let h0 := (ctor Z Z int_one_entry).1 in
  default h0 (fst <$> bimap.insert Z Z Z.ltb Z.ltb h0 2%nat 4 6).

(** Two maps with different comparators in one memory: the map at [0]
    with the entry [(5, 7)] compares with [<] on either side; the
    second map, at [2], compares with [>] on either side and has the
    entries [(1, 1)] and [(2, 2)], the objects [3] and [4], so that [4]
    is linked to the left of [3] in both of its trees. *)
Definition int_two_orders : bimap.heap Z Z :=
  let h0 := (ctor Z Z int_one_entry).1 in
  let h1 := default h0 (fst <$> bimap.insert Z Z Z.gtb Z.gtb h0 2%nat 1 1) in
  default h1 (fst <$> bimap.insert Z Z Z.gtb Z.gtb h1 2%nat 2 2).

(** [int()] on either side. *)
Definition int_default (s : side) : key_t Z Z s :=
  match s with left_tag => 0 | right_tag => 0 end.

(** The map after [insert(5, 0)] on a new map: the right key of its
    entry, the object [1], is [int()]. *)
Definition int_default_entry : bimap.heap Z Z :=
  default int_map (fst <$> bimap.insert Z Z Z.ltb Z.ltb int_map 0%nat 5 0).

End examples.

(** * Proofs *)

Import shape order.
Set Warnings "-clear-no-such-hyp".
Local Close Scope Z_scope.

(** ** Linked trees and their shapes *)

Section shape_facts.

Implicit Types (st : gmap nat E.t) (t l r : tree) (x y p : nat).

Lemma rep_ext st st' p t :
  (∀ x, x ∈ inorder t → st' !! x = st !! x) → rep st p t → rep st' p t.
Proof.
  revert p. induction t as [|l IHl x r IHr]; intros p Hagree; simpl; [done|].
  intros (Hx & Hl & Hr). split_and!.
  - rewrite Hagree; [done|]. set_solver.
  - apply IHl; [|done]. intros z Hz. apply Hagree. set_solver.
  - apply IHr; [|done]. intros z Hz. apply Hagree. set_solver.
Qed.

Lemma root_of_elem t x : root_of t = Some x → x ∈ inorder t.
Proof. destruct t; simpl; [done|]. intros [= ->]. set_solver. Qed.

Lemma root_of_None t : root_of t = None → t = Leaf.
Proof. by destruct t. Qed.

Lemma rep_lookup st p t x :
  rep st p t → x ∈ inorder t → is_Some (st !! x).
Proof.
  revert p. induction t as [|l IHl y r IHr]; intros p; simpl.
  - intros _ Hx. by apply not_elem_of_nil in Hx.
  - intros (Hy & Hl & Hr) Hx.
    apply elem_of_app in Hx as [Hx|Hx]; [by eapply IHl|].
    apply elem_of_cons in Hx as [->|Hx]; [by eexists|by eapply IHr].
Qed.

(** Hanging a subtree below another parent only rewrites the parent
    pointer of its root. *)
Lemma rep_reparent st st' p p' t :
  rep st p t →
  (∀ x e, root_of t = Some x → st !! x = Some e →
          st' !! x = Some (E.set_parent (Some p') e)) →
  (∀ x, x ∈ inorder t → root_of t ≠ Some x → st' !! x = st !! x) →
  NoDup (inorder t) →
  rep st' p' t.
Proof.
  destruct t as [|l x r]; simpl; [done|].
  intros (Hx & Hl & Hr) Hroot Hrest Hnd.
  apply NoDup_app in Hnd as (Hndl & Hlx & Hndr).
  apply NoDup_cons in Hndr as [Hxr Hndr].
  split_and!.
  - by rewrite (Hroot x _ eq_refl Hx).
  - eapply rep_ext; [|done]. intros z Hz. apply Hrest; [set_solver|].
    intros [= ->]. set_solver.
  - eapply rep_ext; [|done]. intros z Hz. apply Hrest; [set_solver|].
    intros [= ->]. set_solver.
Qed.

Lemma min_in_subtree_rep st p l x r f :
  rep st p (Node l x r) → height l < f →
  E.min_in_subtree f st x = Some (hd x (inorder l)).
Proof.
  revert p x r f. induction l as [|ll IHll y lr _]; intros p x r f.
  - simpl. intros (Hx & _) Hf. destruct f as [|f]; [lia|]. simpl.
    by rewrite Hx.
  - intros (Hx & Hl & _) Hf. destruct f as [|f]; [simpl in Hf; lia|].
    cbn [E.min_in_subtree]. rewrite Hx. cbn.
    rewrite (IHll x y lr f); [|done|simpl in Hf; lia].
    f_equal. simpl. destruct (inorder ll); done.
Qed.

(** Where an occurrence falls in a concatenation around a pivot. *)
Lemma split_around {A} (l1 l2 pre post : list A) (a x : A) :
  l1 ++ a :: l2 = pre ++ x :: post →
  (∃ post1, l1 = pre ++ x :: post1 ∧ post = post1 ++ a :: l2)
  ∨ (x = a ∧ pre = l1 ∧ post = l2)
  ∨ (∃ pre2, l2 = pre2 ++ x :: post ∧ pre = l1 ++ a :: pre2).
Proof.
  revert pre. induction l1 as [|b l1 IH]; intros pre; simpl.
  - destruct pre as [|c pre]; simpl; intros [= -> ->].
    + right; left. done.
    + right; right. by exists pre.
  - destruct pre as [|c pre]; simpl; intros [= -> Heq].
    + left. by exists l1.
    + destruct (IH _ Heq) as [(post1 & -> & ->)|[(-> & -> & ->)|(pre2 & -> & ->)]].
      * left. by exists post1.
      * right; left. done.
      * right; right. by exists pre2.
Qed.

Lemma is_left_child_left st p l x r y :
  rep st p (Node l x r) → root_of l = Some y →
  E.is_left_child st y = Some true.
Proof.
  destruct l as [|ll z lr]; simpl; [done|]. intros (Hx & (Hz & _) & _) [= ->].
  unfold E.is_left_child. rewrite Hz. simpl. rewrite Hx. simpl.
  by rewrite bool_decide_eq_true_2.
Qed.

Lemma is_left_child_right st p l x r y :
  rep st p (Node l x r) → NoDup (inorder (Node l x r)) → root_of r = Some y →
  E.is_left_child st y = Some false.
Proof.
  destruct r as [|rl z rr]; simpl; [done|].
  intros (Hx & _ & (Hz & _)) Hnd [= ->].
  unfold E.is_left_child. rewrite Hz. simpl. rewrite Hx. simpl.
  rewrite bool_decide_eq_false_2; [done|].
  intros Hl%root_of_elem. apply NoDup_app in Hnd as (_ & Hd & _).
  apply (Hd _ Hl). set_solver.
Qed.

Lemma next_up_mono st x f f' res :
  E.next_up f st x = Some res → f ≤ f' → E.next_up f' st x = Some res.
Proof.
  revert x f'. induction f as [|f IH]; intros x f'; [done|].
  destruct f' as [|f']; [lia|]. simpl.
  destruct (E.is_left_child st x) as [b|]; [|done]. simpl.
  destruct (st !! x) as [e|]; [|done]. simpl.
  destruct (E.parent e) as [q|]; [|done]. simpl.
  destruct b; [done|]. intros ? ?. apply IH; [done|lia].
Qed.

Lemma next_up_step_left st p l x r y :
  rep st p (Node l x r) → root_of l = Some y →
  E.next_up 1 st y = Some x.
Proof.
  intros Hrep Hy. simpl.
  rewrite (is_left_child_left _ _ _ _ _ _ Hrep Hy). simpl.
  destruct l as [|ll z lr]; simplify_eq/=.
  destruct Hrep as (_ & (-> & _) & _). done.
Qed.

Lemma next_up_step_right st p l x r y f :
  rep st p (Node l x r) → NoDup (inorder (Node l x r)) → root_of r = Some y →
  E.next_up (S f) st y = E.next_up f st x.
Proof.
  intros Hrep Hnd Hy. simpl.
  rewrite (is_left_child_right _ _ _ _ _ _ Hrep Hnd Hy). simpl.
  destruct r as [|rl z rr]; simplify_eq/=.
  destruct Hrep as (_ & _ & (-> & _)). done.
Qed.

(** [next] on an entry of a linked tree: the following entry in order,
    or, from the last entry, the climb continues above the root of the
    tree. *)
Lemma next_rep t :
  ∀ st p, rep st p t → NoDup (inorder t) →
  ∀ pre x post, inorder t = pre ++ x :: post →
  match post with
  | y :: _ => ∀ f, height t ≤ f → E.next f st x = Some y
  | [] =>
      (∃ e, st !! x = Some e ∧ E.right e = None)
      ∧ ∀ f res z, root_of t = Some z → E.next_up f st z = Some res →
                   E.next_up (f + height t) st x = Some res
  end.
Proof.
  induction t as [|l IHl n r IHr]; intros st p Hrep Hnd pre x post Hsplit.
  { by destruct pre. }
  pose proof Hrep as (Hn & Hl & Hr).
  pose proof Hnd as (Hndl & Hdisj & [Hnr Hndr]%NoDup_cons)%NoDup_app.
  simpl in Hsplit.
  apply split_around in Hsplit
    as [(post1 & Hl1 & ->)|[(-> & -> & ->)|(pre2 & Hr2 & ->)]].
  - (* in the left subtree *)
    specialize (IHl st n Hl Hndl pre x post1 Hl1).
    destruct post1 as [|y post1]; simpl.
    + destruct IHl as ((e & He & Hre) & Hup). intros f Hf.
      unfold E.next. rewrite He. simpl. rewrite Hre.
      destruct (root_of l) as [z|] eqn:Hz.
      2:{ apply root_of_None in Hz. subst l. by destruct pre. }
      eapply next_up_mono.
      * eapply (Hup 1%nat); [done|]. by eapply next_up_step_left.
      * simpl in Hf. lia.
    + intros f Hf. apply IHl. simpl in Hf. lia.
  - (* the root *)
    destruct r as [|rl y rr].
    + simpl. split; [by eexists|].
      intros f res z [= <-] Hup. eapply next_up_mono; [done|lia].
    + simpl. assert (∃ w ws, inorder rl ++ y :: inorder rr = w :: ws
                             ∧ w = hd y (inorder rl)) as (w & ws & -> & ->).
      { destruct (inorder rl); simpl; eauto. }
      intros f Hf. unfold E.next. rewrite Hn. simpl.
      eapply min_in_subtree_rep; [done|]. simpl in Hf. lia.
  - (* in the right subtree *)
    specialize (IHr st n Hr Hndr pre2 x post Hr2).
    destruct post as [|y post].
    + destruct IHr as (He & Hup). split; [done|].
      intros f res z [= <-] Hres.
      destruct (root_of r) as [z|] eqn:Hz.
      2:{ apply root_of_None in Hz. subst r. by destruct pre2. }
      eapply next_up_mono.
      * eapply (Hup (S f)); [done|].
        by erewrite next_up_step_right.
      * simpl. lia.
    + intros f Hf. apply IHr. simpl in Hf. lia.
Qed.

Lemma link_None d st p pe :
  st !! p = Some pe →
  link d st (Some p) None = Some (<[p := set_child d None pe]> st).
Proof. intros Hp. destruct d; simpl; unfold E.link_left, E.link_right; by rewrite Hp. Qed.

Lemma link_Some d st p pe c ce :
  st !! p = Some pe → c ≠ p → st !! c = Some ce →
  link d st (Some p) (Some c)
  = Some (<[c := E.set_parent (Some p) ce]> (<[p := set_child d (Some c) pe]> st)).
Proof.
  intros Hp Hne Hc.
  destruct d; simpl; unfold E.link_left, E.link_right; rewrite Hp; simpl;
    rewrite lookup_insert_ne by done; by rewrite Hc.
Qed.

Lemma link_with_parent_rep d st x ex p pe c :
  st !! x = Some ex → E.parent ex = Some p → st !! p = Some pe →
  child d pe = Some x → (d = dR → E.left pe ≠ Some x) →
  E.link_with_parent st x c = link d st (Some p) c.
Proof.
  intros Hx Hpar Hp Hch Hd. unfold E.link_with_parent, E.is_left_child.
  rewrite Hx. cbn [mbind option_bind]. rewrite Hpar. cbn [mbind option_bind].
  rewrite Hp. cbn [mbind option_bind]. destruct d; cbn [child link] in *.
  - rewrite bool_decide_eq_true_2; done.
  - rewrite bool_decide_eq_false_2; auto.
Qed.

Lemma set_child_id d e : set_child d (child d e) e = e.
Proof. by destruct d, e. Qed.

Lemma extract_min_inorder l x r :
  inorder (Node l x r)
  = (extract_min l x r).1 :: inorder (extract_min l x r).2.
Proof.
  revert x r. induction l as [|ll IH y lr _]; intros x r; [done|].
  cbn [extract_min]. specialize (IH y lr).
  destruct (extract_min ll y lr) as [m l'] eqn:Hm. simpl in *.
  by rewrite IH.
Qed.

Lemma extract_min_hd l x r : (extract_min l x r).1 = hd x (inorder l).
Proof.
  revert x r. induction l as [|ll IH y lr _]; intros x r; [done|].
  cbn [extract_min]. specialize (IH y lr).
  destruct (extract_min ll y lr) as [m l'] eqn:Hm. simpl in *.
  subst m. by destruct (inorder ll).
Qed.

Lemma inorder_join l r : inorder (join l r) = inorder l ++ inorder r.
Proof.
  destruct l as [|ll a lr]; [done|]. destruct r as [|rl y rr].
  { simpl. by rewrite app_nil_r. }
  unfold join. pose proof (extract_min_inorder rl y rr) as Hm.
  destruct (extract_min rl y rr) as [m r']. simpl in *. by rewrite Hm.
Qed.

Lemma remove_Node x l y r :
  remove x (Node l y r)
  = if decide (x = y) then join l r
    else if decide (x ∈ inorder l) then Node (remove x l) y r
         else Node l y (remove x r).
Proof. done. Qed.

Lemma remove_min l x r :
  NoDup (inorder (Node l x r)) →
  remove (extract_min l x r).1 (Node l x r) = (extract_min l x r).2.
Proof.
  revert x r. induction l as [|ll IH y lr _]; intros x r Hnd.
  { simpl. rewrite decide_True by done. done. }
  pose proof (extract_min_hd (Node ll y lr) x r) as Hhd.
  cbn [extract_min] in *. specialize (IH y lr).
  destruct (extract_min ll y lr) as [m l'] eqn:Hm. cbn [fst snd] in *.
  assert (m ∈ inorder (Node ll y lr)) as Hin.
  { rewrite Hhd. simpl. destruct (inorder ll); set_solver. }
  rewrite remove_Node. apply NoDup_app in Hnd as (Hndl & Hd & _).
  rewrite decide_False by (intros ->; apply (Hd _ Hin); set_solver).
  rewrite decide_True by done. by rewrite IH.
Qed.

Lemma inorder_remove t x pre post :
  NoDup (inorder t) → inorder t = pre ++ x :: post →
  inorder (remove x t) = pre ++ post.
Proof.
  revert pre post. induction t as [|l IHl n r IHr]; intros pre post Hnd Hs.
  { by destruct pre. }
  pose proof Hnd as (Hndl & Hdisj & [Hnr Hndr]%NoDup_cons)%NoDup_app.
  simpl in Hs. rewrite remove_Node.
  apply split_around in Hs
    as [(post1 & Hl1 & ->)|[(-> & -> & ->)|(pre2 & Hr2 & ->)]].
  - assert (x ∈ inorder l) by (rewrite Hl1; set_solver).
    rewrite decide_False by (intros ->; apply (Hdisj n); set_solver).
    rewrite decide_True by done. simpl. rewrite (IHl _ _ Hndl Hl1).
    by rewrite <- app_assoc.
  - rewrite decide_True by done. apply inorder_join.
  - assert (x ∈ inorder r) by (rewrite Hr2; set_solver).
    rewrite decide_False by (intros ->; done).
    rewrite decide_False by (intros ?; apply (Hdisj x); set_solver).
    simpl. rewrite (IHr _ _ Hndr Hr2). by rewrite <- app_assoc.
Qed.

Lemma remove_subseteq t x : inorder (remove x t) ⊆ inorder t.
Proof.
  induction t as [|l IHl n r IHr]; [done|]. rewrite remove_Node.
  repeat case_decide; simpl; [rewrite inorder_join|..]; set_solver.
Qed.

Lemma unlink_S f st x :
  E.unlink (S f) st x =
    e ← st !! x;
    if negb (E.in_tree e) then Some st
    else if E.is_leaf e || E.has_one_child e then
      E.link_with_parent st x (E.get_only_child e)
    else
      n ← E.next (S f) st x;
      st1 ← E.unlink f st n;
      e1 ← st1 !! x;
      st2 ← E.link_left st1 (Some n) (E.left e1);
      e2 ← st2 !! x;
      st3 ← E.link_right st2 (Some n) (E.right e2);
      st4 ← E.link_with_parent st3 x (Some n);
      _ ← st4 !! x;
      Some (<[x := E.null]> st4).
Proof. done. Qed.

(** Unlinking the root of a subtree with at most one child. *)
Lemma unlink_root_simple st p pe d l x r f :
  st !! p = Some pe → child d pe = Some x → (d = dR → E.left pe ≠ Some x) →
  rep st p (Node l x r) → NoDup (inorder (Node l x r)) →
  p ∉ inorder (Node l x r) → l = Leaf ∨ r = Leaf →
  ∃ st', E.unlink (S f) st x = Some st'
    ∧ st' !! p = Some (set_child d (root_of (join l r)) pe)
    ∧ rep st' p (join l r)
    ∧ (∀ z, z ≠ p → z ∉ inorder (Node l x r) → st' !! z = st !! z)
    ∧ (∀ z, is_Some (st' !! z) ↔ is_Some (st !! z)).
Proof.
  intros Hp Hch Hd (Hx & Hl & Hr) Hnd Hpt Hsimple.
  (* the child that takes the place of [x] *)
  assert (∃ c, join l r = c ∧ rep st x c ∧ inorder c ⊆ inorder (Node l x r)
               ∧ (x ∉ inorder c) ∧ NoDup (inorder c)
               ∧ E.get_only_child (E.mk (root_of l) (root_of r) (Some p))
                 = root_of c
               ∧ (E.is_leaf (E.mk (root_of l) (root_of r) (Some p))
                  || E.has_one_child (E.mk (root_of l) (root_of r) (Some p)))
                 = true) as (c & -> & Hc & Hsub & Hxc & Hndc & Hget & Hbr).
  { apply NoDup_app in Hnd as (Hndl & Hdl & [Hxr Hndr]%NoDup_cons).
    destruct Hsimple as [-> | ->].
    - exists r. split_and!; [done|done|set_solver|done|done| |]; by destruct r.
    - exists l. split_and!; [by destruct l|done|set_solver| |done| |].
      + intros ?. apply (Hdl x); set_solver.
      + by destruct l.
      + by destruct l. }
  rewrite unlink_S, Hx. cbn [mbind option_bind]. cbn [E.in_tree E.parent E.is_null andb negb].
  rewrite Hbr, Hget.
  rewrite (link_with_parent_rep d st x _ p pe) by done.
  destruct c as [|cl z cr].
  - rewrite (link_None _ _ _ _ Hp). eexists. split; [done|]. split_and!.
    + by rewrite lookup_insert_eq.
    + done.
    + intros w Hw _. by rewrite lookup_insert_ne.
    + intros w. rewrite lookup_insert. case_decide; subst; [|done].
      split; intros _; by eexists.
  - destruct Hc as (Hz & Hcl & Hcr).
    assert (z ≠ p) as Hzp by set_solver.
    rewrite (link_Some _ _ _ _ _ _ Hp Hzp Hz). eexists. split; [done|].
    split_and!.
    + rewrite lookup_insert_ne by done. by rewrite lookup_insert_eq.
    + eapply (rep_reparent st _ x p (Node cl z cr)).
      * done.
      * intros ? ? [= <-] ?. simplify_eq. by rewrite lookup_insert_eq.
      * intros w Hw Hwz. rewrite !lookup_insert_ne; [done|set_solver|].
        intros ->. by apply Hwz.
      * done.
    + intros w Hw Hwt. rewrite !lookup_insert_ne; [done|done|set_solver].
    + intros w. rewrite !lookup_insert. repeat case_decide; subst; try done;
        split; intros _; by eexists.
Qed.

Lemma height_Node l x r :
  height (Node l x r) = S (Nat.max (height l) (height r)).
Proof. done. Qed.

(** Unlinking an entry with two children, whose successor [m] has
    already been unlinked from the right subtree (giving [st1]). *)
Lemma unlink_root_two st p pe d l a n r m r' f st1 :
  st !! p = Some pe → child d pe = Some n → (d = dR → E.left pe ≠ Some n) →
  st !! n = Some (E.mk (Some a) (root_of r) (Some p)) →
  root_of l = Some a → is_Some (root_of r) → rep st n l → rep st n r →
  NoDup (inorder l ++ n :: inorder r) → p ∉ inorder l ++ n :: inorder r →
  inorder r = m :: inorder r' →
  E.next (S f) st n = Some m →
  E.unlink f st m = Some st1 →
  st1 !! n = Some (E.mk (Some a) (root_of r') (Some p)) →
  rep st1 n r' →
  (∀ z, z ≠ n → z ∉ inorder r → st1 !! z = st !! z) →
  (∀ z, is_Some (st1 !! z) ↔ is_Some (st !! z)) →
  ∃ st', E.unlink (S f) st n = Some st'
    ∧ st' !! p = Some (set_child d (Some m) pe)
    ∧ rep st' p (Node l m r')
    ∧ (∀ z, z ≠ p → z ∉ inorder l ++ n :: inorder r → st' !! z = st !! z)
    ∧ (∀ z, is_Some (st' !! z) ↔ is_Some (st !! z)).
Proof.
  intros Hp Hch Hd Hn Hla [y Hry] Hl Hr Hnd Hpt Hmin Hnext Hun Hn1 Hr1 Hfr1 Hdom1.
  pose proof Hnd as (Hndl & Hdisj & [Hnr Hndr]%NoDup_cons)%NoDup_app.
  assert (m ∈ inorder r) as Hmr by (rewrite Hmin; set_solver).
  assert (NoDup (m :: inorder r')) as [Hmr' Hndr']%NoDup_cons
    by (by rewrite <- Hmin).
  assert (inorder r' ⊆ inorder r) as Hr'r by (rewrite Hmin; set_solver).
  assert (a ∈ inorder l) as Hal by (by apply root_of_elem).
  assert (a ≠ m) as Ham by (intros ->; apply (Hdisj m); set_solver).
  assert (a ≠ n) as Han by (intros ->; apply (Hdisj n); set_solver).
  assert (m ≠ n) as Hmn by (intros ->; done).
  assert (m ≠ p) as Hmp by (intros ->; set_solver).
  assert (a ≠ p) as Hap by (intros ->; set_solver).
  assert (p ≠ n) as Hpn by (intros ->; set_solver).
  assert (∃ me, st1 !! m = Some me) as [me Hme].
  { apply Hdom1. by apply (rep_lookup st n r). }
  assert (∃ ae, st !! a = Some ae) as [ae Ha] by (by apply (rep_lookup st n l)).
  assert (st1 !! a = Some ae) as Ha1.
  { rewrite Hfr1; [done|done|]. intros ?. apply (Hdisj a); set_solver. }
  rewrite unlink_S, Hn. cbn [mbind option_bind].
  rewrite Hry. cbn [E.in_tree E.is_leaf E.has_one_child E.left E.right
                    E.parent E.is_null andb orb negb].
  rewrite Hnext. cbn [mbind option_bind]. rewrite Hun. cbn [mbind option_bind].
  rewrite Hn1. cbn [mbind option_bind E.left].
  change E.link_left with (link dL). change E.link_right with (link dR).
  rewrite (link_Some dL st1 m me a ae Hme Ham Ha1).
  cbn [mbind option_bind set_child].
  set (st2 := <[a:=_]> (<[m:=_]> st1)).
  assert (st2 !! n = Some (E.mk (Some a) (root_of r') (Some p))) as Hn2.
  { subst st2. by rewrite !lookup_insert_ne. }
  rewrite Hn2. cbn [mbind option_bind E.right].
  assert (st2 !! m = Some (E.set_left (Some a) me)) as Hm2.
  { subst st2. rewrite lookup_insert_ne by done. by rewrite lookup_insert_eq. }
  assert (∃ st3, link dR st2 (Some m) (root_of r') = Some st3
            ∧ st3 !! m = Some (E.mk (Some a) (root_of r') (E.parent me))
            ∧ rep st3 m r'
            ∧ (∀ z, z ≠ m → z ∉ inorder r' → st3 !! z = st2 !! z)
            ∧ (∀ z, is_Some (st3 !! z) ↔ is_Some (st2 !! z)))
    as (st3 & Hlk3 & Hm3 & Hr3 & Hfr3 & Hdom3).
  { destruct r' as [|rl' b rr'].
    - rewrite (link_None _ _ _ _ Hm2). eexists. split; [done|]. split_and!.
      + by rewrite lookup_insert_eq.
      + done.
      + intros z Hz _. by rewrite lookup_insert_ne.
      + intros z. rewrite lookup_insert. case_decide; subst; [|done].
        split; intros _; by eexists.
    - pose proof Hr1 as (Hb1 & _).
      assert (b ∈ inorder r) as Hbr by set_solver.
      assert (b ≠ m) as Hbm by (intros ->; set_solver).
      assert (b ≠ a) as Hba by (intros ->; apply (Hdisj a); set_solver).
      assert (st2 !! b = st1 !! b) as Hb2
        by (subst st2; by rewrite !lookup_insert_ne).
      rewrite (link_Some _ _ _ _ _ _ Hm2 Hbm (eq_trans Hb2 Hb1)).
      eexists. split; [done|]. split_and!.
      + rewrite lookup_insert_ne by done. by rewrite lookup_insert_eq.
      + eapply (rep_reparent st1 _ n m); [exact Hr1| | |done].
        * intros ? ? [= <-] ?. simplify_eq. by rewrite lookup_insert_eq.
        * intros z Hz Hzb.
          assert (z ≠ b) by (intros ->; done).
          assert (z ≠ m) by (intros ->; done).
          assert (z ≠ a) by (intros ->; apply (Hdisj a); set_solver).
          subst st2. by rewrite !lookup_insert_ne.
      + intros z Hzm Hz. rewrite !lookup_insert_ne; [done|done|set_solver].
      + intros z. destruct (decide (b = z)) as [<-|].
        { rewrite lookup_insert_eq, Hb2, Hb1. split; intros _; by eexists. }
        rewrite lookup_insert_ne by done. destruct (decide (m = z)) as [<-|].
        { rewrite lookup_insert_eq, Hm2. split; intros _; by eexists. }
        by rewrite lookup_insert_ne. }
  rewrite Hlk3. cbn [mbind option_bind].
  assert (st3 !! n = Some (E.mk (Some a) (root_of r') (Some p))) as Hn3.
  { rewrite Hfr3; [done|done|set_solver]. }
  assert (st3 !! p = Some pe) as Hp3.
  { rewrite Hfr3; [|done|set_solver]. subst st2.
    rewrite !lookup_insert_ne by done.
    rewrite Hfr1; [done|done|set_solver]. }
  rewrite (link_with_parent_rep d st3 n _ p pe (Some m) Hn3 eq_refl Hp3 Hch Hd).
  rewrite (link_Some _ _ _ _ _ _ Hp3 Hmp Hm3).
  cbn [mbind option_bind].
  rewrite !lookup_insert_ne by done. rewrite Hn3. cbn [mbind option_bind].
  eexists. split; [done|].
  assert (∀ z, z ≠ n → z ≠ m → z ≠ p → z ≠ a → z ∉ inorder r' →
               <[n:=E.null]> (<[m:=E.set_parent (Some p)
                  (E.mk (Some a) (root_of r') (E.parent me))]>
                  (<[p:=set_child d (Some m) pe]> st3)) !! z = st1 !! z)
    as Hrest.
  { intros z ? ? ? ? ?. rewrite !lookup_insert_ne by done.
    rewrite Hfr3 by done. subst st2. by rewrite !lookup_insert_ne. }
  split_and!.
  - rewrite !lookup_insert_ne by done. by rewrite lookup_insert_eq.
  - cbn [rep]. rewrite Hla. split_and!.
    + rewrite lookup_insert_ne by done. by rewrite lookup_insert_eq.
    + eapply (rep_reparent st _ n m); [exact Hl| | |done].
      * intros ? ? Hroot ?. simplify_eq.
        rewrite !lookup_insert_ne by done.
        rewrite Hfr3; [|done|].
        2:{ intros ?. apply (Hdisj a); set_solver. }
        subst st2. by rewrite lookup_insert_eq.
      * intros z Hz Hza.
        assert (z ≠ a) by (intros ->; by rewrite Hla in Hza).
        assert (z ∉ inorder r) by (intros ?; apply (Hdisj z); set_solver).
        rewrite Hrest; [|set_solver..].
        apply Hfr1; [set_solver|done].
    + eapply (rep_ext st3); [|done]. intros z Hz.
      assert (z ∈ inorder r) by set_solver.
      rewrite !lookup_insert_ne; [done|set_solver..].
  - intros z Hzp Hz.
    rewrite Hrest; [|set_solver..].
    apply Hfr1; set_solver.
  - intros z. rewrite <- Hdom1. destruct (decide (n = z)) as [<-|].
    { rewrite lookup_insert_eq, Hn1. split; intros _; by eexists. }
    rewrite lookup_insert_ne by done. destruct (decide (m = z)) as [<-|].
    { rewrite lookup_insert_eq, Hme. split; intros _; by eexists. }
    rewrite lookup_insert_ne by done. destruct (decide (p = z)) as [<-|].
    { rewrite lookup_insert_eq, Hfr1, Hp; [|done|set_solver].
      split; intros _; by eexists. }
    rewrite lookup_insert_ne by done. rewrite Hdom3. subst st2.
    destruct (decide (a = z)) as [<-|].
    { rewrite lookup_insert_eq, Ha1. split; intros _; by eexists. }
    by rewrite !lookup_insert_ne.
Qed.

(** [unlink] of an entry anywhere in a linked tree. *)
Lemma unlink_rep t :
  ∀ st p pe d x f,
  st !! p = Some pe → child d pe = root_of t →
  (d = dR → E.left pe ≠ root_of t) →
  rep st p t → NoDup (inorder t) → p ∉ inorder t → x ∈ inorder t →
  height t ≤ f →
  ∃ st', E.unlink f st x = Some st'
    ∧ st' !! p = Some (set_child d (root_of (remove x t)) pe)
    ∧ rep st' p (remove x t)
    ∧ (∀ z, z ≠ p → z ∉ inorder t → st' !! z = st !! z)
    ∧ (∀ z, is_Some (st' !! z) ↔ is_Some (st !! z)).
Proof.
  induction t as [|l IHl n r IHr];
    intros st p pe d x f Hp Hch Hd Hrep Hnd Hpt Hxt Hf.
  { by apply not_elem_of_nil in Hxt. }
  cbn [root_of] in Hch, Hd.
  pose proof Hrep as (Hn & Hl & Hr).
  pose proof Hnd as (Hndl & Hdisj & [Hnr Hndr]%NoDup_cons)%NoDup_app.
  assert (n ∉ inorder l) as Hnl by (intros ?; apply (Hdisj n); set_solver).
  assert (p ≠ n) as Hpn by set_solver.
  assert (∀ a b, root_of l = Some a → root_of r = Some b → a ≠ b) as Hlr.
  { intros a b Ha%root_of_elem Hb%root_of_elem ->.
    apply (Hdisj b); set_solver. }
  rewrite height_Node in Hf. destruct f as [|f]; [lia|].
  rewrite remove_Node. destruct (decide (x = n)) as [->|Hxn].
  { (* the root itself *)
    destruct (root_of l) as [a|] eqn:Hla.
    2:{ apply root_of_None in Hla. eapply unlink_root_simple; eauto. }
    destruct (root_of r) as [y|] eqn:Hry.
    2:{ apply root_of_None in Hry. eapply unlink_root_simple; eauto. }
    destruct r as [|rl y' rr]; [done|]. injection Hry as ->.
    pose proof (extract_min_hd rl y rr) as Hmhd.
    pose proof (extract_min_inorder rl y rr) as Hmin.
    pose proof (remove_min rl y rr Hndr) as Hmrem.
    assert (join l (Node rl y rr)
            = Node l (extract_min rl y rr).1 (extract_min rl y rr).2) as ->.
    { destruct l; [done|]. unfold join. by destruct (extract_min rl y rr). }
    destruct (extract_min rl y rr) as [m r'] eqn:Hext. cbn [fst snd] in *.
    set (r := Node rl y rr) in *.
    assert (m ∈ inorder r) as Hmr by (rewrite Hmin; set_solver).
    destruct (IHr st n _ dR m f Hn eq_refl)
      as (st1 & Hun & Hn1 & Hr1 & Hfr1 & Hdom1);
      [intros _; simpl; intros [= ->]; by eapply Hlr
      |done|done|done|done|lia|].
    rewrite Hmrem in Hn1, Hr1.
    eapply (unlink_root_two st p pe d l a n r m r' f st1); try done.
    unfold E.next. rewrite Hn. cbn [mbind option_bind E.right root_of].
    subst r. cbn [root_of]. rewrite Hmhd.
    eapply min_in_subtree_rep; [exact Hr|]. rewrite height_Node in Hf. lia. }
  destruct (decide (x ∈ inorder l)) as [Hxl|Hxl].
  - (* in the left subtree *)
    destruct (IHl st n _ dL x (S f) Hn eq_refl)
      as (st' & Hun & Hn' & Hl' & Hfr & Hdom);
      [done|done|done|done|done|lia|].
    exists st'. split; [done|]. split_and!.
    + rewrite Hfr; [|done|set_solver]. cbn [root_of]. rewrite <- Hch.
      by rewrite set_child_id.
    + cbn [rep]. split_and!; [done|done|].
      eapply rep_ext; [|exact Hr]. intros z Hz. apply Hfr; [set_solver|].
      intros ?. apply (Hdisj z); set_solver.
    + intros z Hzp Hz. apply Hfr; set_solver.
    + done.
  - (* in the right subtree *)
    assert (x ∈ inorder r) as Hxr by set_solver.
    destruct (IHr st n _ dR x (S f) Hn eq_refl)
      as (st' & Hun & Hn' & Hr' & Hfr & Hdom);
      [|done|done|done|done|lia|].
    { intros _. simpl. destruct (root_of r) as [b|] eqn:Hb.
      - destruct (root_of l) as [a|] eqn:Ha; [|done].
        intros [= ->]. by eapply Hlr.
      - apply root_of_None in Hb. subst r. by apply not_elem_of_nil in Hxr. }
    exists st'. split; [done|]. split_and!.
    + rewrite Hfr; [|done|set_solver]. cbn [root_of]. rewrite <- Hch.
      by rewrite set_child_id.
    + cbn [rep]. split_and!; [done| |done].
      eapply rep_ext; [|exact Hl]. intros z Hz. apply Hfr; [set_solver|].
      intros ?. apply (Hdisj z); set_solver.
    + intros z Hzp Hz. apply Hfr; set_solver.
    + done.
Qed.

End shape_facts.

(** ** Search and insertion in an ordered tree *)

Section order_facts.

Context {Key : Type}.
Variable Comparator : Key → Key → bool.
Variable get_key : nat → option Key.
Hypothesis Hsw : strict_weak Comparator.

Implicit Types (st : gmap nat E.t) (t l r : tree) (x y p : nat).

Local Abbreviation lt_node := (lt_node Comparator get_key).
Local Abbreviation lt_nodeb := (lt_nodeb Comparator get_key).
Local Abbreviation has_key := (has_key Comparator get_key).
Local Abbreviation keyed := (keyed get_key).
Local Abbreviation bst := (bst Comparator get_key).
Local Abbreviation tins := (tins Comparator get_key).
Local Abbreviation apart := (apart Comparator get_key).
Local Abbreviation equiv_key := (equiv_key Comparator).
Local Abbreviation find_loop := (intr_tree.find_loop Comparator get_key).
Local Abbreviation insert_loop := (intr_tree.insert_loop Comparator get_key).

Lemma lt_equiv a b c :
  Comparator a b = true → equiv_key b c → Comparator a c = true.
Proof.
  intros Hab [Hbc Hcb]. destruct (Comparator a c) eqn:Hac; [done|].
  destruct (Comparator c a) eqn:Hca.
  - by rewrite (sw_trans _ Hsw c a b) in Hcb.
  - assert (equiv_key a b) as [? _]; [|congruence].
    apply (sw_equiv_trans _ Hsw a c b); split; done.
Qed.

Lemma equiv_lt a b c :
  equiv_key a b → Comparator b c = true → Comparator a c = true.
Proof.
  intros [Hab Hba] Hbc. destruct (Comparator a c) eqn:Hac; [done|].
  destruct (Comparator c a) eqn:Hca.
  - by rewrite (sw_trans _ Hsw b c a) in Hba.
  - assert (equiv_key b c) as [? _]; [|congruence].
    apply (sw_equiv_trans _ Hsw b a c); split; done.
Qed.

Lemma lt_node_inv a b :
  lt_node a b →
  ∃ ka kb, get_key a = Some ka ∧ get_key b = Some kb
           ∧ Comparator ka kb = true.
Proof.
  unfold order.lt_node, intr_tree.cmp_node, intr_tree.cmp_key.
  destruct (get_key a) as [ka|]; [|done].
  destruct (get_key b) as [kb|]; [|done]. simpl. intros [= ?]. eauto.
Qed.

Lemma keyed_Node l x r :
  keyed (Node l x r) → keyed l ∧ is_Some (get_key x) ∧ keyed r.
Proof.
  intros Hk. split_and!; [intros z Hz| |intros z Hz]; apply Hk; set_solver.
Qed.

Lemma find_loop_S f st root cur k :
  find_loop (S f) st root cur k =
    match cur with
    | None => Some (intr_tree.end_ root)
    | Some c =>
        kc ← get_key c;
        e ← st !! c;
        if intr_tree.cmp_key Comparator kc k then
          find_loop f st root (E.right e) k
        else if intr_tree.cmp_key Comparator k kc then
          find_loop f st root (E.left e) k
        else Some (Some c)
    end.
Proof. done. Qed.

(** [find] misses when no entry of the tree has an equivalent key. *)
Lemma find_loop_absent t :
  ∀ st p root f k,
  rep st p t → keyed t → (∀ n, n ∈ inorder t → ¬ has_key n k) →
  height t < f →
  find_loop f st root (root_of t) k = Some (intr_tree.end_ root).
Proof.
  induction t as [|l IHl x r IHr]; intros st p root f k Hrep Hk Habs Hf.
  { destruct f; [lia|done]. }
  rewrite height_Node in Hf. destruct f as [|f]; [lia|].
  destruct Hrep as (Hx & Hl & Hr).
  apply keyed_Node in Hk as (Hkl & [kx Hkx] & Hkr).
  cbn [root_of]. rewrite find_loop_S, Hkx. cbn [mbind option_bind].
  rewrite Hx. cbn [mbind option_bind E.left E.right].
  unfold intr_tree.cmp_key.
  destruct (Comparator kx k) eqn:H1.
  { eapply IHr; [done|done| |lia]. intros n Hn. apply Habs. set_solver. }
  destruct (Comparator k kx) eqn:H2.
  { eapply IHl; [done|done| |lia]. intros n Hn. apply Habs. set_solver. }
  exfalso. apply (Habs x); [set_solver|]. by exists kx.
Qed.

(** [find] reaches the entry that has an equivalent key. *)
Lemma find_loop_found t :
  ∀ st p root f k n,
  rep st p t → keyed t → bst t → n ∈ inorder t → has_key n k →
  height t < f →
  find_loop f st root (root_of t) k = Some (Some n).
Proof.
  induction t as [|l IHl x r IHr]; intros st p root f k n Hrep Hk Hb Hn Hnk Hf.
  { by apply not_elem_of_nil in Hn. }
  rewrite height_Node in Hf. destruct f as [|f]; [lia|].
  destruct Hrep as (Hx & Hl & Hr). destruct Hb as (Hbl & Hbr & Hlx & Hxr).
  apply keyed_Node in Hk as (Hkl & [kx Hkx] & Hkr).
  destruct Hnk as (kn & Hkn & Hequiv).
  cbn [root_of]. rewrite find_loop_S, Hkx. cbn [mbind option_bind].
  rewrite Hx. cbn [mbind option_bind E.left E.right].
  unfold intr_tree.cmp_key. simpl in Hn.
  apply elem_of_app in Hn as [Hn|Hn]; [|apply elem_of_cons in Hn as [->|Hn]].
  - (* n is on the left: kn < kx, hence k < kx *)
    destruct (lt_node_inv _ _ (Hlx n Hn)) as (? & ? & ? & ? & Hlt).
    simplify_eq.
    assert (Comparator k kx = true) as H2.
    { eapply equiv_lt; [|done]. destruct Hequiv. by split. }
    assert (Comparator kx k = false) as H1.
    { destruct (Comparator kx k) eqn:H1; [|done].
      pose proof (sw_trans _ Hsw k kx k H2 H1) as Hc.
      by rewrite (sw_irrefl _ Hsw k) in Hc. }
    rewrite H1, H2. eapply IHl; [done|done|done|done|by exists kn|lia].
  - simplify_eq. destruct Hequiv as [-> ->]. done.
  - destruct (lt_node_inv _ _ (Hxr n Hn)) as (? & ? & ? & ? & Hlt).
    simplify_eq.
    assert (Comparator kx k = true) as H1 by (by eapply lt_equiv).
    rewrite H1. eapply IHr; [done|done|done|done|by exists kn|lia].
Qed.

Lemma apart_Node e l x r :
  apart e (Node l x r) →
  apart e l ∧ (lt_node x e ∨ lt_node e x) ∧ apart e r.
Proof.
  intros Ha. split_and!; [intros z Hz| |intros z Hz]; apply Ha; set_solver.
Qed.

Lemma absent_apart e ke t :
  keyed t → get_key e = Some ke →
  (∀ n, n ∈ inorder t → ¬ has_key n ke) → apart e t.
Proof.
  intros Hk He Habs n Hn. destruct (Hk n Hn) as [kn Hkn].
  unfold order.lt_node, intr_tree.cmp_node, intr_tree.cmp_key.
  rewrite Hkn, He. simpl.
  destruct (Comparator kn ke) eqn:H1; [by left|].
  destruct (Comparator ke kn) eqn:H2; [by right|].
  exfalso. apply (Habs n Hn). by exists kn.
Qed.

Lemma lt_node_asym a b : lt_node a b → ¬ lt_node b a.
Proof.
  intros (ka & kb & Ha & Hb & Hab)%lt_node_inv (? & ? & ? & ? & Hba)%lt_node_inv.
  simplify_eq. pose proof (sw_trans _ Hsw _ _ _ Hab Hba) as Hc.
  by rewrite (sw_irrefl _ Hsw) in Hc.
Qed.

Lemma lt_node_trans a b c : lt_node a b → lt_node b c → lt_node a c.
Proof.
  intros (ka & kb & Ha & Hb & Hab)%lt_node_inv (? & kc & ? & Hc & Hbc)%lt_node_inv.
  simplify_eq. unfold order.lt_node, intr_tree.cmp_node, intr_tree.cmp_key.
  rewrite Ha, Hc. simpl. by rewrite (sw_trans _ Hsw _ _ _ Hab Hbc).
Qed.

Lemma tins_Node e l x r :
  tins e (Node l x r)
  = if lt_nodeb x e then Node l x (tins e r)
    else if lt_nodeb e x then Node (tins e l) x r
    else Node l x r.
Proof. done. Qed.

Lemma tins_cases e l x r :
  lt_node x e ∨ lt_node e x →
  (lt_node x e ∧ lt_nodeb x e = true
   ∧ tins e (Node l x r) = Node l x (tins e r))
  ∨ (lt_node e x ∧ lt_nodeb x e = false ∧ lt_nodeb e x = true
     ∧ tins e (Node l x r) = Node (tins e l) x r).
Proof.
  rewrite tins_Node. unfold order.lt_nodeb. intros [H|H].
  - left. by rewrite bool_decide_eq_true_2.
  - right. rewrite bool_decide_eq_false_2 by (by apply lt_node_asym).
    by rewrite bool_decide_eq_true_2.
Qed.

Lemma inorder_tins e t :
  apart e t → inorder (tins e t) ≡ₚ e :: inorder t.
Proof.
  induction t as [|l IHl x r IHr]; intros Ha; [done|].
  apply apart_Node in Ha as (Hal & Hx & Har).
  destruct (tins_cases e l x r Hx) as [(_ & _ & ->)|(_ & _ & _ & ->)]; simpl.
  - rewrite (IHr Har). by rewrite Permutation_middle, (Permutation_swap x e).
  - by rewrite (IHl Hal).
Qed.

Lemma tins_bst e t : bst t → apart e t → bst (tins e t).
Proof.
  induction t as [|l IHl x r IHr]; intros Hb Ha.
  { simpl. split_and!; try done; intros y Hy; by apply not_elem_of_nil in Hy. }
  destruct Hb as (Hbl & Hbr & Hlx & Hxr).
  apply apart_Node in Ha as (Hal & Hx & Har).
  destruct (tins_cases e l x r Hx) as [(Hlt & _ & ->)|(Hlt & _ & _ & ->)];
    simpl; split_and!; auto.
  - intros y Hy. rewrite (inorder_tins e r Har) in Hy.
    apply elem_of_cons in Hy as [->|Hy]; auto.
  - intros y Hy. rewrite (inorder_tins e l Hal) in Hy.
    apply elem_of_cons in Hy as [->|Hy]; auto.
Qed.

Lemma tins_root e t c : root_of t = Some c → root_of (tins e t) = Some c.
Proof.
  destruct t as [|l x r]; [done|]. intros [= ->]. rewrite tins_Node.
  by repeat case_match.
Qed.

Lemma cmp_node_lt a b : lt_node a b →
  intr_tree.cmp_node Comparator get_key a b = Some true.
Proof. done. Qed.

Lemma cmp_node_gt a b : lt_node b a →
  intr_tree.cmp_node Comparator get_key a b = Some false.
Proof.
  intros Hba. pose proof (lt_node_asym _ _ Hba) as Hab.
  apply lt_node_inv in Hba as (kb & ka & Hb & Ha & Hlt).
  unfold order.lt_node, intr_tree.cmp_node, intr_tree.cmp_key in *.
  rewrite Ha, Hb in *. simpl in *. by destruct (Comparator ka kb).
Qed.

Lemma insert_loop_S f st root cur e :
  insert_loop (S f) st root cur e =
    lt_cur_elt ← intr_tree.cmp_node Comparator get_key cur e;
    if (lt_cur_elt : bool) then
      ce ← st !! cur;
      match E.right ce with
      | Some r => insert_loop f st root r e
      | None =>
          st1 ← E.link_right st (Some cur) (Some e);
          Some (st1, intr_tree.as_iterator e)
      end
    else
      lt_elt_cur ← intr_tree.cmp_node Comparator get_key e cur;
      if (lt_elt_cur : bool) then
        ce ← st !! cur;
        match E.left ce with
        | Some l => insert_loop f st root l e
        | None =>
            st1 ← E.link_left st (Some cur) (Some e);
            Some (st1, intr_tree.as_iterator e)
        end
      else Some (st, intr_tree.end_ root).
Proof. done. Qed.

(** The descent of [insert] in a tree none of whose keys is equivalent
    to the new one. *)
Lemma insert_loop_rep e t :
  ∀ st p root f c,
  root_of t = Some c → rep st p t → NoDup (inorder t) → apart e t →
  e ∉ inorder t → st !! e = Some E.null → height t ≤ f →
  ∃ st', insert_loop f st root c e = Some (st', intr_tree.as_iterator e)
    ∧ rep st' p (tins e t)
    ∧ (∀ z, z ∉ inorder t → z ≠ e → st' !! z = st !! z)
    ∧ (∀ z, is_Some (st' !! z) ↔ is_Some (st !! z)).
Proof.
  induction t as [|l IHl x r IHr];
    intros st p root f c Hc Hrep Hnd Ha He Hste Hf; [done|].
  injection Hc as <-.
  rewrite height_Node in Hf. destruct f as [|f]; [lia|].
  pose proof Hrep as (Hx & Hl & Hr).
  pose proof Hnd as (Hndl & Hdisj & [Hxr Hndr]%NoDup_cons)%NoDup_app.
  assert (x ∉ inorder l) as Hxl by (intros ?; apply (Hdisj x); set_solver).
  assert (e ≠ x) as Hex by set_solver.
  apply apart_Node in Ha as (Hal & Hxe & Har).
  rewrite insert_loop_S.
  change E.link_left with (link dL). change E.link_right with (link dR).
  destruct (tins_cases e l x r Hxe) as [(Hlt & _ & ->)|(Hlt & _ & _ & ->)].
  - rewrite (cmp_node_lt _ _ Hlt). cbn [mbind option_bind]. rewrite Hx.
    cbn [mbind option_bind E.right].
    destruct (root_of r) as [rc|] eqn:Hrc.
    + destruct (IHr st x root f rc) as (st' & Hins & Hr' & Hfr & Hdom);
        [done|done|done|done|set_solver|done|lia|].
      exists st'. split; [done|]. split_and!; [|intros; apply Hfr; set_solver|done].
      cbn [rep]. split_and!; [|eapply rep_ext; [|exact Hl]|done].
      * rewrite Hfr by done. rewrite Hx. by rewrite (tins_root e r rc).
      * intros z Hz. apply Hfr; [|set_solver].
        intros ?. apply (Hdisj z); set_solver.
    + apply root_of_None in Hrc as ->.
      rewrite (link_Some dR st x _ e _ Hx Hex Hste). cbn [mbind option_bind].
      eexists. split; [done|]. split_and!.
      * cbn [tins rep root_of]. split_and!; [| |by rewrite lookup_insert_eq|done|done].
        -- rewrite lookup_insert_ne by done. by rewrite lookup_insert_eq.
        -- eapply rep_ext; [|exact Hl]. intros z Hz.
           rewrite !lookup_insert_ne; [done|set_solver..].
      * intros z Hz Hze. rewrite !lookup_insert_ne; [done|set_solver|done].
      * intros z. destruct (decide (e = z)) as [<-|].
        { rewrite lookup_insert_eq, Hste. split; intros _; by eexists. }
        rewrite lookup_insert_ne by done. destruct (decide (x = z)) as [<-|].
        { rewrite lookup_insert_eq, Hx. split; intros _; by eexists. }
        by rewrite lookup_insert_ne.
  - rewrite (cmp_node_gt _ _ Hlt). cbn [mbind option_bind].
    rewrite (cmp_node_lt _ _ Hlt). cbn [mbind option_bind]. rewrite Hx.
    cbn [mbind option_bind E.left].
    destruct (root_of l) as [lc|] eqn:Hlc.
    + destruct (IHl st x root f lc) as (st' & Hins & Hl' & Hfr & Hdom);
        [done|done|done|done|set_solver|done|lia|].
      exists st'. split; [done|]. split_and!; [|intros; apply Hfr; set_solver|done].
      cbn [rep]. split_and!; [|done|eapply rep_ext; [|exact Hr]].
      * rewrite Hfr by done. rewrite Hx. by rewrite (tins_root e l lc).
      * intros z Hz. apply Hfr; [|set_solver].
        intros ?. apply (Hdisj z); set_solver.
    + apply root_of_None in Hlc as ->.
      rewrite (link_Some dL st x _ e _ Hx Hex Hste). cbn [mbind option_bind].
      eexists. split; [done|]. split_and!.
      * cbn [tins rep root_of]. split_and!; [| |done|done|].
        -- rewrite lookup_insert_ne by done. by rewrite lookup_insert_eq.
        -- by rewrite lookup_insert_eq.
        -- eapply rep_ext; [|exact Hr]. intros z Hz.
           rewrite !lookup_insert_ne; [done|set_solver..].
      * intros z Hz Hze. rewrite !lookup_insert_ne; [done|set_solver|done].
      * intros z. destruct (decide (e = z)) as [<-|].
        { rewrite lookup_insert_eq, Hste. split; intros _; by eexists. }
        rewrite lookup_insert_ne by done. destruct (decide (x = z)) as [<-|].
        { rewrite lookup_insert_eq, Hx. split; intros _; by eexists. }
        by rewrite lookup_insert_ne.
Qed.

Lemma bst_sorted t : bst t ↔ StronglySorted lt_node (inorder t).
Proof.
  induction t as [|l IHl x r IHr]; simpl.
  { split; [constructor|done]. }
  rewrite StronglySorted_app, StronglySorted_cons, Forall_forall, IHl, IHr.
  split.
  - intros (Hl & Hr & Hlx & Hxr). split_and!; [|done|done|done].
    intros a b Ha [->|Hb]%elem_of_cons; [by apply Hlx|].
    eapply lt_node_trans; [by apply Hlx|by apply Hxr].
  - intros (Hcross & Hl & Hxr & Hr). split_and!; [done|done| |done].
    intros y Hy. apply Hcross; [done|]. set_solver.
Qed.

Lemma bst_remove t x pre post :
  NoDup (inorder t) → inorder t = pre ++ x :: post →
  bst t → bst (remove x t).
Proof.
  intros Hnd Hs. rewrite !bst_sorted, (inorder_remove t x pre post Hnd Hs), Hs.
  rewrite !StronglySorted_app, StronglySorted_cons, Forall_forall.
  intros (Hcross & Hpre & Hx & Hpost). split_and!; [|done|done].
  intros a b Ha Hb. apply Hcross; [done|]. set_solver.
Qed.

Lemma bst_ext (get_key' : nat → option Key) t :
  (∀ n, n ∈ inorder t → get_key' n = get_key n) →
  bst t → order.bst Comparator get_key' t.
Proof.
  induction t as [|l IHl x r IHr]; [done|]. intros Hagree.
  assert (∀ a b, a ∈ inorder (Node l x r) → b ∈ inorder (Node l x r) →
                 lt_node a b → order.lt_node Comparator get_key' a b) as Hlt.
  { intros a b Ha Hb. unfold order.lt_node, intr_tree.cmp_node.
    by rewrite !Hagree. }
  simpl. intros (Hl & Hr & Hlx & Hxr). split_and!.
  - apply IHl; [|done]. intros; apply Hagree; set_solver.
  - apply IHr; [|done]. intros; apply Hagree; set_solver.
  - intros y Hy. apply Hlt; [set_solver..|by apply Hlx].
  - intros y Hy. apply Hlt; [set_solver..|by apply Hxr].
Qed.

End order_facts.

(** ** Whole trees below their sentinel *)

Section sentinel_facts.

Implicit Types (st : gmap nat E.t) (t l r : tree) (x y p : nat).

Lemma height_le_length t : (height t ≤ length (inorder t))%nat.
Proof.
  induction t as [|l IHl x r IHr]; [done|]. simpl.
  rewrite length_app. simpl. lia.
Qed.

Lemma tree_at_size st root t :
  tree_at st root t → (length (inorder t) < size st)%nat.
Proof.
  intros (Hroot & Hrep & Hnd & Hnin).
  assert (NoDup (root :: inorder t)) as Hnd' by (by constructor).
  assert (root :: inorder t ⊆+ elements (dom st)) as Hsub.
  { apply NoDup_submseteq; [done|]. intros z Hz. apply elem_of_elements.
    apply elem_of_dom. apply elem_of_cons in Hz as [->|Hz]; [by eexists|].
    by eapply rep_lookup. }
  apply submseteq_length in Hsub. simpl in Hsub.
  change (length (elements (dom st))) with (size (dom st)) in Hsub.
  rewrite size_dom in Hsub. lia.
Qed.

Lemma tree_at_fuel st root t :
  tree_at st root t → (height t < size st)%nat.
Proof.
  intros H%tree_at_size. pose proof (height_le_length t). lia.
Qed.

Lemma min_in_subtree_below st l x e f :
  st !! x = Some e → E.left e = root_of l → rep st x l →
  (height l < f)%nat →
  E.min_in_subtree f st x = Some (hd x (inorder l)).
Proof.
  intros Hx Hl Hrep Hf. destruct f as [|f]; [lia|]. simpl.
  rewrite Hx. simpl. rewrite Hl. destruct l as [|ll y lr]; [done|].
  simpl. rewrite (min_in_subtree_rep st x ll y lr f Hrep); [|simpl in Hf; lia].
  f_equal. by destruct (inorder ll).
Qed.

Lemma begin_rep st root t :
  tree_at st root t →
  intr_tree.begin st root = Some (Some (hd root (inorder t))).
Proof.
  intros Ht. pose proof (tree_at_fuel _ _ _ Ht) as Hf.
  destruct Ht as (Hroot & Hrep & _). unfold intr_tree.begin.
  rewrite (min_in_subtree_below st t root _ _ Hroot eq_refl Hrep); [done|].
  unfold E.fuel_of. lia.
Qed.

(** [next] in a whole tree: past the last entry comes the sentinel. *)
Lemma next_tree_at st root t pre x post f :
  tree_at st root t → inorder t = pre ++ x :: post →
  (height t < f)%nat →
  E.next f st x = Some (hd root post).
Proof.
  intros (Hroot & Hrep & Hnd & Hnin) Hs Hf.
  pose proof (next_rep t st root Hrep Hnd pre x post Hs) as Hnext.
  destruct post as [|y post]; [|apply Hnext; lia].
  destruct Hnext as ((e & He & Hre) & Hup).
  unfold E.next. rewrite He. simpl. rewrite Hre.
  destruct t as [|l z r]; [by destruct pre|].
  eapply next_up_mono; [apply (Hup 1%nat _ z eq_refl)|lia].
  destruct Hrep as (Hz & _). cbn [E.next_up]. unfold E.is_left_child.
  rewrite Hz. cbn [mbind option_bind E.parent]. rewrite Hroot.
  cbn [mbind option_bind E.left root_of].
  by rewrite bool_decide_eq_true_2 by done.
Qed.

Lemma NoDup_remove_mid {A} (pre post : list A) (a : A) :
  NoDup (pre ++ a :: post) → NoDup (pre ++ post) ∧ a ∉ pre ++ post.
Proof.
  rewrite !NoDup_app, NoDup_cons. intros (Hpre & Hd & Ha & Hpost).
  split; [split_and!; [done| |done]|].
  - intros z Hz ?. apply (Hd z Hz). set_solver.
  - intros [?|?]%elem_of_app; [|done]. apply (Hd a); set_solver.
Qed.

(** [unlink] of an entry of a whole tree, and the release of its cell. *)
Lemma unlink_tree_at st root t x :
  tree_at st root t → x ∈ inorder t →
  ∃ st', E.unlink (E.fuel_of st) st x = Some st'
    ∧ tree_at (delete x st') root (remove x t)
    ∧ (∀ z, st !! z = None → delete x st' !! z = None).
Proof.
  intros Ht Hx. pose proof (tree_at_fuel _ _ _ Ht) as Hf.
  destruct Ht as (Hroot & Hrep & Hnd & Hnin).
  destruct (unlink_rep t st root _ dL x (E.fuel_of st) Hroot eq_refl)
    as (st' & Hun & Hroot' & Hrep' & Hfr & Hdom);
    [done|done|done|done|done|unfold E.fuel_of; lia|].
  apply list_elem_of_split in Hx as (pre & post & Hs).
  pose proof (inorder_remove t x pre post Hnd Hs) as Hrem.
  rewrite Hs in Hnd. apply NoDup_remove_mid in Hnd as [Hnd' Hx'].
  exists st'. split; [done|]. split.
  - split_and!.
    + rewrite lookup_delete_ne by (intros ->; apply Hnin; rewrite Hs; set_solver).
      done.
    + eapply rep_ext; [|done]. intros z Hz. apply lookup_delete_ne.
      intros ->. by rewrite Hrem in Hz.
    + by rewrite Hrem.
    + rewrite Hrem. intros Hin. apply Hnin. rewrite Hs. set_solver.
  - intros z Hz. destruct (decide (x = z)) as [->|]; [apply lookup_delete_eq|].
    rewrite lookup_delete_ne by done. apply eq_None_not_Some.
    rewrite Hdom. by rewrite Hz.
Qed.

End sentinel_facts.

Section map_facts.

Import invariant.

Variables left_t right_t : Type.
Variable CompareLeft : left_t → left_t → bool.
Variable CompareRight : right_t → right_t → bool.

Local Abbreviation heap := (bimap.heap left_t right_t).
Local Abbreviation key_t := (bimap.key_t left_t right_t).
Local Abbreviation Comparator :=
  (bimap.Comparator left_t right_t CompareLeft CompareRight).
Local Abbreviation get_key := (bimap.get_key left_t right_t).
Local Abbreviation elements := (bimap.elements left_t right_t).
Local Abbreviation traverse := (bimap.traverse left_t right_t).
Local Abbreviation inv := (inv left_t right_t CompareLeft CompareRight).
Local Abbreviation wf := (wf left_t right_t CompareLeft CompareRight).
Local Abbreviation iter := (λ this n, bimap.mk_iterator (Some n) this).

Hypothesis Hsw : ∀ s, strict_weak (Comparator s).

Implicit Types (h : heap) (ts : side → tree) (s : side).

Lemma iter_eqb_iter this a b :
  bimap.iter_eqb (iter this a) (iter this b) = bool_decide (a = b).
Proof.
  unfold bimap.iter_eqb. simpl. apply bool_decide_ext. naive_solver.
Qed.

Lemma incr_inv s h this ts pre x post :
  inv h this ts → inorder (ts s) = pre ++ x :: post →
  bimap.incr _ _ s h (iter this x) = Some (iter this (hd this post)).
Proof.
  intros Hinv Hs. unfold bimap.incr, intr_tree.incr. simpl.
  rewrite (next_tree_at _ this (ts s) pre x post); [done| |done|].
  - apply Hinv.
  - pose proof (tree_at_fuel _ _ _ (inv_tree _ _ _ _ _ _ _ Hinv s)).
    unfold E.fuel_of. lia.
Qed.

Lemma traverse_loop_inv s h this ts n pre rest :
  inv h this ts → inorder (ts s) = pre ++ rest →
  (length rest < n)%nat →
  bimap.traverse_loop _ _ n s h this (iter this (hd this rest)) = Some rest.
Proof.
  intros Hinv. revert n pre. induction rest as [|x rest IH]; intros n pre Hs Hn.
  { destruct n; [simpl in Hn; lia|]. simpl.
    unfold bimap.end_, intr_tree.end_. rewrite iter_eqb_iter.
    by rewrite bool_decide_eq_true_2. }
  destruct n as [|n]; [simpl in Hn; lia|]. cbn [bimap.traverse_loop hd].
  unfold bimap.end_, intr_tree.end_. rewrite iter_eqb_iter.
  assert (x ≠ this) as Hx.
  { intros ->. destruct (inv_tree _ _ _ _ _ _ _ Hinv s) as (_ & _ & _ & Hnin).
    apply Hnin. rewrite Hs. set_solver. }
  rewrite bool_decide_eq_false_2 by done. cbn [negb bimap.it mbind option_bind].
  rewrite (incr_inv s h this ts pre x rest Hinv Hs). cbn [mbind option_bind].
  rewrite (IH n (pre ++ [x])); [done| |simpl in Hn; lia].
  by rewrite <- app_assoc.
Qed.

Lemma fuel_inv s h this ts :
  inv h this ts → (length (inorder (ts s)) < bimap.fuel _ _ h)%nat.
Proof.
  intros Hinv.
  pose proof (tree_at_size _ _ _ (inv_tree _ _ _ _ _ _ _ Hinv s)) as Hsz.
  unfold bimap.fuel. destruct s; simpl in Hsz; lia.
Qed.

(** The traversal of a tree of the map meets the entries of its shape. *)
Lemma traverse_inv s h this ts :
  inv h this ts → traverse s h this = Some (inorder (ts s)).
Proof.
  intros Hinv. unfold bimap.traverse, bimap.begin.
  rewrite (begin_rep _ this (ts s)) by apply Hinv. cbn [mbind option_bind].
  apply (traverse_loop_inv s h this ts _ []); [done|done|].
  by apply (fuel_inv s h this ts).
Qed.

Lemma keyed_inv s h this ts :
  inv h this ts → keyed (get_key s h) (ts s).
Proof.
  intros Hinv n Hn. destruct (inv_nodes _ _ _ _ _ _ _ Hinv s n Hn) as [nd Hnd].
  unfold bimap.get_key. rewrite Hnd. by eexists.
Qed.

Lemma find_inv_found s h this ts n k :
  inv h this ts → n ∈ inorder (ts s) →
  has_key (Comparator s) (get_key s h) n k →
  bimap.find _ _ CompareLeft CompareRight s h this k = Some (iter this n).
Proof.
  intros Hinv Hn Hk. unfold bimap.find, intr_tree.find.
  pose proof (inv_tree _ _ _ _ _ _ _ Hinv s) as Ht.
  pose proof (tree_at_fuel _ _ _ Ht) as Hf.
  destruct Ht as (Hroot & Hrep & _). rewrite Hroot. cbn [mbind option_bind E.left].
  rewrite (find_loop_found _ _ (Hsw s) (ts s) _ this this _ k n);
    [done|done|by eapply keyed_inv|apply Hinv|done|done|unfold E.fuel_of; lia].
Qed.

Lemma find_inv_absent s h this ts k :
  inv h this ts →
  (∀ n, n ∈ inorder (ts s) → ¬ has_key (Comparator s) (get_key s h) n k) →
  bimap.find _ _ CompareLeft CompareRight s h this k
  = Some (bimap.end_ s this).
Proof.
  intros Hinv Hk. unfold bimap.find, intr_tree.find.
  pose proof (inv_tree _ _ _ _ _ _ _ Hinv s) as Ht.
  pose proof (tree_at_fuel _ _ _ Ht) as Hf.
  destruct Ht as (Hroot & Hrep & _). rewrite Hroot. cbn [mbind option_bind E.left].
  rewrite (find_loop_absent _ _ (Hsw s) (ts s) _ this this _ k);
    [done|done|by eapply keyed_inv|done|unfold E.fuel_of; lia].
Qed.

End map_facts.

(** ** Erasure *)

Local Open Scope Z_scope.

Section erase_facts.

Import invariant.

Variables left_t right_t : Type.
Variable CompareLeft : left_t → left_t → bool.
Variable CompareRight : right_t → right_t → bool.

Local Abbreviation heap := (bimap.heap left_t right_t).
Local Abbreviation key_t := (bimap.key_t left_t right_t).
Local Abbreviation Comparator :=
  (bimap.Comparator left_t right_t CompareLeft CompareRight).
Local Abbreviation get_key := (bimap.get_key left_t right_t).
Local Abbreviation elements := (bimap.elements left_t right_t).
Local Abbreviation traverse := (bimap.traverse left_t right_t).
Local Abbreviation inv := (inv left_t right_t CompareLeft CompareRight).
Local Abbreviation wf := (wf left_t right_t CompareLeft CompareRight).
Local Abbreviation iter := (λ this n, bimap.mk_iterator (Some n) this).

Hypothesis Hsw : ∀ s, strict_weak (Comparator s).

Implicit Types (h : heap) (ts : side → tree) (s : side).

Lemma inv_elem_of_sides s s' h this ts n :
  inv h this ts → n ∈ inorder (ts s) → n ∈ inorder (ts s').
Proof.
  intros Hinv. pose proof (inv_same _ _ _ _ _ _ _ Hinv) as Hp.
  destruct s, s'; try done; [by rewrite Hp|by rewrite <- Hp].
Qed.

Lemma inv_not_this s h this ts n :
  inv h this ts → n ∈ inorder (ts s) → n ≠ this.
Proof.
  intros Hinv Hn ->.
  by destruct (inv_tree _ _ _ _ _ _ _ Hinv s) as (_ & _ & _ & Hnin).
Qed.

Lemma wrap_small z : 0 ≤ z < bimap.size_max → bimap.wrap z = z.
Proof. intros. unfold bimap.wrap. by apply Z.mod_small. Qed.

(** Erasing the entry [n] through an iterator of side [s]. *)
Lemma erase_inv s h this ts pre n post :
  inv h this ts → inorder (ts s) = pre ++ n :: post →
  ∃ h', bimap.erase _ _ s h this (iter this n)
        = Some (h', iter this (hd this post))
    ∧ inv h' this (λ s', remove n (ts s'))
    ∧ inorder (remove n (ts s)) = pre ++ post
    ∧ bimap.nodes _ _ h' = delete n (bimap.nodes _ _ h)
    ∧ bimap.size_ _ _ h' !! this
      = Some (Z.of_nat (length (inorder (ts left_tag))) - 1).
Proof.
  intros Hinv Hs.
  assert (n ∈ inorder (ts s)) as Hn by (rewrite Hs; set_solver).
  assert (∀ s', n ∈ inorder (ts s')) as Hn'
    by (intros s'; by eapply inv_elem_of_sides).
  pose proof (inv_not_this _ _ _ _ _ Hinv Hn) as Hnthis.
  assert (∀ s', ∃ pre' post', inorder (ts s') = pre' ++ n :: post')
    as Hsplit by (intros s'; by apply list_elem_of_split).
  assert (∀ s', NoDup (inorder (ts s'))) as Hnds
    by (intros s'; apply (inv_tree _ _ _ _ _ _ _ Hinv s')).
  destruct (Hsplit left_tag) as (prel & postl & Hsl).
  destruct (Hsplit right_tag) as (prer & postr & Hsr).
  pose proof (inorder_remove _ _ _ _ (Hnds left_tag) Hsl) as Hreml.
  pose proof (inorder_remove _ _ _ _ (Hnds right_tag) Hsr) as Hremr.
  destruct (inv_nodes _ _ _ _ _ _ _ Hinv s n Hn) as [nd Hnd].
  destruct (unlink_tree_at _ this (ts right_tag) n
              (inv_tree _ _ _ _ _ _ _ Hinv right_tag) (Hn' right_tag))
    as (str & Hunr & Htr & Hdomr).
  destruct (unlink_tree_at _ this (ts left_tag) n
              (inv_tree _ _ _ _ _ _ _ Hinv left_tag) (Hn' left_tag))
    as (stl & Hunl & Htl & Hdoml).
  assert (1 ≤ Z.of_nat (length (inorder (ts left_tag)))) as Hlen.
  { rewrite Hsl, length_app. simpl. lia. }
  pose proof (inv_size_bound _ _ _ _ _ _ _ Hinv) as Hbound.
  eexists. split; [|split_and!].
  - unfold bimap.erase, bimap.end_, intr_tree.end_. rewrite iter_eqb_iter.
    rewrite bool_decide_eq_false_2 by done.
    rewrite (inv_size _ _ _ _ _ _ _ Hinv). cbn [mbind option_bind bimap.it].
    assert (∀ z, bimap.nodes _ _ (bimap.set_size _ _ this z h)
                 = bimap.nodes _ _ h) as -> by done.
    rewrite Hnd. cbn [mbind option_bind].
    assert (∀ z, bimap.incr _ _ s (bimap.set_size _ _ this z h) (iter this n)
                 = bimap.incr _ _ s h (iter this n)) as ->
      by (intros; by destruct s).
    rewrite (incr_inv _ _ _ _ s h this ts pre n post Hinv Hs).
    cbn [mbind option_bind]. unfold bimap.delete_node.
    cbn [bimap.set_size bimap.nodes bimap.elements_left bimap.elements_right
         bimap.size_ bimap.brk].
    rewrite Hnd. cbn [mbind option_bind]. cbn [bimap.elements] in Hunr, Hunl.
    rewrite Hunr. cbn [mbind option_bind]. rewrite Hunl.
    cbn [mbind option_bind]. done.
  - (* the invariant *)
    split.
    + intros [|]; simpl; done.
    + intros s'. destruct (Hsplit s') as (pre' & post' & Hs').
      pose proof (inorder_remove _ _ _ _ (Hnds s') Hs') as Hrem'.
      eapply (bst_ext _ _ (Hsw s'));
        [|apply (bst_remove _ _ (Hsw s') _ _ pre' post' (Hnds s') Hs');
          apply Hinv].
      intros z Hz. unfold bimap.get_key. simpl.
      rewrite lookup_delete_ne; [done|]. intros ->. rewrite Hrem' in Hz.
      pose proof (Hnds s') as Hd. rewrite Hs' in Hd.
      by apply NoDup_remove_mid in Hd as [_ Hd].
    + rewrite Hreml, Hremr. eapply Permutation_app_inv.
      rewrite <- Hsl, <- Hsr. apply Hinv.
    + intros s' z Hz. simpl.
      destruct (Hsplit s') as (pre' & post' & Hs').
      pose proof (inorder_remove _ _ _ _ (Hnds s') Hs') as Hrem'.
      rewrite lookup_delete_ne.
      * apply (inv_nodes _ _ _ _ _ _ _ Hinv s'). rewrite Hs'.
        rewrite Hrem' in Hz. set_solver.
      * intros ->. rewrite Hrem' in Hz.
        pose proof (Hnds s') as Hd. rewrite Hs' in Hd.
        by apply NoDup_remove_mid in Hd as [_ Hd].
    + simpl. rewrite lookup_insert_eq. f_equal. rewrite wrap_small by lia.
      rewrite Hreml, Hsl, !length_app. simpl. lia.
    + rewrite Hreml. rewrite Hsl in Hbound. rewrite !length_app in *.
      simpl in *. lia.
    + intros z Hz. destruct (inv_unused _ _ _ _ _ _ _ Hinv z Hz) as (H1 & H2 & H3).
      simpl. split_and!; [by apply Hdoml|by apply Hdomr|].
      destruct (decide (n = z)) as [->|]; [apply lookup_delete_eq|].
      by rewrite lookup_delete_ne.
  - destruct (Hsplit s) as (pre' & post' & Hs').
    by apply inorder_remove.
  - done.
  - simpl. rewrite lookup_insert_eq. f_equal. apply wrap_small. lia.
Qed.

End erase_facts.

(** ** Insertion *)

Section insert_tree.

Context {Key : Type}.
Variable Comparator : Key → Key → bool.
Variable get_key : nat → option Key.
Hypothesis Hsw : strict_weak Comparator.

Implicit Types (st : gmap nat E.t) (t l r : tree) (x y p : nat).

(** [insert] of a new, unlinked element into a whole tree none of whose
    keys is equivalent to the new one. *)
Lemma insert_tree_at st root t e :
  tree_at st root t → st !! e = None →
  apart Comparator get_key e t →
  ∃ st',
    intr_tree.insert Comparator get_key (<[e := E.null]> st) root e
    = Some (st', match t with Leaf => None | _ => intr_tree.as_iterator e end)
    ∧ tree_at st' root (tins Comparator get_key e t)
    ∧ (∀ z, st' !! z = None ↔ z ≠ e ∧ st !! z = None).
Proof.
  intros Ht He Ha. pose proof (tree_at_fuel _ _ _ Ht) as Hf.
  destruct Ht as (Hroot & Hrep & Hnd & Hnin).
  assert (e ≠ root) as Her by (intros ->; by rewrite Hroot in He).
  assert (e ∉ inorder t) as Het.
  { intros [? Hin]%(rep_lookup st root t e Hrep). by rewrite He in Hin. }
  assert (rep (<[e:=E.null]> st) root t) as Hrep0.
  { eapply rep_ext; [|done]. intros z Hz. apply lookup_insert_ne.
    by intros ->. }
  pose proof (inorder_tins Comparator get_key Hsw e t Ha) as Hperm.
  assert (NoDup (inorder (tins Comparator get_key e t))) as Hnd'.
  { rewrite Hperm. by constructor. }
  assert (root ∉ inorder (tins Comparator get_key e t)) as Hnin'.
  { rewrite Hperm. set_solver. }
  unfold intr_tree.insert. rewrite lookup_insert_ne by done. rewrite Hroot.
  cbn [mbind option_bind E.left].
  change E.link_left with (link dL).
  destruct t as [|l x r].
  - cbn [root_of].
    erewrite (link_Some dL _ root _ e E.null);
      [|by rewrite lookup_insert_ne|done|by rewrite lookup_insert_eq].
    cbn [mbind option_bind]. eexists. split; [done|]. split.
    + split_and!; [|cbn [order.tins rep root_of]; split_and!|done|done]; try done.
      * rewrite lookup_insert_ne by done. by rewrite lookup_insert_eq.
      * by rewrite lookup_insert_eq.
    + intros z. rewrite !lookup_insert. repeat case_decide; naive_solver.
  - cbn [root_of].
    destruct (insert_loop_rep Comparator get_key Hsw e (Node l x r) (<[e:=E.null]> st)
                root root (E.fuel_of (<[e:=E.null]> st)) x)
      as (st' & Hins & Hrep' & Hfr & Hdom);
      [done|done|done|done|done|by rewrite lookup_insert_eq| |].
    { unfold E.fuel_of. rewrite map_size_insert_None by done. lia. }
    exists st'. split; [done|]. split.
    + split_and!; [|done|done|done].
      rewrite Hfr by done. rewrite lookup_insert_ne by done.
      rewrite Hroot. by rewrite (tins_root Comparator get_key e (Node l x r) x).
    + intros z. rewrite !eq_None_not_Some, Hdom, lookup_insert.
      case_decide; subst; [|naive_solver].
      split; [intros []; by eexists|naive_solver].
Qed.

End insert_tree.

Section insert_facts.

Import invariant.

Variables left_t right_t : Type.
Variable CompareLeft : left_t → left_t → bool.
Variable CompareRight : right_t → right_t → bool.

Local Abbreviation heap := (bimap.heap left_t right_t).
Local Abbreviation key_t := (bimap.key_t left_t right_t).
Local Abbreviation Comparator :=
  (bimap.Comparator left_t right_t CompareLeft CompareRight).
Local Abbreviation get_key := (bimap.get_key left_t right_t).
Local Abbreviation elements := (bimap.elements left_t right_t).
Local Abbreviation traverse := (bimap.traverse left_t right_t).
Local Abbreviation inv := (inv left_t right_t CompareLeft CompareRight).
Local Abbreviation wf := (wf left_t right_t CompareLeft CompareRight).
Local Abbreviation iter := (λ this n, bimap.mk_iterator (Some n) this).
Local Abbreviation pair_key := (pair_key left_t right_t).

Hypothesis Hsw : ∀ s, strict_weak (Comparator s).

Implicit Types (h : heap) (ts : side → tree) (s : side).

(** [insert_no_check] of a pair whose keys are not in use. *)
Lemma insert_no_check_inv h this ts l r :
  inv h this ts →
  (∀ s n, n ∈ inorder (ts s) →
          ¬ has_key (Comparator s) (get_key s h) n (pair_key l r s)) →
  Z.of_nat (length (inorder (ts left_tag))) + 1 < bimap.size_max →
  ∃ h' ts',
    bimap.insert_no_check _ _ CompareLeft CompareRight h this l r
    = Some (h', iter this (bimap.brk _ _ h))
    ∧ inv h' this ts'
    ∧ (∀ s, inorder (ts' s) ≡ₚ bimap.brk _ _ h :: inorder (ts s))
    ∧ bimap.nodes _ _ h'
      = <[bimap.brk _ _ h := bimap.mk_node _ _ (l, r)]> (bimap.nodes _ _ h)
    ∧ bimap.size_ _ _ h' !! this
      = Some (Z.of_nat (length (inorder (ts left_tag))) + 1).
Proof.
  intros Hinv Habs Hbound. set (e := bimap.brk _ _ h).
  destruct (inv_unused _ _ _ _ _ _ _ Hinv e (le_n _)) as (Hel & Her & Hen).
  set (ns := <[e := bimap.mk_node _ _ (l, r)]> (bimap.nodes _ _ h)).
  set (gk := λ s (p : nat),
         (n ← ns !! p; Some (bimap.key _ _ s n)) : option (key_t s)).
  assert (∀ s n, n ∈ inorder (ts s) → n ≠ e) as Hne.
  { intros s n Hn ->. destruct (inv_nodes _ _ _ _ _ _ _ Hinv s e Hn) as [? Hsome].
    by rewrite Hen in Hsome. }
  assert (∀ s n, n ≠ e → gk s n = get_key s h n) as Hgk.
  { intros s n Hn. unfold gk, ns, bimap.get_key. by rewrite lookup_insert_ne. }
  assert (∀ s, gk s e = Some (pair_key l r s)) as Hgke.
  { intros s. unfold gk, ns. rewrite lookup_insert_eq. by destruct s. }
  assert (∀ s, apart (Comparator s) (gk s) e (ts s)) as Hap.
  { intros s.
    apply (absent_apart (Comparator s) (gk s) e (pair_key l r s) (ts s));
      [|apply Hgke|].
    - intros n Hn. rewrite Hgk by (by eapply Hne).
      by eapply keyed_inv.
    - intros n Hn (kn & Hkn & Heq). apply (Habs s n Hn). exists kn.
      split; [|done]. rewrite <- Hgk; [done|by eapply Hne]. }
  set (ts' := λ s, tins (Comparator s) (gk s) e (ts s)).
  assert (∀ s, inorder (ts' s) ≡ₚ e :: inorder (ts s)) as Hperm.
  { intros s. apply inorder_tins; [apply Hsw|apply Hap]. }
  destruct (insert_tree_at CompareLeft (gk left_tag) (Hsw left_tag) _ this
              (ts left_tag) e (inv_tree _ _ _ _ _ _ _ Hinv left_tag) Hel
              (Hap left_tag)) as (stl & Hinsl & Htl & Hdoml).
  destruct (insert_tree_at CompareRight (gk right_tag) (Hsw right_tag) _ this
              (ts right_tag) e (inv_tree _ _ _ _ _ _ _ Hinv right_tag) Her
              (Hap right_tag)) as (str & Hinsr & Htr & Hdomr).
  eexists _, ts'. split; [|split_and!].
  - unfold bimap.insert_no_check. rewrite (inv_size _ _ _ _ _ _ _ Hinv).
    cbn [mbind option_bind bimap.set_size bimap.brk bimap.elements_left
         bimap.elements_right bimap.nodes bimap.size_ bimap.set_elements].
    cbn [bimap.elements] in Hinsl, Hinsr. fold e.
    change (bimap.get_key _ _ left_tag _) with (gk left_tag).
    rewrite Hinsl. cbn [mbind option_bind].
    change (bimap.get_key _ _ right_tag _) with (gk right_tag).
    rewrite Hinsr. cbn [mbind option_bind]. done.
  - split.
    + intros [|]; done.
    + intros s. change (bimap.get_key _ _ s _) with (gk s).
      apply tins_bst; [apply Hsw| |apply Hap].
      eapply (bst_ext _ _ (Hsw s)); [|apply Hinv].
      intros n Hn. apply Hgk. by eapply Hne.
    + rewrite !Hperm. f_equiv. apply Hinv.
    + intros s n Hn. rewrite Hperm in Hn. cbn [bimap.nodes]. fold ns.
      apply elem_of_cons in Hn as [->|Hn].
      * unfold ns. rewrite lookup_insert_eq. by eexists.
      * unfold ns. rewrite lookup_insert_ne by (by apply not_eq_sym, (Hne s)).
        by eapply (inv_nodes _ _ _ _ _ _ _ Hinv s).
    + cbn [bimap.size_]. rewrite lookup_insert_eq. f_equal.
      rewrite wrap_small by lia. rewrite Hperm. simpl. lia.
    + rewrite Hperm. simpl. lia.
    + intros n Hn. cbn [bimap.brk] in Hn. fold e in Hn.
      destruct (inv_unused _ _ _ _ _ _ _ Hinv n) as (H1 & H2 & H3);
        [fold e; lia|].
      cbn [bimap.elements_left bimap.elements_right bimap.nodes].
      split_and!.
      * apply Hdoml. split; [lia|done].
      * apply Hdomr. split; [lia|done].
      * rewrite lookup_insert_ne by lia. done.
  - done.
  - done.
  - cbn [bimap.size_]. rewrite lookup_insert_eq. f_equal.
    apply wrap_small. lia.
Qed.

End insert_facts.

(** ** The operations of the map *)

Section claims.

Import invariant.

Variables left_t right_t : Type.
Variable CompareLeft : left_t → left_t → bool.
Variable CompareRight : right_t → right_t → bool.

Local Abbreviation heap := (bimap.heap left_t right_t).
Local Abbreviation key_t := (bimap.key_t left_t right_t).
Local Abbreviation Comparator :=
  (bimap.Comparator left_t right_t CompareLeft CompareRight).
Local Abbreviation get_key := (bimap.get_key left_t right_t).
Local Abbreviation elements := (bimap.elements left_t right_t).
Local Abbreviation traverse := (bimap.traverse left_t right_t).
Local Abbreviation inv := (inv left_t right_t CompareLeft CompareRight).
Local Abbreviation wf := (wf left_t right_t CompareLeft CompareRight).
Local Abbreviation resident := (resident left_t right_t).
Local Abbreviation key_in_use :=
  (key_in_use left_t right_t CompareLeft CompareRight).
Local Abbreviation iter := (λ this n, bimap.mk_iterator (Some n) this).
Local Abbreviation find := (bimap.find _ _ CompareLeft CompareRight).
Local Abbreviation insert := (bimap.insert _ _ CompareLeft CompareRight).
Local Abbreviation erase := (bimap.erase left_t right_t).
Local Abbreviation at_ := (bimap.at_ _ _ CompareLeft CompareRight).
Local Abbreviation flip := (bimap.flip left_t right_t).
Local Abbreviation deref := (bimap.deref left_t right_t).
Local Abbreviation nodes := (bimap.nodes left_t right_t).
Local Abbreviation size := (bimap.size left_t right_t).
Local Abbreviation erase_key :=
  (bimap.erase_key _ _ CompareLeft CompareRight).
Local Abbreviation built :=
  (built left_t right_t CompareLeft CompareRight).

Hypothesis Hsw : ∀ s, strict_weak (Comparator s).

Implicit Types (h : heap) (ts : side → tree) (s : side).

Lemma resident_inv s h this ts n :
  inv h this ts → resident s h this n ↔ n ∈ inorder (ts s).
Proof.
  intros Hinv. unfold invariant.resident.
  rewrite (traverse_inv _ _ _ _ Hsw s h this ts Hinv). naive_solver.
Qed.

Lemma key_in_use_inv s h this ts k :
  inv h this ts →
  key_in_use s h this k
  ↔ ∃ n, n ∈ inorder (ts s) ∧ has_key (Comparator s) (get_key s h) n k.
Proof.
  intros Hinv. unfold invariant.key_in_use.
  by setoid_rewrite (resident_inv s h this ts _ Hinv).
Qed.

Lemma has_key_cases s h n k :
  has_key (Comparator s) (get_key s h) n k
  ∨ ¬ has_key (Comparator s) (get_key s h) n k.
Proof.
  unfold order.has_key, order.equiv_key.
  destruct (get_key s h n) as [kn|]; [|right; intros (? & ? & ?); congruence].
  destruct (Comparator s kn k) eqn:?;
    [right; intros (? & ? & ? & ?); congruence|].
  destruct (Comparator s k kn) eqn:?;
    [right; intros (? & ? & ? & ?); congruence|].
  left. by exists kn.
Qed.

Lemma key_in_use_cases s h (ns : list nat) k :
  (∃ n, n ∈ ns ∧ has_key (Comparator s) (get_key s h) n k)
  ∨ (∀ n, n ∈ ns → ¬ has_key (Comparator s) (get_key s h) n k).
Proof.
  induction ns as [|n ns IH].
  { right. intros n Hn. by apply not_elem_of_nil in Hn. }
  destruct (has_key_cases s h n k) as [Hk|Hk]; [left; exists n; set_solver|].
  destruct IH as [(m & Hm & Hk')|IH]; [left; exists m; set_solver|].
  right. intros m [->|Hm]%elem_of_cons; auto.
Qed.

(** The map made by the constructor satisfies the invariant. *)
Lemma ctor_inv h :
  unused_above _ _ h →
  inv (bimap.ctor _ _ h).1 (bimap.ctor _ _ h).2 (λ _, Leaf).
Proof.
  intros Hun. destruct (Hun _ (le_n _)) as (Hl & Hr & Hn).
  unfold bimap.ctor. cbn [fst snd]. split.
  - intros [|]; (split_and!; [apply lookup_insert_eq|done|constructor|]);
      apply not_elem_of_nil.
  - done.
  - done.
  - intros s n Hn'. by apply not_elem_of_nil in Hn'.
  - cbn. by rewrite lookup_insert_eq.
  - done.
  - intros n Hle. cbn [bimap.brk] in Hle.
    destruct (Hun n) as (H1 & H2 & H3); [lia|].
    cbn. rewrite !lookup_insert_ne by lia. done.
Qed.

Lemma unused_above_empty : unused_above _ _ (bimap.empty_heap left_t right_t).
Proof. intros n _. done. Qed.

Lemma filter_other (ns : list nat) (n : nat) :
  n ∉ ns → filter (λ m, m ≠ n) ns = ns.
Proof.
  induction ns as [|m ns IH]; [done|]. intros Hn.
  rewrite filter_cons_True by set_solver. f_equal. apply IH. set_solver.
Qed.

Lemma filter_remove_mid (pre post : list nat) (n : nat) :
  NoDup (pre ++ n :: post) →
  filter (λ m, m ≠ n) (pre ++ n :: post) = pre ++ post.
Proof.
  intros [Hnd Hn]%NoDup_remove_mid.
  rewrite filter_app, filter_cons_False by naive_solver.
  rewrite !filter_other; [done|set_solver..].
Qed.

Lemma wf_size h this ts :
  inv h this ts →
  size h this = Some (Z.of_nat (length (inorder (ts left_tag)))).
Proof. intros Hinv. apply Hinv. Qed.

Lemma deref_iter s h this n nd :
  nodes h !! n = Some nd →
  deref s h (iter this n) = Some (bimap.key _ _ s nd).
Proof. intros Hn. unfold bimap.deref, bimap.get_key. simpl. by rewrite Hn. Qed.

Lemma flip_iter s h this n nd :
  n ≠ this → nodes h !! n = Some nd →
  flip s h (iter this n) = Some (iter this n).
Proof.
  intros Hne Hn. unfold bimap.flip, intr_tree.end_. simpl.
  rewrite bool_decide_eq_false_2 by (by intros [= ->]). by rewrite Hn.
Qed.

Lemma flip_end s h this :
  flip s h (bimap.end_ s this) = Some (bimap.end_ (Other s) this).
Proof.
  unfold bimap.flip, bimap.end_, intr_tree.end_. simpl.
  by rewrite bool_decide_eq_true_2.
Qed.

Lemma has_key_self s h n nd :
  nodes h !! n = Some nd →
  has_key (Comparator s) (get_key s h) n (bimap.key _ _ s nd).
Proof.
  intros Hn. exists (bimap.key _ _ s nd). unfold bimap.get_key.
  rewrite Hn. split; [done|]. split; apply (sw_irrefl _ (Hsw s)).
Qed.

(** [insert] of a pair neither key of which is in use. *)
Lemma insert_absent h this ts l r :
  inv h this ts →
  (∀ s n, n ∈ inorder (ts s) →
          ¬ has_key (Comparator s) (get_key s h) n
              (pair_key left_t right_t l r s)) →
  Z.of_nat (length (inorder (ts left_tag))) + 1 < bimap.size_max →
  ∃ h' ts',
    insert h this l r = Some (h', iter this (bimap.brk _ _ h))
    ∧ inv h' this ts'
    ∧ (∀ s, inorder (ts' s) ≡ₚ bimap.brk _ _ h :: inorder (ts s))
    ∧ nodes h'
      = <[bimap.brk _ _ h := bimap.mk_node _ _ (l, r)]> (nodes h)
    ∧ size h' this
      = Some (Z.of_nat (length (inorder (ts left_tag))) + 1).
Proof.
  intros Hinv Habs Hbound. unfold bimap.insert, bimap.insert_.
  unfold bimap.find_left, bimap.find_right.
  rewrite (find_inv_absent _ _ _ _ Hsw left_tag h this ts l Hinv
             (Habs left_tag)).
  cbn [mbind option_bind]. unfold bimap.end_left, bimap.iter_eqb.
  rewrite bool_decide_eq_true_2 by done. cbn [negb].
  rewrite (find_inv_absent _ _ _ _ Hsw right_tag h this ts r Hinv
             (Habs right_tag)).
  cbn [mbind option_bind]. unfold bimap.end_right.
  rewrite bool_decide_eq_true_2 by done. cbn [negb].
  by apply (insert_no_check_inv _ _ _ _ Hsw).
Qed.

(** [insert] keeps the invariant. *)
Lemma insert_wf h this l r h' i :
  wf h this →
  (∀ sz, size h this = Some sz → sz + 1 < bimap.size_max) →
  insert h this l r = Some (h', i) → wf h' this.
Proof.
  intros [ts Hinv] Hbound Hins.
  destruct (key_in_use_cases left_tag h
              (inorder (ts left_tag)) l) as [(n & Hn & Hk)|Habsl].
  { unfold bimap.insert, bimap.insert_, bimap.find_left in Hins.
    rewrite (find_inv_found _ _ _ _ Hsw left_tag h this ts n l Hinv Hn Hk)
      in Hins.
    cbn [mbind option_bind] in Hins. unfold bimap.end_left, bimap.end_,
      intr_tree.end_ in Hins.
    rewrite iter_eqb_iter, bool_decide_eq_false_2 in Hins
      by (by eapply inv_not_this).
    injection Hins as <- _. by exists ts. }
  destruct (key_in_use_cases right_tag h
              (inorder (ts right_tag)) r) as [(n & Hn & Hk)|Habsr].
  { unfold bimap.insert, bimap.insert_, bimap.find_left, bimap.find_right
      in Hins.
    rewrite (find_inv_absent _ _ _ _ Hsw left_tag h this ts l Hinv Habsl)
      in Hins.
    cbn [mbind option_bind] in Hins.
    unfold bimap.end_left, bimap.end_right, bimap.iter_eqb in Hins.
    rewrite bool_decide_eq_true_2 in Hins by done. cbn [negb] in Hins.
    rewrite (find_inv_found _ _ _ _ Hsw right_tag h this ts n r Hinv Hn Hk)
      in Hins.
    cbn [mbind option_bind bimap.it bimap.end_ intr_tree.end_] in Hins.
    rewrite bool_decide_eq_false_2 in Hins.
    - injection Hins as <- _. by exists ts.
    - intros [= ->]. by eapply (inv_not_this _ _ _ _ right_tag h this ts this). }
  destruct (insert_absent h this ts l r Hinv)
    as (h'' & ts' & Hins' & Hinv' & _).
  - intros [|]; done.
  - apply Hbound. apply Hinv.
  - rewrite Hins' in Hins. injection Hins as <- _. by exists ts'.
Qed.

(** [erase] through an iterator at an entry of the map keeps the
    invariant. *)
Lemma erase_wf s h this n h' i :
  wf h this → resident s h this n →
  erase s h this (iter this n) = Some (h', i) → wf h' this.
Proof.
  intros [ts Hinv] Hn%(resident_inv s h this ts n Hinv) Her.
  apply list_elem_of_split in Hn as (pre & post & Hs).
  destruct (erase_inv _ _ _ _ Hsw s h this ts pre n post Hinv Hs)
    as (h'' & Her' & Hinv' & _).
  rewrite Her' in Her. injection Her as <- _. by eexists.
Qed.

(** [erase] of a key keeps the invariant. *)
Lemma erase_key_wf s h this (k : key_t s) h' b :
  wf h this → erase_key s h this k = Some (h', b) → wf h' this.
Proof.
  intros [ts Hinv] Her. unfold bimap.erase_key in Her.
  destruct (key_in_use_cases s h
              (inorder (ts s)) k) as [(n & Hn & Hk)|Habs].
  - rewrite (find_inv_found _ _ _ _ Hsw s h this ts n k Hinv Hn Hk) in Her.
    cbn [mbind option_bind] in Her.
    destruct (erase s h this (iter this n)) as [[h1 i]|] eqn:Her1; [|done].
    cbn [mbind option_bind] in Her.
    destruct (bimap.empty _ _ h1 this); [|done].
    cbn [mbind option_bind] in Her. injection Her as <- _.
    eapply (erase_wf s h this n); [by exists ts| |done].
    by apply (resident_inv s h this ts n Hinv).
  - rewrite (find_inv_absent _ _ _ _ Hsw s h this ts k Hinv Habs) in Her.
    cbn [mbind option_bind] in Her. unfold bimap.erase, bimap.iter_eqb in Her.
    rewrite bool_decide_eq_true_2 in Her by done.
    cbn [mbind option_bind] in Her.
    destruct (bimap.empty _ _ h this); [|done].
    cbn [mbind option_bind] in Her. injection Her as <- _. by exists ts.
Qed.

(** Every memory reached by the constructor, [insert] and [erase]
    satisfies the invariant. *)
Lemma built_wf h this : built h this → wf h this.
Proof.
  induction 1 as [h Hun|h this l r h' i _ IH Hb Hins|h this s n h' i _ IH Hn Her
                 |h this s k h' b _ IH Her].
  - eexists. by apply ctor_inv.
  - by eapply insert_wf.
  - by eapply erase_wf.
  - by eapply erase_key_wf.
Qed.

(** X24: on a map that satisfies the invariant, [insert(left, right)] with
    a left key or a right key already in use returns [end_left] and leaves
    the memory as it is; otherwise it makes one new entry holding the
    pair, met by the traversals of both trees next to the entries that
    were there, adds one to [size()], and returns the left iterator at the
    new entry. *)
Theorem insert_spec h this l r :
  wf h this →
  (key_in_use left_tag h this l ∨ key_in_use right_tag h this r →
   insert h this l r = Some (h, bimap.end_left this))
  ∧ (¬ key_in_use left_tag h this l → ¬ key_in_use right_tag h this r →
     ∀ sz, size h this = Some sz → sz + 1 < bimap.size_max →
     ∃ h' n,
       insert h this l r = Some (h', iter this n)
       ∧ iter this n ≠ bimap.end_left this
       ∧ wf h' this
       ∧ nodes h !! n = None
       ∧ nodes h' = <[n := bimap.mk_node _ _ (l, r)]> (nodes h)
       ∧ (∀ s ns, traverse s h this = Some ns →
                  ∃ ns', traverse s h' this = Some ns' ∧ ns' ≡ₚ n :: ns)
       ∧ size h' this = Some (sz + 1)
       ∧ deref left_tag h' (iter this n) = Some l).
Proof.
  intros [ts Hinv]. unfold bimap.insert, bimap.insert_.
  pose proof (key_in_use_cases left_tag h (inorder (ts left_tag)) l) as Hcl.
  pose proof (key_in_use_cases right_tag h (inorder (ts right_tag)) r) as Hcr.
  rewrite !(key_in_use_inv _ h this ts _ Hinv).
  assert (∀ s n, n ∈ inorder (ts s) →
            bimap.iter_eqb (iter this n) (bimap.end_ s this) = false) as Hneq.
  { intros s n Hn. unfold bimap.end_, intr_tree.end_. rewrite iter_eqb_iter.
    apply bool_decide_eq_false_2. by eapply inv_not_this. }
  assert (∀ s, bimap.iter_eqb (bimap.end_ s this) (bimap.end_ s this) = true)
    as Heq by (intros; by apply bool_decide_eq_true_2).
  split.
  - intros Huse. unfold bimap.find_left, bimap.find_right.
    destruct Hcl as [(n & Hn & Hk)|Habsl].
    { rewrite (find_inv_found _ _ _ _ Hsw left_tag h this ts n l Hinv Hn Hk).
      cbn [mbind option_bind]. unfold bimap.end_left.
      by rewrite (Hneq left_tag n Hn). }
    rewrite (find_inv_absent _ _ _ _ Hsw left_tag h this ts l Hinv Habsl).
    cbn [mbind option_bind]. unfold bimap.end_left. rewrite Heq. cbn [negb].
    destruct Huse as [(n & Hn & Hk)|(n & Hn & Hk)]; [by destruct (Habsl n Hn)|].
    rewrite (find_inv_found _ _ _ _ Hsw right_tag h this ts n r Hinv Hn Hk).
    cbn [mbind option_bind]. unfold bimap.end_right.
    by rewrite (Hneq right_tag n Hn).
  - intros Hnl Hnr sz Hsz Hbound.
    destruct Hcl as [?|Habsl]; [done|]. destruct Hcr as [?|Habsr]; [done|].
    rewrite (wf_size h this ts Hinv) in Hsz. injection Hsz as <-.
    fold (bimap.insert_ _ _ CompareLeft CompareRight h this l r).
    fold (insert h this l r).
    destruct (insert_absent h this ts l r Hinv)
      as (h' & ts' & Hins & Hinv' & Hperm & Hnodes & Hsize); [|done|].
    { intros [|]; done. }
    destruct (inv_unused _ _ _ _ _ _ _ Hinv _ (le_n _)) as (_ & _ & Hfresh).
    exists h', (bimap.brk _ _ h). split_and!.
    + done.
    + unfold bimap.end_, intr_tree.end_. intros [= Hbrk].
      destruct (inv_tree _ _ _ _ _ _ _ Hinv left_tag) as (Hroot & _).
      destruct (inv_unused _ _ _ _ _ _ _ Hinv _ (le_n _)) as (Hl & _).
      rewrite Hbrk in Hl. simpl in Hroot. by rewrite Hroot in Hl.
    + by exists ts'.
    + done.
    + done.
    + intros s ns. rewrite (traverse_inv _ _ _ _ Hsw s h this ts Hinv).
      intros [= <-]. exists (inorder (ts' s)). split; [|done].
      by apply (traverse_inv _ _ CompareLeft CompareRight Hsw).
    + done.
    + rewrite (deref_iter left_tag h' this _ (bimap.mk_node _ _ (l, r)));
        [done|]. rewrite Hnodes. by rewrite lookup_insert_eq.
Qed.


(** X25: on a map that satisfies the invariant, [at_left(k)] (resp.
    [at_right(k)]) returns the opposite-side value of the entry whose key
    on the queried side is [k]; when no entry has that key the call leaves
    by the exception [out_of_range].  The function reads the memory
    only: it has no memory to return. *)
Theorem at_spec s h this k :
  wf h this →
  (∀ n nd, resident s h this n →
           has_key (Comparator s) (get_key s h) n k →
           nodes h !! n = Some nd →
           at_ s h this k = Some (Returned (bimap.key _ _ (Other s) nd)))
  ∧ (¬ key_in_use s h this k →
     at_ s h this k = Some (Thrown (out_of_range "No such element"))).
Proof.
  intros [ts Hinv]. unfold bimap.at_. split.
  - intros n nd Hn%(resident_inv s h this ts n Hinv) Hk Hnd.
    pose proof (inv_not_this _ _ _ _ s h this ts n Hinv Hn) as Hne.
    rewrite (find_inv_found _ _ _ _ Hsw s h this ts n k Hinv Hn Hk).
    cbn [mbind option_bind]. unfold bimap.end_, intr_tree.end_.
    rewrite iter_eqb_iter, bool_decide_eq_false_2 by done.
    rewrite (flip_iter s h this n nd Hne Hnd). cbn [mbind option_bind].
    by rewrite (deref_iter (Other s) h this n nd Hnd).
  - rewrite (key_in_use_inv s h this ts k Hinv). intros Habs.
    rewrite (find_inv_absent _ _ _ _ Hsw s h this ts k Hinv);
      [|intros n Hn Hk; apply Habs; by exists n].
    cbn [mbind option_bind]. unfold bimap.iter_eqb.
    by rewrite bool_decide_eq_true_2.
Qed.

(** X26: for an entry [(l, r)] of a map that satisfies the invariant (an
    entry is there from its [insert] to its [erase]), [find_left(l)] is
    the iterator at that entry, whose right value is [r], and
    [find_right(r)] is the iterator at that entry, whose left value is
    [l]; [flip] of an iterator at an entry is the iterator at the same
    entry on the other side (the two bases of an entry have the address of
    the entry, each in the store of its tag), so that flipping twice gives
    the iterator back; [flip] of [end] is the [end] of the other side. *)
Theorem bijection_flip_spec h this :
  wf h this →
  (∀ s0 n l r, resident s0 h this n →
     nodes h !! n = Some (bimap.mk_node _ _ (l, r)) →
     bimap.find_left _ _ CompareLeft CompareRight h this l
     = Some (iter this n)
     ∧ deref right_tag h (iter this n) = Some r
     ∧ bimap.find_right _ _ CompareLeft CompareRight h this r
       = Some (iter this n)
     ∧ deref left_tag h (iter this n) = Some l
     ∧ ∀ s, flip s h (iter this n) = Some (iter this n)
            ∧ flip s h (iter this n) ≫= flip (Other s) h
              = Some (iter this n))
  ∧ (∀ s, flip s h (bimap.end_ s this) = Some (bimap.end_ (Other s) this)
          ∧ flip s h (bimap.end_ s this) ≫= flip (Other s) h
            = Some (bimap.end_ s this)).
Proof.
  intros [ts Hinv]. split.
  - intros s0 n l r Hn%(resident_inv s0 h this ts n Hinv) Hnd.
    pose proof (inv_not_this _ _ _ _ s0 h this ts n Hinv Hn) as Hne.
    assert (∀ s, n ∈ inorder (ts s)) as Hn'
      by (intros; by eapply inv_elem_of_sides).
    split_and!.
    + apply (find_inv_found _ _ _ _ Hsw left_tag h this ts n l Hinv (Hn' _)).
      apply (has_key_self left_tag h n _ Hnd).
    + by rewrite (deref_iter right_tag h this n _ Hnd).
    + apply (find_inv_found _ _ _ _ Hsw right_tag h this ts n r Hinv (Hn' _)).
      apply (has_key_self right_tag h n _ Hnd).
    + by rewrite (deref_iter left_tag h this n _ Hnd).
    + intros s. rewrite (flip_iter s h this n _ Hne Hnd). split; [done|].
      cbn [mbind option_bind]. by rewrite (flip_iter _ h this n _ Hne Hnd).
  - intros s. rewrite flip_end. split; [done|]. cbn [mbind option_bind].
    rewrite flip_end. by destruct s.
Qed.

(** The traversal of either tree of a map that satisfies the invariant
    meets strictly increasing keys. *)
Lemma traverse_sorted s h this ns :
  wf h this → traverse s h this = Some ns →
  StronglySorted (lt_node (Comparator s) (get_key s h)) ns.
Proof.
  intros [ts Hinv]. rewrite (traverse_inv _ _ _ _ Hsw s h this ts Hinv).
  intros [= <-]. apply (bst_sorted _ _ (Hsw s)). apply Hinv.
Qed.

(** So do the traversals after every sequence of [insert] and [erase]
    calls on a new map. *)
Corollary built_sorted s h this ns :
  built h this → traverse s h this = Some ns →
  StronglySorted (lt_node (Comparator s) (get_key s h)) ns.
Proof. intros Hb%built_wf. by apply traverse_sorted. Qed.

(** C10: on an empty tree [intr_tree::insert] links the new element as
    the left child of the sentinel and returns the null iterator, which
    is not the iterator at the element; whatever the tree inserts return,
    the iterator that [insert_no_check] returns is [as_iterator] of the
    new entry, also on an empty map. *)
Theorem insert_empty_returns_null :
  (∀ (Key : Type) (cmp : Key → Key → bool) (gk : nat → option Key)
     (st : gmap nat E.t) (root elt : nat) (re ee : E.t),
     st !! root = Some re → E.left re = None → elt ≠ root →
     st !! elt = Some ee →
     intr_tree.insert cmp gk st root elt
     = Some (<[elt := E.set_parent (Some root) ee]>
               (<[root := E.set_left (Some elt) re]> st), None)
     ∧ (None : intr_tree.iterator) ≠ intr_tree.as_iterator elt)
  ∧ (∀ h this l r h' i,
       bimap.insert_no_check _ _ CompareLeft CompareRight h this l r
       = Some (h', i) →
       i = bimap.mk_iterator (intr_tree.as_iterator (bimap.brk _ _ h)) this)
  ∧ (∀ h this l r,
       inv h this (λ _, Leaf) →
       ∃ h', bimap.insert_no_check _ _ CompareLeft CompareRight h this l r
             = Some (h', iter this (bimap.brk _ _ h))
             ∧ traverse left_tag h' this = Some [bimap.brk _ _ h]
             ∧ traverse right_tag h' this = Some [bimap.brk _ _ h]).
Proof.
  split_and!.
  - intros Key cmp gk st root elt re ee Hroot Hleft Hne Helt. split; [|done].
    unfold intr_tree.insert. rewrite Hroot. cbn [mbind option_bind].
    rewrite Hleft. change E.link_left with (link dL).
    by rewrite (link_Some dL st root re elt ee Hroot Hne Helt).
  - intros h this l r h' i. unfold bimap.insert_no_check.
    destruct (bimap.size_ _ _ h !! this); [|done]. cbn [mbind option_bind].
    destruct (intr_tree.insert _ _ _ _ _) as [[stl ?]|]; [|done].
    cbn [mbind option_bind].
    destruct (intr_tree.insert _ _ _ _ _) as [[str ?]|]; [|done].
    cbn [mbind option_bind]. by intros [= _ <-].
  - intros h this l r Hinv.
    destruct (insert_no_check_inv _ _ _ _ Hsw h this _ l r Hinv)
      as (h' & ts' & Hins & Hinv' & Hperm & _).
    { intros s n Hn. by apply not_elem_of_nil in Hn. }
    { done. }
    exists h'. split_and!; [done|..];
      rewrite (traverse_inv _ _ _ _ Hsw _ h' this ts' Hinv'); f_equal;
      apply Permutation_singleton_r; by rewrite Hperm.
Qed.

End claims.

(** ** What [erase] of a key, the repair of [at_or_default] and the moves
    do on a map that satisfies the invariant *)

Section defects.

Import invariant.

Variables left_t right_t : Type.
Variable CompareLeft : left_t → left_t → bool.
Variable CompareRight : right_t → right_t → bool.
Variable default_key : ∀ s, bimap.key_t left_t right_t s.

Local Abbreviation heap := (bimap.heap left_t right_t).
Local Abbreviation key_t := (bimap.key_t left_t right_t).
Local Abbreviation Comparator :=
  (bimap.Comparator left_t right_t CompareLeft CompareRight).
Local Abbreviation get_key := (bimap.get_key left_t right_t).
Local Abbreviation elements := (bimap.elements left_t right_t).
Local Abbreviation traverse := (bimap.traverse left_t right_t).
Local Abbreviation inv := (inv left_t right_t CompareLeft CompareRight).
Local Abbreviation wf := (wf left_t right_t CompareLeft CompareRight).
Local Abbreviation iter := (λ this n, bimap.mk_iterator (Some n) this).
Local Abbreviation erase := (bimap.erase left_t right_t).
Local Abbreviation erase_key :=
  (bimap.erase_key _ _ CompareLeft CompareRight).
Local Abbreviation at_or_default :=
  (bimap.at_or_default _ _ CompareLeft CompareRight default_key).
Local Abbreviation nodes := (bimap.nodes left_t right_t).
Local Abbreviation size := (bimap.size left_t right_t).

Hypothesis Hsw : ∀ s, strict_weak (Comparator s).

Implicit Types (h : heap) (ts : side → tree) (s : side).

Lemma empty_inv h this ts :
  inv h this ts →
  bimap.empty _ _ h this = Some (bool_decide (inorder (ts left_tag) = [])).
Proof.
  intros Hinv. destruct (inv_tree _ _ _ _ _ _ _ Hinv left_tag) as (Hroot & _).
  unfold bimap.empty, intr_tree.empty. simpl in Hroot. rewrite Hroot.
  cbn. f_equal. destruct (ts left_tag) as [|l x r]; [done|].
  cbn. rewrite bool_decide_eq_false_2; [done|]. by destruct (inorder l).
Qed.

(** The result of [erase] of a key: when the key is in use the entry is
    erased, but the result is [false] if the entry was the last in order
    of several; when the key is not in use nothing changes, but the result
    is [true] if the map is empty. *)
Lemma erase_key_inv s h this ts (k : key_t s) :
  inv h this ts →
  (∀ pre n post,
     inorder (ts s) = pre ++ n :: post →
     has_key (Comparator s) (get_key s h) n k →
     ∃ h', erase s h this (iter this n) = Some (h', iter this (hd this post))
           ∧ erase_key s h this k
             = Some (h', if bool_decide (pre ++ post = []) then true
                         else bool_decide (post ≠ [])))
  ∧ ((∀ n, n ∈ inorder (ts s) →
           ¬ has_key (Comparator s) (get_key s h) n k) →
     erase_key s h this k = Some (h, bool_decide (inorder (ts s) = []))).
Proof.
  intros Hinv. split.
  - intros pre n post Hs Hk.
    assert (n ∈ inorder (ts s)) as Hn by (rewrite Hs; set_solver).
    destruct (erase_inv _ _ _ _ Hsw s h this ts pre n post Hinv Hs)
      as (h' & Her & Hinv' & Hrem & _).
    exists h'. split; [done|]. unfold bimap.erase_key.
    rewrite (find_inv_found _ _ _ _ Hsw s h this ts n k Hinv Hn Hk).
    cbn [mbind option_bind]. rewrite Her. cbn [mbind option_bind].
    rewrite (empty_inv h' this _ Hinv'). cbn [mbind option_bind].
    do 2 f_equal. unfold bimap.end_, intr_tree.end_. rewrite iter_eqb_iter.
    assert (bool_decide (inorder (remove n (ts left_tag)) = [])
            = bool_decide (pre ++ post = [])) as ->.
    { apply bool_decide_ext. rewrite <- Hrem.
      pose proof (inv_same _ _ _ _ _ _ _ Hinv') as Hp. cbn beta in Hp.
      destruct s; [done|]. split; intros Hnil.
      - apply Permutation_nil_r. by rewrite <- Hp, Hnil.
      - apply Permutation_nil_r. by rewrite Hp, Hnil. }
    assert (bool_decide (hd this post = this) = bool_decide (post = [])) as ->.
    { apply bool_decide_ext. destruct post as [|y post]; [done|]. simpl.
      split; [|done]. intros ->.
      destruct (inv_not_this _ _ _ _ s h this ts this Hinv); [|done].
      rewrite Hs. set_solver. }
    destruct post as [|y post], pre as [|z pre];
      repeat case_bool_decide; simplify_eq/=; done.
  - intros Habs. unfold bimap.erase_key.
    rewrite (find_inv_absent _ _ _ _ Hsw s h this ts k Hinv Habs).
    cbn [mbind option_bind]. unfold bimap.erase, bimap.iter_eqb.
    rewrite bool_decide_eq_true_2 by done. cbn [mbind option_bind].
    rewrite (empty_inv h this ts Hinv). cbn [mbind option_bind].
    do 2 f_equal.
    rewrite (bool_decide_eq_true_2 (bimap.it _ = bimap.it _)) by done.
    assert (bool_decide (inorder (ts left_tag) = [])
            = bool_decide (inorder (ts s) = [])) as ->.
    { apply bool_decide_ext.
      pose proof (inv_same _ _ _ _ _ _ _ Hinv) as Hp.
      destruct s; [done|]. split; intros Hnil.
      - apply Permutation_nil_r. by rewrite <- Hp, Hnil.
      - apply Permutation_nil_r. by rewrite Hp, Hnil. }
    by destruct (bool_decide _).
Qed.

Lemma traverse_set_nodes s h this ns :
  traverse s (bimap.set_nodes _ _ ns h) this = traverse s h this.
Proof.
  unfold bimap.traverse. assert (∀ n i,
    bimap.traverse_loop _ _ n s (bimap.set_nodes _ _ ns h) this i
    = bimap.traverse_loop _ _ n s h this i) as Hloop.
  { induction n as [|n IH]; intros i; [done|]. simpl.
    destruct (negb _); [|done]. destruct (bimap.it i); [|done]. simpl.
    assert (bimap.incr _ _ s (bimap.set_nodes _ _ ns h) i
            = bimap.incr _ _ s h i) as -> by (by destruct s).
    destruct (bimap.incr _ _ s h i); [|done]. simpl. by rewrite IH. }
  assert (bimap.begin _ _ s (bimap.set_nodes _ _ ns h) this
          = bimap.begin _ _ s h this) as -> by (by destruct s).
  destruct (bimap.begin _ _ s h this); [|done]. cbn [mbind option_bind].
  by rewrite Hloop.
Qed.

(** The repair of [at_or_default]: the key [k] is not in use on side [s]
    and the default of the other side is in use by the entry [n].  The
    key of [n] on side [s] is overwritten, the other value of [n] is
    returned, and nothing else changes: both trees stay linked as they
    were, so [n] keeps the place in the tree of tag [s] that its old key
    gave it. *)
Lemma at_or_default_repair s h this ts (k : key_t s) n nd :
  inv h this ts →
  (∀ m, m ∈ inorder (ts s) → ¬ has_key (Comparator s) (get_key s h) m k) →
  n ∈ inorder (ts (Other s)) →
  has_key (Comparator (Other s)) (get_key (Other s) h) n
    (default_key (Other s)) →
  nodes h !! n = Some nd →
  at_or_default s h this k
  = Some (bimap.set_nodes _ _ (<[n := bimap.set_key _ _ s k nd]> (nodes h)) h,
          bimap.key _ _ (Other s) nd)
  ∧ ∀ s', traverse s'
            (bimap.set_nodes _ _ (<[n := bimap.set_key _ _ s k nd]> (nodes h)) h)
            this
          = traverse s' h this.
Proof.
  intros Hinv Habs Hn Hk Hnd. split; [|intros; apply traverse_set_nodes].
  unfold bimap.at_or_default.
  rewrite (find_inv_absent _ _ _ _ Hsw s h this ts k Hinv Habs).
  cbn [mbind option_bind]. unfold bimap.iter_eqb at 1.
  rewrite bool_decide_eq_true_2 by done. cbn [negb].
  rewrite (find_inv_found _ _ _ _ Hsw (Other s) h this ts n _ Hinv Hn Hk).
  cbn [mbind option_bind]. unfold bimap.end_, intr_tree.end_.
  rewrite iter_eqb_iter.
  rewrite bool_decide_eq_false_2
    by (by apply (inv_not_this _ _ _ _ (Other s) h this ts n Hinv)).
  cbn [negb bimap.it mbind option_bind]. rewrite Hnd. cbn [mbind option_bind].
  rewrite (deref_iter _ _ (Other s) _ this n (bimap.set_key _ _ s k nd)).
  - cbn [mbind option_bind]. do 2 f_equal. by destruct s, nd.
  - cbn. by rewrite lookup_insert_eq.
Qed.

End defects.

Section move_tree.

Implicit Types (st : gmap nat E.t) (t l r : tree) (x y p : nat).

(** [move_from] hands the whole tree below [other] to the new sentinel
    [this] and resets [other]. *)
Lemma move_from_tree_at st this other t :
  tree_at st other t → st !! this = None →
  ∃ st', E.move_from (<[this := E.null]> st) this other = Some st'
    ∧ tree_at st' this t
    ∧ st' !! other = Some E.null
    ∧ (∀ z, st' !! z = None ↔ z ≠ this ∧ st !! z = None).
Proof.
  intros (Hroot & Hrep & Hnd & Hnin) Hthis.
  assert (this ≠ other) as Hne by (intros ->; by rewrite Hroot in Hthis).
  assert (this ∉ inorder t) as Hnt.
  { intros [? Hin]%(rep_lookup st other t this Hrep). by rewrite Hthis in Hin. }
  unfold E.move_from. rewrite lookup_insert_ne by done. rewrite Hroot.
  cbn [mbind option_bind E.left].
  change E.link_left with (link dL). change E.link_right with (link dR).
  destruct t as [|l c r].
  - cbn [root_of].
    rewrite (link_None dL _ this E.null) by (by rewrite lookup_insert_eq).
    cbn [mbind option_bind]. rewrite !lookup_insert_ne by done. rewrite Hroot.
    cbn [mbind option_bind E.right].
    rewrite (link_None dR _ this E.null) by (by rewrite lookup_insert_eq).
    cbn [mbind option_bind]. rewrite !lookup_insert_ne by done. rewrite Hroot.
    cbn [mbind option_bind]. eexists. split; [done|]. split_and!.
    + split_and!; [|done|done|done].
      rewrite lookup_insert_ne by done. by rewrite lookup_insert_eq.
    + by rewrite lookup_insert_eq.
    + intros z. rewrite !lookup_insert. repeat case_decide; subst;
        first [naive_solver
              |split; [done|]; intros [_ Hz]; by rewrite Hroot in Hz].
  - cbn [root_of]. pose proof Hrep as (Hc & Hl & Hr).
    assert (c ≠ this) as Hct by (intros ->; set_solver).
    assert (c ≠ other) as Hco by (intros ->; set_solver).
    rewrite (link_Some dL _ this E.null c _)
      by (rewrite ?lookup_insert_eq, ?lookup_insert_ne; done).
    cbn [mbind option_bind]. rewrite !lookup_insert_ne by done. rewrite Hroot.
    cbn [mbind option_bind E.right].
    erewrite (link_None dR _ this);
      [|rewrite lookup_insert_ne by done; by rewrite lookup_insert_eq].
    cbn [mbind option_bind]. rewrite !lookup_insert_ne by done. rewrite Hroot.
    cbn [mbind option_bind]. eexists. split; [done|]. split_and!.
    + split_and!; [|eapply (rep_reparent st _ other this)|done|done]; try done.
      * rewrite lookup_insert_ne by done. by rewrite lookup_insert_eq.
      * intros ? ? [= <-] ?. simplify_eq. rewrite !lookup_insert_ne by done.
        by rewrite lookup_insert_eq.
      * intros z Hz Hzc.
        assert (z ≠ c) by (intros ->; done).
        assert (z ≠ other) by (intros ->; done).
        assert (z ≠ this) by (intros ->; done).
        by rewrite !lookup_insert_ne.
    + by rewrite lookup_insert_eq.
    + intros z. rewrite !lookup_insert. repeat case_decide; subst;
        first [naive_solver
              |split; [done|]; intros [_ Hz]; by rewrite Hroot in Hz
              |split; [done|]; intros [_ Hz]; by rewrite Hc in Hz].
Qed.

Lemma traverse_empty {left_t right_t} s (h : bimap.heap left_t right_t) this :
  bimap.elements _ _ s h !! this = Some E.null →
  bimap.traverse _ _ s h this = Some [].
Proof.
  intros Hroot. unfold bimap.traverse, bimap.begin, intr_tree.begin.
  unfold E.fuel_of. cbn [E.min_in_subtree]. rewrite Hroot.
  cbn [mbind option_bind E.left E.null]. unfold bimap.fuel.
  cbn [bimap.traverse_loop]. unfold bimap.iter_eqb.
  by rewrite bool_decide_eq_true_2.
Qed.

End move_tree.

Section move_facts.

Import invariant.

Variables left_t right_t : Type.
Variable CompareLeft : left_t → left_t → bool.
Variable CompareRight : right_t → right_t → bool.

Local Abbreviation heap := (bimap.heap left_t right_t).
Local Abbreviation Comparator :=
  (bimap.Comparator left_t right_t CompareLeft CompareRight).
Local Abbreviation get_key := (bimap.get_key left_t right_t).
Local Abbreviation traverse := (bimap.traverse left_t right_t).
Local Abbreviation inv := (inv left_t right_t CompareLeft CompareRight).
Local Abbreviation size := (bimap.size left_t right_t).

Implicit Types (h : heap) (ts : side → tree) (s : side).

(** The move constructor: the new map has the trees and the size of
    [other]; [other] is left with empty trees, and with the [size_] it
    had. *)
Lemma move_ctor_inv h other ts :
  inv h other ts →
  ∃ h', bimap.move_ctor _ _ h other = Some (h', bimap.brk _ _ h)
    ∧ inv h' (bimap.brk _ _ h) ts
    ∧ bimap.empty _ _ h' other = Some true
    ∧ (∀ s, traverse s h' other = Some [])
    ∧ size h' other = Some (Z.of_nat (length (inorder (ts left_tag)))).
Proof.
  intros Hinv. set (this := bimap.brk _ _ h).
  destruct (inv_unused _ _ _ _ _ _ _ Hinv this (le_n _)) as (Hl & Hr & Hn).
  destruct (move_from_tree_at _ this other (ts left_tag)
              (inv_tree _ _ _ _ _ _ _ Hinv left_tag) Hl)
    as (stl & Hml & Htl & Hol & Hdoml).
  destruct (move_from_tree_at _ this other (ts right_tag)
              (inv_tree _ _ _ _ _ _ _ Hinv right_tag) Hr)
    as (str & Hmr & Htr & Hor & Hdomr).
  assert (this ≠ other) as Hne.
  { intros Heq. destruct (inv_tree _ _ _ _ _ _ _ Hinv left_tag) as (Hroot & _).
    simpl in Hroot. rewrite <- Heq in Hroot. by rewrite Hroot in Hl. }
  eexists. split; [|split_and!].
  - unfold bimap.move_ctor, intr_tree.move_ctor. fold this.
    cbn [bimap.elements] in Hml, Hmr. rewrite Hml. cbn [mbind option_bind].
    rewrite Hmr. cbn [mbind option_bind].
    rewrite (inv_size _ _ _ _ _ _ _ Hinv). cbn [mbind option_bind]. done.
  - split.
    + intros [|]; done.
    + intros s. apply Hinv.
    + apply Hinv.
    + intros s n. apply (inv_nodes _ _ _ _ _ _ _ Hinv s n).
    + cbn. by rewrite lookup_insert_eq.
    + apply Hinv.
    + intros n Hle. cbn [bimap.brk] in Hle. fold this in Hle.
      destruct (inv_unused _ _ _ _ _ _ _ Hinv n) as (H1 & H2 & H3);
        [fold this; lia|].
      cbn. split_and!; [apply Hdoml|apply Hdomr|done]; split; (lia || done).
  - unfold bimap.empty, intr_tree.empty. cbn. by rewrite Hol.
  - intros [|]; by apply traverse_empty.
  - unfold bimap.size. cbn. rewrite lookup_insert_ne by done. apply Hinv.
Qed.

End move_facts.

(** * Further properties *)

(** ** What an operation on a map leaves alone *)

Section tree_frame.

Implicit Types (st : gmap nat E.t) (t l r : tree) (x y p : nat).

Lemma filter_all {A} (P : A → Prop) `{!∀ a, Decision (P a)} (k : list A) :
  (∀ a, a ∈ k → P a) → filter P k = k.
Proof.
  induction k as [|a k IH]; [done|]. intros Hall.
  rewrite filter_cons_True by (apply Hall; set_solver).
  f_equal. apply IH. intros b Hb. apply Hall. set_solver.
Qed.

Lemma unlink_tree_frame st root t x st' :
  tree_at st root t → x ∈ inorder t →
  E.unlink (E.fuel_of st) st x = Some st' →
  ∀ z, z ≠ root → z ∉ inorder t → st' !! z = st !! z.
Proof.
  intros Ht Hx Hun. pose proof (tree_at_fuel _ _ _ Ht) as Hf.
  destruct Ht as (Hroot & Hrep & Hnd & Hnin).
  destruct (unlink_rep t st root _ dL x (E.fuel_of st) Hroot eq_refl)
    as (st'' & Hun' & _ & _ & Hfr & _);
    [done|done|done|done|done|unfold E.fuel_of; lia|].
  rewrite Hun in Hun'. injection Hun' as <-. exact Hfr.
Qed.

(** The entries of a linked subtree have their parents in the subtree
    or at its parent. *)
Lemma rep_parent st p t x :
  rep st p t → x ∈ inorder t →
  ∃ e q, st !! x = Some e ∧ E.parent e = Some q
         ∧ (q = p ∨ q ∈ inorder t).
Proof.
  revert p. induction t as [|l IHl y r IHr]; intros p Hrep Hx.
  { by apply not_elem_of_nil in Hx. }
  destruct Hrep as (Hy & Hl & Hr). cbn [inorder] in Hx |- *.
  apply elem_of_app in Hx as [Hx|[->|Hx]%elem_of_cons].
  - destruct (IHl y Hl Hx) as (e & q & He & Hq & Hin).
    exists e, q. split_and!; [done|done|]. right. set_solver.
  - eexists _, p. split_and!; [done|done|by left].
  - destruct (IHr y Hr Hx) as (e & q & He & Hq & Hin).
    exists e, q. split_and!; [done|done|]. right. set_solver.
Qed.

Lemma rep_meet st ta :
  ∀ pa pb tb x,
  rep st pa ta → rep st pb tb → x ∈ inorder ta → x ∈ inorder tb →
  pa = pb ∨ pa ∈ inorder tb ∨ pb ∈ inorder ta.
Proof.
  induction ta as [|l IHl y r IHr]; intros pa pb tb x Ha Hb Hxa Hxb.
  { by apply not_elem_of_nil in Hxa. }
  pose proof Ha as (Hy & Hl & Hr).
  assert (y ∈ inorder tb → pa = pb ∨ pa ∈ inorder tb) as Hroot.
  { intros Hyb. destruct (rep_parent st pb tb y Hb Hyb)
      as (e & q & He & Hq & Hin).
    rewrite Hy in He. injection He as <-. injection Hq as <-.
    destruct Hin; auto. }
  cbn [inorder] in Hxa |- *.
  apply elem_of_app in Hxa as [Hx|[->|Hx]%elem_of_cons].
  - destruct (IHl y pb tb x Hl Hb Hx Hxb) as [->|[Hyb|Hpb]].
    + right; right. set_solver.
    + destruct (Hroot Hyb); auto.
    + right; right. set_solver.
  - destruct (Hroot Hxb); auto.
  - destruct (IHr y pb tb x Hr Hb Hx Hxb) as [->|[Hyb|Hpb]].
    + right; right. set_solver.
    + destruct (Hroot Hyb); auto.
    + right; right. set_solver.
Qed.

(** Two trees below different sentinels in one store share no entry,
    and the sentinel of one is no entry of the other. *)
Lemma tree_at_sentinel st a ta b tb :
  tree_at st a ta → tree_at st b tb → a ∉ inorder tb.
Proof.
  intros (Ha & _) (_ & Hb & _) Hin.
  destruct (rep_parent st b tb a Hb Hin) as (e & q & He & Hq & _).
  rewrite Ha in He. by injection He as <-.
Qed.

Lemma tree_at_disjoint st a ta b tb x :
  tree_at st a ta → tree_at st b tb → a ≠ b →
  x ∈ inorder ta → x ∉ inorder tb.
Proof.
  intros Hta Htb Hab Hxa Hxb.
  pose proof (tree_at_sentinel st a ta b tb Hta Htb).
  pose proof (tree_at_sentinel st b tb a ta Htb Hta).
  destruct Hta as (_ & Ha & _). destruct Htb as (_ & Hb & _).
  destruct (rep_meet st ta a b tb x Ha Hb Hxa Hxb) as [?|[?|?]]; done.
Qed.

Lemma tree_at_ext st st' root t :
  (∀ z, z = root ∨ z ∈ inorder t → st' !! z = st !! z) →
  tree_at st root t → tree_at st' root t.
Proof.
  intros Hagree (Hroot & Hrep & Hnd & Hnin).
  split_and!; [|eapply rep_ext; [|done]|done|done].
  - rewrite Hagree by auto. done.
  - intros z Hz. apply Hagree. auto.
Qed.

Lemma tree_at_lookup st root t z :
  tree_at st root t → z = root ∨ z ∈ inorder t → is_Some (st !! z).
Proof.
  intros (Hroot & Hrep & _) [->|Hz]; [by eexists|by eapply rep_lookup].
Qed.

End tree_frame.

Section map_frame.

Import invariant.

Variables left_t right_t : Type.
Variable CompareLeft : left_t → left_t → bool.
Variable CompareRight : right_t → right_t → bool.

Local Abbreviation heap := (bimap.heap left_t right_t).
Local Abbreviation key_t := (bimap.key_t left_t right_t).
Local Abbreviation Comparator :=
  (bimap.Comparator left_t right_t CompareLeft CompareRight).
Local Abbreviation get_key := (bimap.get_key left_t right_t).
Local Abbreviation elements := (bimap.elements left_t right_t).
Local Abbreviation traverse := (bimap.traverse left_t right_t).
Local Abbreviation inv := (inv left_t right_t CompareLeft CompareRight).
Local Abbreviation wf := (wf left_t right_t CompareLeft CompareRight).
Local Abbreviation same_at := (same_at left_t right_t).
Local Abbreviation unused_above := (unused_above left_t right_t).
Local Abbreviation iter := (λ this n, bimap.mk_iterator (Some n) this).

Hypothesis Hsw : ∀ s, strict_weak (Comparator s).

Implicit Types (h : heap) (ts : side → tree) (s : side).

Lemma same_at_refl h z : same_at h h z.
Proof. done. Qed.

Lemma same_at_trans h1 h2 h3 z :
  same_at h1 h2 z → same_at h2 h3 z → same_at h1 h3 z.
Proof.
  intros (He & Hn & Hs) (He' & Hn' & Hs'). split_and!.
  - intros s. by rewrite He', He.
  - by rewrite Hn', Hn.
  - by rewrite Hs', Hs.
Qed.

(** A map none of whose objects changed is the map it was. *)
Lemma inv_frame h h' o tso :
  inv h o tso →
  (∀ z, z = o ∨ z ∈ inorder (tso left_tag) → same_at h h' z) →
  unused_above h' →
  inv h' o tso.
Proof.
  intros Hinv Hsame Hunused.
  assert (∀ s z, z ∈ inorder (tso s) → same_at h h' z) as Hentry.
  { intros s z Hz. apply Hsame. right.
    by apply (inv_elem_of_sides _ _ CompareLeft CompareRight s left_tag h o tso). }
  split.
  - intros s. destruct (inv_tree _ _ _ _ _ _ _ Hinv s)
      as (Hroot & Hrep & Hnd & Hnin).
    split_and!; [|eapply rep_ext; [|done]|done|done].
    + destruct (Hsame o (or_introl eq_refl)) as (-> & _). done.
    + intros z Hz. by destruct (Hentry s z Hz) as (-> & _).
  - intros s. eapply (bst_ext _ _ (Hsw s)); [|apply Hinv].
    intros z Hz. unfold bimap.get_key.
    by destruct (Hentry s z Hz) as (_ & -> & _).
  - apply Hinv.
  - intros s z Hz. destruct (Hentry s z Hz) as (_ & -> & _).
    by apply (inv_nodes _ _ _ _ _ _ _ Hinv s).
  - destruct (Hsame o (or_introl eq_refl)) as (_ & _ & ->). apply Hinv.
  - apply Hinv.
  - done.
Qed.

(** Two maps in one memory share no entry. *)
Lemma inv_disjoint h a tsa b tsb x :
  inv h a tsa → inv h b tsb → a ≠ b →
  x = a ∨ x ∈ inorder (tsa left_tag) →
  x ≠ b ∧ x ∉ inorder (tsb left_tag).
Proof.
  intros Ha Hb Hab.
  pose proof (inv_tree _ _ _ _ _ _ _ Ha left_tag) as Hta.
  pose proof (inv_tree _ _ _ _ _ _ _ Hb left_tag) as Htb.
  intros [->|Hx].
  - split; [done|]. by eapply tree_at_sentinel.
  - split.
    + intros ->. by eapply (tree_at_sentinel _ b (tsb left_tag) a).
    + by eapply (tree_at_disjoint _ a (tsa left_tag) b).
Qed.

(** [erase] through an iterator changes only the map and its entries. *)
Lemma erase_frame s h this ts n h' i :
  inv h this ts → n ∈ inorder (ts s) →
  bimap.erase _ _ s h this (iter this n) = Some (h', i) →
  (∀ z, z ≠ this → z ∉ inorder (ts left_tag) → same_at h h' z)
  ∧ bimap.brk _ _ h' = bimap.brk _ _ h.
Proof.
  intros Hinv Hn.
  assert (∀ s', n ∈ inorder (ts s')) as Hn'
    by (intros s'; by eapply inv_elem_of_sides).
  pose proof (inv_not_this _ _ CompareLeft CompareRight _ _ _ _ _ Hinv Hn) as Hnthis.
  destruct (inv_nodes _ _ _ _ _ _ _ Hinv s n Hn) as [nd Hnd].
  destruct (unlink_tree_at _ this (ts right_tag) n
              (inv_tree _ _ _ _ _ _ _ Hinv right_tag) (Hn' right_tag))
    as (str & Hunr & _).
  destruct (unlink_tree_at _ this (ts left_tag) n
              (inv_tree _ _ _ _ _ _ _ Hinv left_tag) (Hn' left_tag))
    as (stl & Hunl & _).
  pose proof (unlink_tree_frame _ this (ts right_tag) n str
                (inv_tree _ _ _ _ _ _ _ Hinv right_tag) (Hn' right_tag) Hunr)
    as Hfr.
  pose proof (unlink_tree_frame _ this (ts left_tag) n stl
                (inv_tree _ _ _ _ _ _ _ Hinv left_tag) (Hn' left_tag) Hunl)
    as Hfl.
  apply list_elem_of_split in Hn as (pre & post & Hs).
  unfold bimap.erase, bimap.end_, intr_tree.end_. rewrite iter_eqb_iter.
  rewrite bool_decide_eq_false_2 by done.
  rewrite (inv_size _ _ _ _ _ _ _ Hinv). cbn [mbind option_bind bimap.it].
  assert (∀ z, bimap.nodes _ _ (bimap.set_size _ _ this z h)
               = bimap.nodes _ _ h) as -> by done.
  rewrite Hnd. cbn [mbind option_bind].
  assert (∀ z, bimap.incr _ _ s (bimap.set_size _ _ this z h) (iter this n)
               = bimap.incr _ _ s h (iter this n)) as ->
    by (intros; by destruct s).
  rewrite (incr_inv _ _ CompareLeft CompareRight s h this ts pre n post Hinv Hs).
  cbn [mbind option_bind]. unfold bimap.delete_node.
  cbn [bimap.set_size bimap.nodes bimap.elements_left bimap.elements_right
       bimap.size_ bimap.brk].
  rewrite Hnd. cbn [mbind option_bind]. cbn [bimap.elements] in Hunr, Hunl.
  rewrite Hunr. cbn [mbind option_bind]. rewrite Hunl.
  cbn [mbind option_bind]. intros [= <- <-]. split; [|done].
  intros z Hz Hzl.
  assert (z ≠ n) as Hzn by (intros ->; by apply Hzl).
  assert (z ∉ inorder (ts right_tag)) as Hzr.
  { intros Hzr. apply Hzl.
    by apply (inv_elem_of_sides _ _ CompareLeft CompareRight right_tag left_tag h this ts). }
  split_and!.
  - intros [|]; cbn [bimap.elements bimap.elements_left bimap.elements_right];
      rewrite lookup_delete_ne by done; [by apply Hfl|by apply Hfr].
  - cbn [bimap.nodes]. by rewrite lookup_delete_ne.
  - cbn [bimap.size_]. by rewrite lookup_insert_ne.
Qed.

Lemma erase_step s h this ts pre n post :
  inv h this ts → inorder (ts s) = pre ++ n :: post →
  ∃ h' ts',
    bimap.erase _ _ s h this (iter this n)
    = Some (h', iter this (hd this post))
    ∧ inv h' this ts'
    ∧ inorder (ts' s) = pre ++ post
    ∧ (∀ s', inorder (ts' s') = filter (λ m, m ≠ n) (inorder (ts s')))
    ∧ bimap.nodes _ _ h' = delete n (bimap.nodes _ _ h)
    ∧ (∀ z, z ≠ this → z ∉ inorder (ts left_tag) → same_at h h' z)
    ∧ bimap.brk _ _ h' = bimap.brk _ _ h.
Proof.
  intros Hinv Hs.
  assert (n ∈ inorder (ts s)) as Hn by (rewrite Hs; set_solver).
  destruct (erase_inv _ _ _ _ Hsw s h this ts pre n post Hinv Hs)
    as (h' & Her & Hinv' & Hrem & Hnodes & _).
  destruct (erase_frame s h this ts n h' _ Hinv Hn Her) as [Hframe Hbrk].
  exists h', (λ s', remove n (ts s')).
  split_and!; [done|done|done| |done|done|done].
  intros s'.
  assert (n ∈ inorder (ts s')) as (pre' & post' & Hs')%list_elem_of_split
    by (by eapply inv_elem_of_sides).
  pose proof (inv_tree _ _ _ _ _ _ _ Hinv s') as (_ & _ & Hnd & _).
  rewrite (inorder_remove _ _ pre' post' Hnd Hs'). rewrite Hs' in Hnd |- *.
  by rewrite (filter_remove_mid _ _ _ _ Hsw).
Qed.

(** The loop of [erase(first, last)] on a range of consecutive entries
    of the map. *)
Lemma erase_range_loop_inv s this mid :
  ∀ h ts pre post f,
  inv h this ts → inorder (ts s) = pre ++ mid ++ post →
  (length mid < f)%nat →
  ∃ h' ts',
    bimap.erase_range_loop _ _ f s h this
      (iter this (hd this (mid ++ post))) (iter this (hd this post))
    = Some (h', iter this (hd this post))
    ∧ inv h' this ts'
    ∧ inorder (ts' s) = pre ++ post
    ∧ (∀ s', inorder (ts' s') = filter (λ m, m ∉ mid) (inorder (ts s')))
    ∧ (∀ m, bimap.nodes _ _ h' !! m
            = if decide (m ∈ mid) then None else bimap.nodes _ _ h !! m)
    ∧ (∀ z, z ≠ this → z ∉ inorder (ts left_tag) → same_at h h' z)
    ∧ bimap.brk _ _ h' = bimap.brk _ _ h.
Proof.
  induction mid as [|n mid IH]; intros h ts pre post f Hinv Hs Hf.
  - destruct f as [|f]; [simpl in Hf; lia|].
    exists h, ts. cbn [app bimap.erase_range_loop].
    unfold bimap.iter_eqb. rewrite bool_decide_eq_true_2 by done.
    cbn [negb]. split_and!; [done|done|done| |done|done|done].
    intros s'. rewrite filter_all; [done|]. intros ? _. set_solver.
  - destruct f as [|f]; [simpl in Hf; lia|].
    pose proof (inv_tree _ _ _ _ _ _ _ Hinv s) as (_ & _ & Hnd & Hnin).
    rewrite Hs in Hnd, Hnin. cbn [app] in Hs, Hnd, Hnin.
    pose proof Hnd as [_ Hn]%NoDup_remove_mid.
    cbn [app hd bimap.erase_range_loop]. rewrite iter_eqb_iter.
    rewrite bool_decide_eq_false_2.
    2:{ intros Heq. destruct post as [|m post]; cbn [hd] in Heq.
        - subst n. apply Hnin. set_solver.
        - subst n. apply Hn. set_solver. }
    cbn [negb].
    destruct (erase_step s h this ts pre n (mid ++ post) Hinv Hs)
      as (h1 & ts1 & Her & Hinv1 & Hs1 & Hfil1 & Hnodes1 & Hframe1 & Hbrk1).
    rewrite Her. cbn [mbind option_bind].
    destruct (IH h1 ts1 pre post f Hinv1 Hs1 ltac:(simpl in Hf; lia))
      as (h' & ts' & Hloop & Hinv' & Hs' & Hfil' & Hnodes' & Hframe' & Hbrk').
    exists h', ts'. split_and!; [done|done|done| | | |congruence].
    + intros s'. rewrite Hfil', Hfil1, list_filter_filter.
      apply list_filter_iff. intros m. set_solver.
    + intros m. rewrite Hnodes', Hnodes1.
      destruct (decide (m = n)) as [->|Hmn].
      * rewrite lookup_delete_eq. repeat case_decide; try done; set_solver.
      * rewrite lookup_delete_ne by done.
        repeat case_decide; try done; set_solver.
    + intros z Hz Hzl. eapply same_at_trans; [by apply Hframe1|].
      apply Hframe'; [done|]. rewrite Hfil1.
      intros [_ ?]%list_elem_of_filter. done.
Qed.

End map_frame.

(** ** The operations on one map *)

Section coverage.

Import invariant.

Variables left_t right_t : Type.
Variable CompareLeft : left_t → left_t → bool.
Variable CompareRight : right_t → right_t → bool.
Variable default_key : ∀ s, bimap.key_t left_t right_t s.

Local Abbreviation heap := (bimap.heap left_t right_t).
Local Abbreviation key_t := (bimap.key_t left_t right_t).
Local Abbreviation Comparator :=
  (bimap.Comparator left_t right_t CompareLeft CompareRight).
Local Abbreviation get_key := (bimap.get_key left_t right_t).
Local Abbreviation elements := (bimap.elements left_t right_t).
Local Abbreviation traverse := (bimap.traverse left_t right_t).
Local Abbreviation inv := (inv left_t right_t CompareLeft CompareRight).
Local Abbreviation wf := (wf left_t right_t CompareLeft CompareRight).
Local Abbreviation built := (built left_t right_t CompareLeft CompareRight).
Local Abbreviation resident := (resident left_t right_t).
Local Abbreviation key_in_use :=
  (key_in_use left_t right_t CompareLeft CompareRight).
Local Abbreviation keys := (keys left_t right_t).
Local Abbreviation iter := (λ this n, bimap.mk_iterator (Some n) this).
Local Abbreviation find := (bimap.find _ _ CompareLeft CompareRight).
Local Abbreviation insert := (bimap.insert _ _ CompareLeft CompareRight).
Local Abbreviation erase := (bimap.erase left_t right_t).
Local Abbreviation erase_key :=
  (bimap.erase_key _ _ CompareLeft CompareRight).
Local Abbreviation at_ := (bimap.at_ _ _ CompareLeft CompareRight).
Local Abbreviation at_or_default :=
  (bimap.at_or_default _ _ CompareLeft CompareRight default_key).
Local Abbreviation nodes := (bimap.nodes left_t right_t).
Local Abbreviation size := (bimap.size left_t right_t).

Hypothesis Hsw : ∀ s, strict_weak (Comparator s).

Implicit Types (h : heap) (ts : side → tree) (s : side).

Lemma equiv_key_sym s (a b : key_t s) :
  equiv_key (Comparator s) a b → equiv_key (Comparator s) b a.
Proof. intros [? ?]. by split. Qed.

Lemma sorted_apart {A} (R : A → A → Prop) (l : list A) (x y : A) :
  StronglySorted R l → x ∈ l → y ∈ l → x ≠ y → R x y ∨ R y x.
Proof.
  induction l as [|a l IH]; intros Hs Hx Hy Hne.
  { by apply not_elem_of_nil in Hx. }
  apply StronglySorted_cons in Hs as [Hall Hs].
  rewrite Forall_forall in Hall.
  apply elem_of_cons in Hx as [->|Hx]; apply elem_of_cons in Hy as [->|Hy];
    [done|left; auto|right; auto|auto].
Qed.

(** Two entries of a tree that have an equivalent key are one entry. *)
Lemma has_key_unique s h this ts n m (k : key_t s) :
  inv h this ts → n ∈ inorder (ts s) → m ∈ inorder (ts s) →
  has_key (Comparator s) (get_key s h) n k →
  has_key (Comparator s) (get_key s h) m k → n = m.
Proof.
  intros Hinv Hn Hm (kn & Hkn & Hen) (km & Hkm & Hem).
  destruct (decide (n = m)) as [|Hne]; [done|exfalso].
  pose proof (proj1 (bst_sorted _ _ (Hsw s) (ts s))
                (inv_bst _ _ _ _ _ _ _ Hinv s)) as Hsorted.
  assert (equiv_key (Comparator s) kn km) as [H1 H2].
  { eapply (sw_equiv_trans _ (Hsw s)); [done|by apply equiv_key_sym]. }
  destruct (sorted_apart _ _ n m Hsorted Hn Hm Hne)
    as [(? & ? & ? & ? & Hlt)%lt_node_inv|(? & ? & ? & ? & Hlt)%lt_node_inv];
    simplify_eq; congruence.
Qed.

Lemma keys_inv s h this ts :
  inv h this ts →
  ∃ ks, keys s h this = Some ks
        ∧ Forall2 (λ n k, get_key s h n = Some k) (inorder (ts s)) ks.
Proof.
  intros Hinv. unfold invariant.keys.
  rewrite (traverse_inv _ _ _ _ Hsw s h this ts Hinv). cbn [mbind option_bind].
  pose proof (keyed_inv _ _ CompareLeft CompareRight s h this ts Hinv) as Hk.
  destruct (proj2 (mapM_is_Some (get_key s h) (inorder (ts s)))) as [ks Hks].
  { apply Forall_forall. intros n Hn. by apply Hk. }
  exists ks. split; [done|]. by apply mapM_Some.
Qed.

Lemma at_inv_found s h this ts (k : key_t s) n nd :
  inv h this ts → n ∈ inorder (ts s) →
  has_key (Comparator s) (get_key s h) n k → nodes h !! n = Some nd →
  at_ s h this k = Some (Returned (bimap.key _ _ (Other s) nd)).
Proof.
  intros Hinv Hn Hk Hnd. unfold bimap.at_.
  pose proof (inv_not_this _ _ _ _ s h this ts n Hinv Hn) as Hne.
  rewrite (find_inv_found _ _ _ _ Hsw s h this ts n k Hinv Hn Hk).
  cbn [mbind option_bind]. unfold bimap.end_, intr_tree.end_.
  rewrite iter_eqb_iter, bool_decide_eq_false_2 by done.
  rewrite (flip_iter _ _ s h this n nd Hne Hnd). cbn [mbind option_bind].
  by rewrite (deref_iter _ _ (Other s) h this n nd Hnd).
Qed.

Lemma at_inv_absent s h this ts (k : key_t s) :
  inv h this ts →
  (∀ n, n ∈ inorder (ts s) → ¬ has_key (Comparator s) (get_key s h) n k) →
  at_ s h this k = Some (Thrown (out_of_range "No such element")).
Proof.
  intros Hinv Habs. unfold bimap.at_.
  rewrite (find_inv_absent _ _ _ _ Hsw s h this ts k Hinv Habs).
  cbn [mbind option_bind]. unfold bimap.iter_eqb.
  by rewrite bool_decide_eq_true_2.
Qed.

(** A lookup that returns a value is the lookup of a key in use. *)
Lemma at_inv_returned s h this ts (k : key_t s) v :
  inv h this ts → at_ s h this k = Some (Returned v) →
  ∃ n nd, n ∈ inorder (ts s)
          ∧ has_key (Comparator s) (get_key s h) n k
          ∧ nodes h !! n = Some nd ∧ v = bimap.key _ _ (Other s) nd.
Proof.
  intros Hinv Hat.
  destruct (key_in_use_cases _ _ _ _ Hsw s h (inorder (ts s)) k)
    as [(n & Hn & Hk)|Habs].
  - destruct (inv_nodes _ _ _ _ _ _ _ Hinv s n Hn) as [nd Hnd].
    rewrite (at_inv_found s h this ts k n nd Hinv Hn Hk Hnd) in Hat.
    injection Hat as <-. by exists n, nd.
  - by rewrite (at_inv_absent s h this ts k Hinv Habs) in Hat.
Qed.

Lemma has_key_agree s h h' n (k : key_t s) :
  nodes h' !! n = nodes h !! n →
  has_key (Comparator s) (get_key s h) n k →
  has_key (Comparator s) (get_key s h') n k.
Proof.
  intros Heq (kn & Hkn & He). exists kn. split; [|done].
  unfold bimap.get_key in *. by rewrite Heq.
Qed.

(** What a successful [insert] gives, in terms of the shapes. *)
Lemma insert_inv_success h this ts l r h' i :
  inv h this ts →
  (∀ sz, size h this = Some sz → sz + 1 < bimap.size_max) →
  insert h this l r = Some (h', i) → i ≠ bimap.end_left this →
  ∃ ts', i = iter this (bimap.brk _ _ h)
    ∧ inv h' this ts'
    ∧ (∀ s, inorder (ts' s) ≡ₚ bimap.brk _ _ h :: inorder (ts s))
    ∧ nodes h' = <[bimap.brk _ _ h := bimap.mk_node _ _ (l, r)]> (nodes h)
    ∧ nodes h !! bimap.brk _ _ h = None.
Proof.
  intros Hinv Hbound Hins Hi.
  destruct (inv_unused _ _ _ _ _ _ _ Hinv _ (le_n _)) as (_ & _ & Hfresh).
  destruct (key_in_use_cases _ _ _ _ Hsw left_tag h
              (inorder (ts left_tag)) l) as [(n & Hn & Hk)|Habsl].
  { exfalso. unfold bimap.insert, bimap.insert_, bimap.find_left in Hins.
    rewrite (find_inv_found _ _ _ _ Hsw left_tag h this ts n l Hinv Hn Hk)
      in Hins.
    cbn [mbind option_bind] in Hins. unfold bimap.end_left, bimap.end_,
      intr_tree.end_ in Hins.
    rewrite iter_eqb_iter, bool_decide_eq_false_2 in Hins
      by (by eapply inv_not_this).
    by injection Hins as _ <-. }
  destruct (key_in_use_cases _ _ _ _ Hsw right_tag h
              (inorder (ts right_tag)) r) as [(n & Hn & Hk)|Habsr].
  { exfalso. unfold bimap.insert, bimap.insert_, bimap.find_left,
      bimap.find_right in Hins.
    rewrite (find_inv_absent _ _ _ _ Hsw left_tag h this ts l Hinv Habsl)
      in Hins.
    cbn [mbind option_bind] in Hins.
    unfold bimap.end_left, bimap.end_right, bimap.iter_eqb in Hins.
    rewrite bool_decide_eq_true_2 in Hins by done. cbn [negb] in Hins.
    rewrite (find_inv_found _ _ _ _ Hsw right_tag h this ts n r Hinv Hn Hk)
      in Hins.
    cbn [mbind option_bind bimap.it bimap.end_ intr_tree.end_] in Hins.
    rewrite bool_decide_eq_false_2 in Hins.
    - by injection Hins as _ <-.
    - intros [= ->].
      by eapply (inv_not_this _ _ _ _ right_tag h this ts this). }
  destruct (insert_absent _ _ _ _ Hsw h this ts l r Hinv)
    as (h'' & ts' & Hins' & Hinv' & Hperm & Hnodes & _).
  - intros [|]; done.
  - apply Hbound. apply Hinv.
  - rewrite Hins' in Hins. injection Hins as <- <-. by exists ts'.
Qed.

Lemma sorted_keys s h (ns : list nat) (ks : list (key_t s)) :
  Forall2 (λ n k, get_key s h n = Some k) ns ks →
  StronglySorted (lt_node (Comparator s) (get_key s h)) ns →
  StronglySorted (λ a b, Comparator s a b = true) ks.
Proof.
  induction 1 as [|n k ns ks Hk Hall IH]; intros Hsorted; [constructor|].
  apply StronglySorted_cons in Hsorted as [Hfa Hsorted].
  apply StronglySorted_cons. split; [|by apply IH].
  rewrite Forall_forall in Hfa. rewrite Forall_forall. intros k' Hk'.
  apply list_elem_of_lookup in Hk' as [j Hj].
  destruct (Forall2_lookup_r _ _ _ _ _ Hall Hj) as (m & Hm & Hkm).
  destruct (lt_node_inv _ _ _ _ (Hfa m (list_elem_of_lookup_2 _ _ _ Hm)))
    as (? & ? & ? & ? & ?).
  by simplify_eq.
Qed.

(** X1: after every sequence of [insert] and [erase] calls on a new
    map the two trees hold the same entries, each once, [size()] is their
    number and [empty()] tells whether there is none. *)
Theorem built_size_consistent h this :
  built h this →
  ∃ nl nr,
    traverse left_tag h this = Some nl
    ∧ traverse right_tag h this = Some nr
    ∧ nl ≡ₚ nr ∧ NoDup nl
    ∧ size h this = Some (Z.of_nat (length nl))
    ∧ bimap.empty _ _ h this = Some (bool_decide (nl = [])).
Proof.
  intros [ts Hinv]%(built_wf _ _ _ _ Hsw).
  exists (inorder (ts left_tag)), (inorder (ts right_tag)).
  split_and!; try by apply (traverse_inv _ _ CompareLeft CompareRight Hsw).
  - apply Hinv.
  - apply (inv_tree _ _ _ _ _ _ _ Hinv left_tag).
  - apply Hinv.
  - by apply (empty_inv _ _ CompareLeft CompareRight).
Qed.

(** X2: after every sequence of [insert] and [erase] calls on a new
    map the traversal of either tree meets strictly increasing keys under
    the comparator of its side. *)
Theorem built_keys_sorted s h this :
  built h this →
  ∃ ks, keys s h this = Some ks
        ∧ StronglySorted (λ a b, Comparator s a b = true) ks.
Proof.
  intros [ts Hinv]%(built_wf _ _ _ _ Hsw).
  destruct (keys_inv s h this ts Hinv) as (ks & Hks & Hall).
  exists ks. split; [done|].
  apply (sorted_keys s h (inorder (ts s)) ks Hall).
  apply (bst_sorted _ _ (Hsw s)), Hinv.
Qed.

(** X3: in a map that satisfies the invariant no two entries have
    equivalent keys on a side. *)
Theorem resident_keys_unique s h this n m (k : key_t s) :
  wf h this → resident s h this n → resident s h this m →
  has_key (Comparator s) (get_key s h) n k →
  has_key (Comparator s) (get_key s h) m k → n = m.
Proof.
  intros [ts Hinv] Hn%(resident_inv _ _ _ _ Hsw s h this ts n Hinv)
    Hm%(resident_inv _ _ _ _ Hsw s h this ts m Hinv).
  apply (has_key_unique s h this ts n m k Hinv Hn Hm).
Qed.


(** X5: on a map that satisfies the invariant, after [erase] through an
    iterator at the entry [(l, r)], [find_left(l)] and [find_right(r)]
    are [end], [at_left(l)] and [at_right(r)] throw, and every lookup of
    a key of another entry returns what it returned before. *)
Theorem erase_then_lookup s h this n l r h' i :
  wf h this → resident s h this n →
  nodes h !! n = Some (bimap.mk_node _ _ (l, r)) →
  erase s h this (iter this n) = Some (h', i) →
  bimap.find_left _ _ CompareLeft CompareRight h' this l
  = Some (bimap.end_left this)
  ∧ bimap.find_right _ _ CompareLeft CompareRight h' this r
    = Some (bimap.end_right this)
  ∧ bimap.at_left _ _ CompareLeft CompareRight h' this l
    = Some (Thrown (out_of_range "No such element"))
  ∧ bimap.at_right _ _ CompareLeft CompareRight h' this r
    = Some (Thrown (out_of_range "No such element"))
  ∧ (∀ s' (k : key_t s') v,
       at_ s' h this k = Some (Returned v) →
       ¬ has_key (Comparator s') (get_key s' h) n k →
       at_ s' h' this k = Some (Returned v)).
Proof.
  intros [ts Hinv] Hn%(resident_inv _ _ _ _ Hsw s h this ts n Hinv) Hnd Her.
  pose proof Hn as (pre & post & Hs)%list_elem_of_split.
  destruct (erase_inv _ _ _ _ Hsw s h this ts pre n post Hinv Hs)
    as (h'' & Her' & Hinv' & _ & Hnodes & _).
  rewrite Her' in Her. injection Her as <- <-.
  assert (∀ s', n ∈ inorder (ts s')) as Hn'
    by (intros; by eapply inv_elem_of_sides).
  assert (∀ s' m, m ∈ inorder (remove n (ts s')) →
                  m ∈ inorder (ts s') ∧ m ≠ n
                  ∧ nodes h'' !! m = nodes h !! m) as Hrest.
  { intros s' m Hm.
    pose proof (Hn' s') as (pre' & post' & Hs')%list_elem_of_split.
    pose proof (inv_tree _ _ _ _ _ _ _ Hinv s') as (_ & _ & Hnodup & _).
    rewrite (inorder_remove _ _ pre' post' Hnodup Hs') in Hm.
    rewrite Hs' in Hnodup. apply NoDup_remove_mid in Hnodup as [_ Hnin].
    assert (m ≠ n) by (intros ->; done).
    split_and!; [rewrite Hs'; set_solver|done|].
    rewrite Hnodes. by apply lookup_delete_ne. }
  assert (∀ s' (k : key_t s'),
            has_key (Comparator s') (get_key s' h) n k →
            ∀ m, m ∈ inorder (remove n (ts s')) →
                 ¬ has_key (Comparator s') (get_key s' h'') m k) as Habs.
  { intros s' k Hk m Hm Hkm. destruct (Hrest s' m Hm) as (Hmt & Hne & Heq).
    apply Hne. apply (has_key_unique s' h this ts m n k Hinv Hmt (Hn' s'));
      [|done].
    apply (has_key_agree s' h'' h); [done|done]. }
  split_and!.
  - apply (find_inv_absent _ _ _ _ Hsw left_tag h'' this _ l Hinv').
    apply (Habs left_tag). apply (has_key_self _ _ _ _ Hsw left_tag h n _ Hnd).
  - apply (find_inv_absent _ _ _ _ Hsw right_tag h'' this _ r Hinv').
    apply (Habs right_tag). apply (has_key_self _ _ _ _ Hsw right_tag h n _ Hnd).
  - apply (at_inv_absent left_tag h'' this _ l Hinv').
    apply (Habs left_tag). apply (has_key_self _ _ _ _ Hsw left_tag h n _ Hnd).
  - apply (at_inv_absent right_tag h'' this _ r Hinv').
    apply (Habs right_tag). apply (has_key_self _ _ _ _ Hsw right_tag h n _ Hnd).
  - intros s' k v Hat Hnk.
    destruct (at_inv_returned s' h this ts k v Hinv Hat)
      as (m & md & Hm & Hk & Hmd & ->).
    assert (m ≠ n) as Hne by (intros ->; done).
    assert (nodes h'' !! m = nodes h !! m) as Heq
      by (rewrite Hnodes; by apply lookup_delete_ne).
    apply (at_inv_found s' h'' this _ k m md Hinv').
    + pose proof (Hn' s') as (pre' & post' & Hs')%list_elem_of_split.
      pose proof (inv_tree _ _ _ _ _ _ _ Hinv s') as (_ & _ & Hnodup & _).
      rewrite (inorder_remove _ _ pre' post' Hnodup Hs').
      rewrite Hs' in Hm. set_solver.
    + by apply (has_key_agree s' h h'').
    + by rewrite Heq.
Qed.

(** X6: on a map that satisfies the invariant, [erase_left(key)] (resp.
    [erase_right(key)]) erases the entry that has the key and leaves
    the other entries in place, or changes nothing when no entry has the
    key; afterwards the key is not in use.  Its result is [true] on erasing an entry that another entry
    follows or that was the only one, [false] on erasing the last entry
    in order of several, and for a key not in use it tells whether the
    map is empty. *)
Theorem erase_key_effect s h this (k : key_t s) :
  wf h this →
  (∀ pre n post,
     traverse s h this = Some (pre ++ n :: post) →
     has_key (Comparator s) (get_key s h) n k →
     ∃ h', erase_key s h this k
           = Some (h', if bool_decide (pre ++ post = []) then true
                       else bool_decide (post ≠ []))
           ∧ wf h' this
           ∧ traverse s h' this = Some (pre ++ post)
           ∧ (∀ s' ns, traverse s' h this = Some ns →
                       traverse s' h' this = Some (filter (λ m, m ≠ n) ns))
           ∧ nodes h' = delete n (nodes h)
           ∧ ¬ key_in_use s h' this k)
  ∧ (¬ key_in_use s h this k →
     ∃ ns, traverse s h this = Some ns
           ∧ erase_key s h this k = Some (h, bool_decide (ns = []))).
Proof.
  intros [ts Hinv]. destruct (erase_key_inv _ _ _ _ Hsw s h this ts k Hinv)
    as [Hfound Habsent].
  split.
  - intros pre n post. rewrite (traverse_inv _ _ _ _ Hsw s h this ts Hinv).
    intros [= Hs] Hk.
    destruct (Hfound pre n post Hs Hk) as (h' & Her & Herk).
    destruct (erase_inv _ _ _ _ Hsw s h this ts pre n post Hinv Hs)
      as (h'' & Her' & Hinv' & Hrem & Hnodes & _).
    rewrite Her' in Her. injection Her as <-.
    assert (n ∈ inorder (ts s)) as Hn by (rewrite Hs; set_solver).
    exists h''. split_and!; [done|by eexists| | |done|].
    + rewrite (traverse_inv _ _ _ _ Hsw s h'' this _ Hinv'). by rewrite Hrem.
    + intros s' ns. rewrite (traverse_inv _ _ _ _ Hsw s' h this ts Hinv).
      intros [= <-]. rewrite (traverse_inv _ _ _ _ Hsw s' h'' this _ Hinv').
      f_equal.
      assert (n ∈ inorder (ts s')) as (pre' & post' & Hs')%list_elem_of_split
        by (by eapply inv_elem_of_sides).
      pose proof (inv_tree _ _ _ _ _ _ _ Hinv s') as (_ & _ & Hnd & _).
      rewrite (inorder_remove _ _ pre' post' Hnd Hs'). rewrite Hs' in Hnd |- *.
      by rewrite (filter_remove_mid _ _ _ _ Hsw).
    + rewrite (key_in_use_inv _ _ _ _ Hsw s h'' this _ k Hinv').
      intros (m & Hm & Hkm). cbn beta in Hm. rewrite Hrem in Hm.
      pose proof (inv_tree _ _ _ _ _ _ _ Hinv s) as (_ & _ & Hnd & _).
      rewrite Hs in Hnd. apply NoDup_remove_mid in Hnd as [_ Hnin].
      assert (m ≠ n) as Hne by (intros ->; done).
      apply Hne.
      apply (has_key_unique s h this ts m n k Hinv); [rewrite Hs; set_solver|done| |done].
      apply (has_key_agree s h'' h); [|done].
      rewrite Hnodes. by rewrite lookup_delete_ne.
  - rewrite (key_in_use_inv _ _ _ _ Hsw s h this ts k Hinv). intros Habs.
    exists (inorder (ts s)). split; [by apply (traverse_inv _ _ CompareLeft CompareRight Hsw)|].
    apply Habsent. intros n Hn Hk. apply Habs. by exists n.
Qed.

(** X8: on a map that satisfies the invariant,
    [at_left_or_default(k)] (resp. [at_right_or_default(k)]) of a key
    in use returns the other value of its entry and changes nothing. *)
Theorem at_or_default_present s h this (k : key_t s) n nd :
  wf h this → resident s h this n →
  has_key (Comparator s) (get_key s h) n k → nodes h !! n = Some nd →
  at_or_default s h this k = Some (h, bimap.key _ _ (Other s) nd).
Proof.
  intros [ts Hinv] Hn%(resident_inv _ _ _ _ Hsw s h this ts n Hinv) Hk Hnd.
  pose proof (inv_not_this _ _ _ _ s h this ts n Hinv Hn) as Hne.
  unfold bimap.at_or_default.
  rewrite (find_inv_found _ _ _ _ Hsw s h this ts n k Hinv Hn Hk).
  cbn [mbind option_bind]. unfold bimap.end_, intr_tree.end_.
  rewrite iter_eqb_iter, bool_decide_eq_false_2 by done. cbn [negb].
  rewrite (flip_iter _ _ s h this n nd Hne Hnd). cbn [mbind option_bind].
  by rewrite (deref_iter _ _ (Other s) h this n nd Hnd).
Qed.

(** X9: when neither the key [k] nor the default value of the other side
    is in use, [at_left_or_default(k)] (resp. [at_right_or_default(k)])
    inserts the entry of [k] and the default, and returns the default. *)
Theorem at_or_default_inserts s h this (k : key_t s) :
  wf h this →
  ¬ key_in_use s h this k →
  ¬ key_in_use (Other s) h this (default_key (Other s)) →
  (∀ sz, size h this = Some sz → sz + 1 < bimap.size_max) →
  ∃ h' n nd,
    at_or_default s h this k = Some (h', default_key (Other s))
    ∧ wf h' this
    ∧ nodes h !! n = None
    ∧ nodes h' = <[n := nd]> (nodes h)
    ∧ bimap.key _ _ s nd = k
    ∧ bimap.key _ _ (Other s) nd = default_key (Other s)
    ∧ (∀ s' ns, traverse s' h this = Some ns →
                ∃ ns', traverse s' h' this = Some ns' ∧ ns' ≡ₚ n :: ns).
Proof.
  intros [ts Hinv]. rewrite !(key_in_use_inv _ _ _ _ Hsw _ h this ts _ Hinv).
  intros Hk Hd Hbound.
  assert (∀ m, m ∈ inorder (ts s) →
               ¬ has_key (Comparator s) (get_key s h) m k) as Habs
    by (intros m Hm Hmk; apply Hk; by exists m).
  assert (∀ m, m ∈ inorder (ts (Other s)) →
               ¬ has_key (Comparator (Other s)) (get_key (Other s) h) m
                   (default_key (Other s))) as Habsd
    by (intros m Hm Hmk; apply Hd; by exists m).
  destruct (inv_unused _ _ _ _ _ _ _ Hinv _ (le_n _)) as (_ & _ & Hfresh).
  unfold bimap.at_or_default.
  rewrite (find_inv_absent _ _ _ _ Hsw s h this ts k Hinv Habs).
  cbn [mbind option_bind]. unfold bimap.iter_eqb at 1.
  rewrite bool_decide_eq_true_2 by done. cbn [negb].
  rewrite (find_inv_absent _ _ _ _ Hsw (Other s) h this ts _ Hinv Habsd).
  cbn [mbind option_bind]. unfold bimap.iter_eqb at 1.
  rewrite bool_decide_eq_true_2 by done. cbn [negb].
  assert (∀ l r,
    (∀ s' m, m ∈ inorder (ts s') →
             ¬ has_key (Comparator s') (get_key s' h) m
                 (pair_key _ _ l r s')) →
    ∃ h' ts',
      bimap.insert_no_check _ _ CompareLeft CompareRight h this l r
      = Some (h', iter this (bimap.brk _ _ h))
      ∧ inv h' this ts'
      ∧ (∀ s', inorder (ts' s') ≡ₚ bimap.brk _ _ h :: inorder (ts s'))
      ∧ nodes h'
        = <[bimap.brk _ _ h := bimap.mk_node _ _ (l, r)]> (nodes h)) as Hins.
  { intros l r Hlr.
    destruct (insert_no_check_inv _ _ _ _ Hsw h this ts l r Hinv Hlr)
      as (h' & ts' & ? & ? & ? & ? & _); [apply Hbound, Hinv|].
    by exists h', ts'. }
  assert (∀ h' ts',
    inv h' this ts' →
    (∀ s', inorder (ts' s') ≡ₚ bimap.brk _ _ h :: inorder (ts s')) →
    ∀ s' ns, traverse s' h this = Some ns →
             ∃ ns', traverse s' h' this = Some ns'
                    ∧ ns' ≡ₚ bimap.brk _ _ h :: ns) as Htrav.
  { intros h' ts' Hinv' Hperm s' ns.
    rewrite (traverse_inv _ _ _ _ Hsw s' h this ts Hinv). intros [= <-].
    exists (inorder (ts' s')). split; [|done].
    by apply (traverse_inv _ _ CompareLeft CompareRight Hsw). }
  destruct s; cbn [Other] in *.
  - destruct (Hins k (default_key right_tag))
      as (h' & ts' & Hinsert & Hinv' & Hperm & Hnodes); [by intros [|]|].
    rewrite Hinsert. cbn [mbind option_bind].
    assert (nodes h' !! bimap.brk _ _ h
            = Some (bimap.mk_node _ _ (k, default_key right_tag))) as He
      by (rewrite Hnodes; apply lookup_insert_eq).
    assert (bimap.brk _ _ h ∈ inorder (ts' left_tag)) as Hin
      by (rewrite Hperm; set_solver).
    rewrite (flip_iter _ _ left_tag h' this _ _
               (inv_not_this _ _ _ _ left_tag h' this ts' _ Hinv' Hin) He).
    cbn [mbind option_bind].
    rewrite (deref_iter _ _ right_tag h' this _ _ He). cbn [mbind option_bind].
    eexists h', _, _. split_and!; [done|by eexists|done|done|done|done|].
    by apply (Htrav h' ts').
  - destruct (Hins (default_key left_tag) k)
      as (h' & ts' & Hinsert & Hinv' & Hperm & Hnodes); [by intros [|]|].
    rewrite Hinsert. cbn [mbind option_bind].
    assert (nodes h' !! bimap.brk _ _ h
            = Some (bimap.mk_node _ _ (default_key left_tag, k))) as He
      by (rewrite Hnodes; apply lookup_insert_eq).
    rewrite (deref_iter _ _ left_tag h' this _ _ He). cbn [mbind option_bind].
    eexists h', _, _. split_and!; [done|by eexists|done|done|done|done|].
    by apply (Htrav h' ts').
Qed.

(** X10: on a map that satisfies the invariant, when the key [k] is not
    in use and the default value of the other side is in use by an
    entry, [at_left_or_default(k)] (resp.
    [at_right_or_default(k)]) overwrites the key of that entry on the
    queried side in place and returns its other value; no tree is
    re-linked, so both traversals meet the entries in the order they had
    and no entry is added. *)
Theorem at_or_default_overwrites s h this (k : key_t s) n nd :
  wf h this →
  ¬ key_in_use s h this k →
  resident (Other s) h this n →
  has_key (Comparator (Other s)) (get_key (Other s) h) n
    (default_key (Other s)) →
  nodes h !! n = Some nd →
  ∃ h',
    at_or_default s h this k = Some (h', bimap.key _ _ (Other s) nd)
    ∧ nodes h' = <[n := bimap.set_key _ _ s k nd]> (nodes h)
    ∧ get_key s h' n = Some k
    ∧ get_key (Other s) h' n = get_key (Other s) h n
    ∧ size h' this = size h this
    ∧ ∀ s', traverse s' h' this = traverse s' h this.
Proof.
  intros [ts Hinv]. rewrite (key_in_use_inv _ _ _ _ Hsw s h this ts k Hinv).
  intros Hk Hn%(resident_inv _ _ _ _ Hsw _ h this ts n Hinv) Hd Hnd.
  destruct (at_or_default_repair _ _ _ _ default_key Hsw s h this ts k n nd
              Hinv) as [Hat Htr]; [|done|done|done|].
  { intros m Hm Hmk. apply Hk. by exists m. }
  eexists. split_and!; [exact Hat|done| | |done|exact Htr].
  - unfold bimap.get_key. cbn. rewrite lookup_insert_eq. cbn.
    by destruct s, nd.
  - unfold bimap.get_key. cbn. rewrite lookup_insert_eq, Hnd. cbn.
    by destruct s, nd.
Qed.

End coverage.

(** ** [lower_bound] and [upper_bound] *)

Section bound_facts.

Context {Key : Type}.
Variable Comparator : Key → Key → bool.
Variable get_key : nat → option Key.
Hypothesis Hsw : strict_weak Comparator.

Implicit Types (st : gmap nat E.t) (t l r : tree) (x y p : nat).

Local Abbreviation lt_node := (lt_node Comparator get_key).
Local Abbreviation keyed := (keyed get_key).
Local Abbreviation bst := (bst Comparator get_key).
Local Abbreviation lower_bound_loop :=
  (intr_tree.lower_bound_loop Comparator get_key).
Local Abbreviation upper_bound_loop :=
  (intr_tree.upper_bound_loop Comparator get_key).

Lemma lower_bound_loop_S f st res cur k :
  lower_bound_loop (S f) st res cur k =
    match cur with
    | None => Some (Some res)
    | Some c =>
        kc ← get_key c;
        e ← st !! c;
        if intr_tree.cmp_key Comparator kc k then
          lower_bound_loop f st res (E.right e) k
        else lower_bound_loop f st c (E.left e) k
    end.
Proof. done. Qed.

Lemma upper_bound_loop_S f st res cur k :
  upper_bound_loop (S f) st res cur k =
    match cur with
    | None => Some (Some res)
    | Some c =>
        kc ← get_key c;
        e ← st !! c;
        if intr_tree.cmp_key Comparator k kc then
          upper_bound_loop f st c (E.left e) k
        else upper_bound_loop f st res (E.right e) k
    end.
Proof. done. Qed.

(** The loop of [lower_bound] splits the entries of the subtree at the
    first one whose key is not less than [k]. *)
Lemma lower_bound_loop_split t :
  ∀ st p res f k,
  rep st p t → keyed t → bst t → (height t < f)%nat →
  ∃ pre post,
    inorder t = pre ++ post
    ∧ Forall (λ n, ∃ kn, get_key n = Some kn ∧ Comparator kn k = true) pre
    ∧ Forall (λ n, ∃ kn, get_key n = Some kn ∧ Comparator kn k = false) post
    ∧ lower_bound_loop f st res (root_of t) k = Some (Some (hd res post)).
Proof.
  induction t as [|l IHl x r IHr]; intros st p res f k Hrep Hk Hb Hf.
  { exists [], []. destruct f as [|f]; [simpl in Hf; lia|].
    split_and!; [done|constructor|constructor|done]. }
  rewrite height_Node in Hf. destruct f as [|f]; [lia|].
  destruct Hrep as (Hx & Hl & Hr). destruct Hb as (Hbl & Hbr & Hlx & Hxr).
  apply (keyed_Node Comparator _ Hsw) in Hk as (Hkl & [kx Hkx] & Hkr).
  cbn [root_of]. rewrite lower_bound_loop_S, Hkx. cbn [mbind option_bind].
  rewrite Hx. cbn [mbind option_bind E.left E.right].
  unfold intr_tree.cmp_key. destruct (Comparator kx k) eqn:Hc.
  - destruct (IHr st x res f k Hr Hkr Hbr ltac:(lia))
      as (pre & post & Hsplit & Hpre & Hpost & Hres).
    exists (inorder l ++ x :: pre), post. split_and!; [| |done|done].
    + cbn [inorder]. rewrite Hsplit. by rewrite <- app_assoc.
    + apply Forall_app. split; [|constructor; [by exists kx|done]].
      apply Forall_forall. intros y Hy.
      destruct (lt_node_inv _ _ _ _ (Hlx y Hy)) as (ky & ? & Hky & ? & Hlt).
      simplify_eq. exists ky. split; [done|].
      by apply (sw_trans _ Hsw ky kx k).
  - destruct (IHl st x x f k Hl Hkl Hbl ltac:(lia))
      as (pre & post & Hsplit & Hpre & Hpost & Hres).
    exists pre, (post ++ x :: inorder r). split_and!; [|done| |].
    + cbn [inorder]. rewrite Hsplit. by rewrite <- app_assoc.
    + apply Forall_app. split; [done|]. constructor; [by exists kx|].
      apply Forall_forall. intros y Hy.
      destruct (lt_node_inv _ _ _ _ (Hxr y Hy)) as (? & ky & ? & Hky & Hlt).
      simplify_eq. exists ky. split; [done|].
      destruct (Comparator ky k) eqn:Hyk; [|done].
      by rewrite (sw_trans _ Hsw kx ky k Hlt Hyk) in Hc.
    + rewrite Hres. by destruct post.
Qed.

(** The loop of [upper_bound] splits the entries of the subtree at the
    first one whose key is greater than [k]. *)
Lemma upper_bound_loop_split t :
  ∀ st p res f k,
  rep st p t → keyed t → bst t → (height t < f)%nat →
  ∃ pre post,
    inorder t = pre ++ post
    ∧ Forall (λ n, ∃ kn, get_key n = Some kn ∧ Comparator k kn = false) pre
    ∧ Forall (λ n, ∃ kn, get_key n = Some kn ∧ Comparator k kn = true) post
    ∧ upper_bound_loop f st res (root_of t) k = Some (Some (hd res post)).
Proof.
  induction t as [|l IHl x r IHr]; intros st p res f k Hrep Hk Hb Hf.
  { exists [], []. destruct f as [|f]; [simpl in Hf; lia|].
    split_and!; [done|constructor|constructor|done]. }
  rewrite height_Node in Hf. destruct f as [|f]; [lia|].
  destruct Hrep as (Hx & Hl & Hr). destruct Hb as (Hbl & Hbr & Hlx & Hxr).
  apply (keyed_Node Comparator _ Hsw) in Hk as (Hkl & [kx Hkx] & Hkr).
  cbn [root_of]. rewrite upper_bound_loop_S, Hkx. cbn [mbind option_bind].
  rewrite Hx. cbn [mbind option_bind E.left E.right].
  unfold intr_tree.cmp_key. destruct (Comparator k kx) eqn:Hc.
  - destruct (IHl st x x f k Hl Hkl Hbl ltac:(lia))
      as (pre & post & Hsplit & Hpre & Hpost & Hres).
    exists pre, (post ++ x :: inorder r). split_and!; [|done| |].
    + cbn [inorder]. rewrite Hsplit. by rewrite <- app_assoc.
    + apply Forall_app. split; [done|]. constructor; [by exists kx|].
      apply Forall_forall. intros y Hy.
      destruct (lt_node_inv _ _ _ _ (Hxr y Hy)) as (? & ky & ? & Hky & Hlt).
      simplify_eq. exists ky. split; [done|].
      by apply (sw_trans _ Hsw k kx ky).
    + rewrite Hres. by destruct post.
  - destruct (IHr st x res f k Hr Hkr Hbr ltac:(lia))
      as (pre & post & Hsplit & Hpre & Hpost & Hres).
    exists (inorder l ++ x :: pre), post. split_and!; [| |done|done].
    + cbn [inorder]. rewrite Hsplit. by rewrite <- app_assoc.
    + apply Forall_app. split; [|constructor; [by exists kx|done]].
      apply Forall_forall. intros y Hy.
      destruct (lt_node_inv _ _ _ _ (Hlx y Hy)) as (ky & ? & Hky & ? & Hlt).
      simplify_eq. exists ky. split; [done|].
      destruct (Comparator k ky) eqn:Hyk; [|done].
      by rewrite (sw_trans _ Hsw k ky kx Hyk Hlt) in Hc.
Qed.

End bound_facts.

Section bounds.

Import invariant.

Variables left_t right_t : Type.
Variable CompareLeft : left_t → left_t → bool.
Variable CompareRight : right_t → right_t → bool.

Local Abbreviation heap := (bimap.heap left_t right_t).
Local Abbreviation key_t := (bimap.key_t left_t right_t).
Local Abbreviation Comparator :=
  (bimap.Comparator left_t right_t CompareLeft CompareRight).
Local Abbreviation get_key := (bimap.get_key left_t right_t).
Local Abbreviation traverse := (bimap.traverse left_t right_t).
Local Abbreviation inv := (inv left_t right_t CompareLeft CompareRight).
Local Abbreviation wf := (wf left_t right_t CompareLeft CompareRight).
Local Abbreviation iter := (λ this n, bimap.mk_iterator (Some n) this).

Hypothesis Hsw : ∀ s, strict_weak (Comparator s).

(** X12: on a map that satisfies the invariant, [lower_bound_left(k)]
    (resp. [lower_bound_right(k)]) is the iterator at the first entry in
    order whose key is not less than [k], and [end] when there is none:
    the entries before it have keys less than [k]. *)
Theorem lower_bound_spec s h this (k : key_t s) :
  wf h this →
  ∃ pre post,
    traverse s h this = Some (pre ++ post)
    ∧ Forall (λ n, ∃ kn, get_key s h n = Some kn
                         ∧ Comparator s kn k = true) pre
    ∧ Forall (λ n, ∃ kn, get_key s h n = Some kn
                         ∧ Comparator s kn k = false) post
    ∧ bimap.lower_bound _ _ CompareLeft CompareRight s h this k
      = Some (iter this (hd this post)).
Proof.
  intros [ts Hinv]. unfold bimap.lower_bound, intr_tree.lower_bound.
  pose proof (inv_tree _ _ _ _ _ _ _ Hinv s) as Ht.
  pose proof (tree_at_fuel _ _ _ Ht) as Hf.
  destruct Ht as (Hroot & Hrep & _). rewrite Hroot.
  cbn [mbind option_bind E.left].
  destruct (lower_bound_loop_split _ (get_key s h) (Hsw s) (ts s) _ this this
              (E.fuel_of (bimap.elements _ _ s h)) k Hrep)
    as (pre & post & Hsplit & Hpre & Hpost & Hres);
    [by eapply keyed_inv|apply Hinv|unfold E.fuel_of; lia|].
  exists pre, post. split_and!; [|done|done|].
  - rewrite <- Hsplit. by apply (traverse_inv _ _ CompareLeft CompareRight Hsw).
  - by rewrite Hres.
Qed.

(** X13: on a map that satisfies the invariant, [upper_bound_left(k)]
    (resp. [upper_bound_right(k)]) is the iterator at the first entry in
    order whose key is greater than [k], and [end] when there is none:
    [k] is less than the key of no entry before it. *)
Theorem upper_bound_spec s h this (k : key_t s) :
  wf h this →
  ∃ pre post,
    traverse s h this = Some (pre ++ post)
    ∧ Forall (λ n, ∃ kn, get_key s h n = Some kn
                         ∧ Comparator s k kn = false) pre
    ∧ Forall (λ n, ∃ kn, get_key s h n = Some kn
                         ∧ Comparator s k kn = true) post
    ∧ bimap.upper_bound _ _ CompareLeft CompareRight s h this k
      = Some (iter this (hd this post)).
Proof.
  intros [ts Hinv]. unfold bimap.upper_bound, intr_tree.upper_bound.
  pose proof (inv_tree _ _ _ _ _ _ _ Hinv s) as Ht.
  pose proof (tree_at_fuel _ _ _ Ht) as Hf.
  destruct Ht as (Hroot & Hrep & _). rewrite Hroot.
  cbn [mbind option_bind E.left].
  destruct (upper_bound_loop_split _ (get_key s h) (Hsw s) (ts s) _ this this
              (E.fuel_of (bimap.elements _ _ s h)) k Hrep)
    as (pre & post & Hsplit & Hpre & Hpost & Hres);
    [by eapply keyed_inv|apply Hinv|unfold E.fuel_of; lia|].
  exists pre, post. split_and!; [|done|done|].
  - rewrite <- Hsplit. by apply (traverse_inv _ _ CompareLeft CompareRight Hsw).
  - by rewrite Hres.
Qed.

End bounds.

(** ** [prev] and [operator--] *)

Section prev_facts.

Implicit Types (st : gmap nat E.t) (t l r : tree) (x y p : nat).

Lemma max_in_subtree_rep st p l x r f :
  rep st p (Node l x r) → (height r < f)%nat →
  E.max_in_subtree f st x = Some (default x (last (inorder r))).
Proof.
  revert p x l f. induction r as [|rl _ y rr IHrr]; intros p x l f.
  - simpl. intros (Hx & _) Hf. destruct f as [|f]; [lia|]. simpl.
    by rewrite Hx.
  - intros (Hx & _ & Hr) Hf. rewrite height_Node in Hf.
    destruct f as [|f]; [lia|].
    cbn [E.max_in_subtree]. rewrite Hx. cbn [mbind option_bind E.right root_of].
    rewrite (IHrr x y rl f); [|done|lia].
    f_equal. cbn [inorder]. rewrite last_app, last_cons.
    by destruct (last (inorder rr)).
Qed.

Lemma prev_up_mono st x f f' res :
  E.prev_up f st x = Some res → (f ≤ f')%nat → E.prev_up f' st x = Some res.
Proof.
  revert x f'. induction f as [|f IH]; intros x f'; [done|].
  destruct f' as [|f']; [lia|]. simpl.
  destruct (E.is_left_child st x) as [b|]; [|done]. simpl.
  destruct (st !! x) as [e|]; [|done]. simpl.
  destruct (E.parent e) as [q|]; [|done]. simpl.
  destruct b; [|done]. intros ? ?. apply IH; [done|lia].
Qed.

Lemma prev_up_step_left st p l x r y f :
  rep st p (Node l x r) → root_of l = Some y →
  E.prev_up (S f) st y = E.prev_up f st x.
Proof.
  intros Hrep Hy. simpl.
  rewrite (is_left_child_left _ _ _ _ _ _ Hrep Hy). simpl.
  destruct l as [|ll z lr]; simplify_eq/=.
  destruct Hrep as (_ & (-> & _) & _). done.
Qed.

Lemma prev_up_step_right st p l x r y :
  rep st p (Node l x r) → NoDup (inorder (Node l x r)) → root_of r = Some y →
  E.prev_up 1 st y = Some x.
Proof.
  intros Hrep Hnd Hy. simpl.
  rewrite (is_left_child_right _ _ _ _ _ _ Hrep Hnd Hy). simpl.
  destruct r as [|rl z rr]; simplify_eq/=.
  destruct Hrep as (_ & _ & (-> & _)). done.
Qed.

(** [prev] on an entry of a linked tree: the preceding entry in order,
    or, from the first entry, the climb continues above the root of the
    tree. *)
Lemma prev_rep t :
  ∀ st p, rep st p t → NoDup (inorder t) →
  ∀ pre x post, inorder t = pre ++ x :: post →
  match last pre with
  | Some y => ∀ f, (height t ≤ f)%nat → E.prev f st x = Some y
  | None =>
      (∃ e, st !! x = Some e ∧ E.left e = None)
      ∧ ∀ f res z, root_of t = Some z → E.prev_up f st z = Some res →
                   E.prev_up (f + height t) st x = Some res
  end.
Proof.
  induction t as [|l IHl n r IHr]; intros st p Hrep Hnd pre x post Hsplit.
  { by destruct pre. }
  pose proof Hrep as (Hn & Hl & Hr).
  pose proof Hnd as (Hndl & Hdisj & [Hnr Hndr]%NoDup_cons)%NoDup_app.
  simpl in Hsplit.
  apply split_around in Hsplit
    as [(post1 & Hl1 & ->)|[(-> & -> & ->)|(pre2 & Hr2 & ->)]].
  - (* in the left subtree *)
    specialize (IHl st n Hl Hndl pre x post1 Hl1).
    destruct (last pre) as [y|].
    + intros f Hf. apply IHl. rewrite height_Node in Hf. lia.
    + destruct IHl as (He & Hup). split; [done|].
      intros f res z [= <-] Hres.
      destruct (root_of l) as [z|] eqn:Hz.
      2:{ apply root_of_None in Hz. subst l. by destruct pre. }
      eapply prev_up_mono.
      * eapply (Hup (S f)); [done|].
        by erewrite prev_up_step_left.
      * rewrite height_Node. lia.
  - (* the root *)
    destruct l as [|ll y lr].
    + simpl. split; [by eexists|].
      intros f res z [= <-] Hup. eapply prev_up_mono; [done|lia].
    + cbn [inorder]. rewrite last_app, last_cons.
      assert (∃ w, match last (inorder lr) with Some z => Some z
                   | None => Some y end = Some w
                   ∧ w = default y (last (inorder lr))) as (w & -> & ->).
      { destruct (last (inorder lr)); simpl; eauto. }
      intros f Hf. unfold E.prev. rewrite Hn. cbn [mbind option_bind E.left root_of].
      eapply max_in_subtree_rep; [done|]. rewrite !height_Node in Hf. lia.
  - (* in the right subtree *)
    specialize (IHr st n Hr Hndr pre2 x post Hr2).
    rewrite last_app, last_cons.
    destruct (last pre2) as [y|].
    + intros f Hf. apply IHr. rewrite height_Node in Hf. lia.
    + destruct IHr as ((e & He & Hle) & Hup). intros f Hf.
      unfold E.prev. rewrite He. cbn [mbind option_bind]. rewrite Hle.
      destruct (root_of r) as [z|] eqn:Hz.
      2:{ apply root_of_None in Hz. subst r. by destruct pre2. }
      eapply prev_up_mono.
      * eapply (Hup 1%nat); [done|]. by eapply prev_up_step_right.
      * rewrite height_Node in Hf. lia.
Qed.

(** From the first entry of a subtree the climb of [prev] passes through
    the root of the subtree. *)
Lemma prev_up_first t :
  ∀ st p x post f res,
  rep st p t → inorder t = x :: post →
  E.prev_up f st x = Some res →
  ∃ z f', root_of t = Some z ∧ E.prev_up f' st z = Some res.
Proof.
  induction t as [|l IHl n r _]; intros st p x post f res Hrep Hs Hres;
    [done|].
  destruct l as [|ll y lr].
  - simpl in Hs. injection Hs as <- _. by exists n, f.
  - pose proof Hrep as (Hn & Hl & _).
    assert (∃ post', inorder (Node ll y lr) = x :: post') as [post' Hs'].
    { cbn [inorder] in Hs |- *. destruct (inorder ll); simplify_eq/=; eauto. }
    destruct (IHl st n x post' f res Hl Hs' Hres) as (z & f' & [= <-] & Hup).
    destruct f' as [|f']; [done|].
    rewrite (prev_up_step_left st p (Node ll y lr) n r y f') in Hup;
      [|done|done].
    by exists n, f'.
Qed.

Lemma prev_up_sentinel st root t f :
  tree_at st root t → E.prev_up f st root = None.
Proof.
  intros (Hroot & _). destruct f as [|f]; [done|]. simpl.
  unfold E.is_left_child. by rewrite Hroot.
Qed.

Lemma is_left_child_top st root t z :
  tree_at st root t → root_of t = Some z →
  E.is_left_child st z = Some true ∧ ∃ e, st !! z = Some e
                                          ∧ E.parent e = Some root.
Proof.
  intros (Hroot & Hrep & _) Hz. destruct t as [|l x r]; simplify_eq/=.
  destruct Hrep as (Hx & _). unfold E.is_left_child.
  rewrite Hx. simpl. rewrite Hroot. simpl.
  rewrite bool_decide_eq_true_2 by done. eauto.
Qed.

Lemma prev_tree_at st root t pre y x post f :
  tree_at st root t → inorder t = pre ++ y :: x :: post →
  (height t < f)%nat → E.prev f st x = Some y.
Proof.
  intros (Hroot & Hrep & Hnd & Hnin) Hs Hf.
  pose proof (prev_rep t st root Hrep Hnd (pre ++ [y]) x post) as H.
  rewrite last_snoc in H. apply H; [|lia].
  by rewrite <- app_assoc.
Qed.

Lemma prev_end st root t pre y f :
  tree_at st root t → inorder t = pre ++ [y] →
  (height t < f)%nat → E.prev f st root = Some y.
Proof.
  intros (Hroot & Hrep & Hnd & Hnin) Hs Hf.
  unfold E.prev. rewrite Hroot. cbn [mbind option_bind E.left].
  destruct t as [|l z r]; [by destruct pre|]. cbn [root_of].
  rewrite (max_in_subtree_rep st root l z r f Hrep);
    [|rewrite height_Node in Hf; lia].
  f_equal. cbn [inorder] in Hs.
  assert (last (inorder l ++ z :: inorder r) = Some y) as Hlast
    by (by rewrite Hs, last_snoc).
  rewrite last_app, last_cons in Hlast.
  destruct (last (inorder r)); by simplify_eq/=.
Qed.

Lemma prev_begin st root t f :
  tree_at st root t → E.prev f st (hd root (inorder t)) = None.
Proof.
  intros Ht. pose proof Ht as (Hroot & Hrep & Hnd & Hnin).
  destruct (inorder t) as [|x post] eqn:Hs; cbn [hd].
  { unfold E.prev. rewrite Hroot. cbn [mbind option_bind E.left].
    assert (root_of t = None) as ->.
    { destruct t as [|l z r]; [done|].
      cbn [inorder] in Hs. by destruct (inorder l). }
    by apply (prev_up_sentinel st root t). }
  rewrite <- Hs in Hnd.
  pose proof (prev_rep t st root Hrep Hnd [] x post Hs) as [(e & He & Hl) _].
  unfold E.prev. rewrite He. cbn [mbind option_bind]. rewrite Hl.
  destruct (E.prev_up f st x) as [res|] eqn:Hres; [|done].
  destruct (prev_up_first t st root x post f res Hrep Hs Hres)
    as (z & f' & Hz & Hup).
  destruct f' as [|f']; [done|]. simpl in Hup.
  destruct (is_left_child_top st root t z Ht Hz) as (Hlc & e' & He' & Hp).
  rewrite Hlc, He' in Hup. simpl in Hup. rewrite Hp in Hup. simpl in Hup.
  by rewrite (prev_up_sentinel st root t f' Ht) in Hup.
Qed.

End prev_facts.

Section decrement.

Import invariant.

Variables left_t right_t : Type.
Variable CompareLeft : left_t → left_t → bool.
Variable CompareRight : right_t → right_t → bool.

Local Abbreviation heap := (bimap.heap left_t right_t).
Local Abbreviation key_t := (bimap.key_t left_t right_t).
Local Abbreviation Comparator :=
  (bimap.Comparator left_t right_t CompareLeft CompareRight).
Local Abbreviation traverse := (bimap.traverse left_t right_t).
Local Abbreviation inv := (inv left_t right_t CompareLeft CompareRight).
Local Abbreviation wf := (wf left_t right_t CompareLeft CompareRight).
Local Abbreviation iter := (λ this n, bimap.mk_iterator (Some n) this).
Local Abbreviation incr := (bimap.incr left_t right_t).
Local Abbreviation decr := (bimap.decr left_t right_t).

Hypothesis Hsw : ∀ s, strict_weak (Comparator s).

Lemma decr_inv s h this ts pre y post :
  inv h this ts → inorder (ts s) = pre ++ y :: post →
  decr s h (iter this (hd this post)) = Some (iter this y).
Proof.
  intros Hinv Hs. unfold bimap.decr, intr_tree.decr.
  cbn [bimap.it bimap.map_p mbind option_bind].
  pose proof (inv_tree _ _ _ _ _ _ _ Hinv s) as Ht.
  pose proof (tree_at_fuel _ _ _ Ht) as Hf.
  destruct post as [|x post]; cbn [hd].
  - rewrite (prev_end _ this (ts s) pre y); [done|done|done|].
    unfold E.fuel_of. lia.
  - rewrite (prev_tree_at _ this (ts s) pre y x post); [done|done|done|].
    unfold E.fuel_of. lia.
Qed.



End decrement.

(** ** [erase] of a range and [clear] *)

Section range.

Import invariant.

Variables left_t right_t : Type.
Variable CompareLeft : left_t → left_t → bool.
Variable CompareRight : right_t → right_t → bool.

Local Abbreviation heap := (bimap.heap left_t right_t).
Local Abbreviation key_t := (bimap.key_t left_t right_t).
Local Abbreviation Comparator :=
  (bimap.Comparator left_t right_t CompareLeft CompareRight).
Local Abbreviation get_key := (bimap.get_key left_t right_t).
Local Abbreviation elements := (bimap.elements left_t right_t).
Local Abbreviation traverse := (bimap.traverse left_t right_t).
Local Abbreviation nodes := (bimap.nodes left_t right_t).
Local Abbreviation size := (bimap.size left_t right_t).
Local Abbreviation inv := (inv left_t right_t CompareLeft CompareRight).
Local Abbreviation wf := (wf left_t right_t CompareLeft CompareRight).
Local Abbreviation same_at := (same_at left_t right_t).
Local Abbreviation iter := (λ this n, bimap.mk_iterator (Some n) this).

Hypothesis Hsw : ∀ s, strict_weak (Comparator s).

Implicit Types (h : heap) (ts : side → tree) (s : side).

Lemma erase_range_inv s h this ts pre mid post :
  inv h this ts → inorder (ts s) = pre ++ mid ++ post →
  ∃ h' ts',
    bimap.erase_range _ _ s h this
      (iter this (hd this (mid ++ post))) (iter this (hd this post))
    = Some (h', iter this (hd this post))
    ∧ inv h' this ts'
    ∧ inorder (ts' s) = pre ++ post
    ∧ (∀ s', inorder (ts' s') = filter (λ m, m ∉ mid) (inorder (ts s')))
    ∧ (∀ m, nodes h' !! m = if decide (m ∈ mid) then None else nodes h !! m)
    ∧ (∀ z, z ≠ this → z ∉ inorder (ts left_tag) → same_at h h' z)
    ∧ bimap.brk _ _ h' = bimap.brk _ _ h.
Proof.
  intros Hinv Hs. unfold bimap.erase_range.
  apply (erase_range_loop_inv _ _ _ _ Hsw s this mid h ts pre post);
    [done|done|].
  pose proof (fuel_inv _ _ CompareLeft CompareRight s h this ts Hinv) as Hf.
  rewrite Hs, !length_app in Hf. lia.
Qed.

Lemma clear_inv h this ts :
  inv h this ts →
  ∃ h' ts',
    bimap.clear _ _ h this = Some h'
    ∧ inv h' this ts'
    ∧ (∀ s, ts' s = Leaf)
    ∧ (∀ m, nodes h' !! m
            = if decide (m ∈ inorder (ts left_tag)) then None
              else nodes h !! m)
    ∧ (∀ z, z ≠ this → z ∉ inorder (ts left_tag) → same_at h h' z)
    ∧ bimap.brk _ _ h' = bimap.brk _ _ h.
Proof.
  intros Hinv. unfold bimap.clear, bimap.begin_left, bimap.begin.
  rewrite (begin_rep _ this (ts left_tag)) by apply Hinv.
  cbn [mbind option_bind]. unfold bimap.erase_left_range.
  destruct (erase_range_inv left_tag h this ts [] (inorder (ts left_tag)) []
              Hinv) as (h' & ts' & Her & Hinv' & Hs' & Hfil & Hnodes & Hfr & Hb).
  { by rewrite app_nil_r. }
  rewrite app_nil_r in Her. cbn [hd] in Her. unfold bimap.end_left, bimap.end_.
  unfold intr_tree.end_. rewrite Her. cbn [mbind option_bind].
  exists h', ts'. split_and!; [done|done| |done|done|done].
  intros s. assert (inorder (ts' s) = []) as Hnil.
  { apply Permutation_nil_r.
    destruct s; [by rewrite Hs'|].
    rewrite <- (inv_same _ _ _ _ _ _ _ Hinv'). by rewrite Hs'. }
  destruct (ts' s) as [|l x r]; [done|].
  cbn [inorder] in Hnil. by destruct (inorder l).
Qed.

(** X16: [erase_left(first, last)] (resp. [erase_right(first, last)]) on
    a range of consecutive entries of the map erases these entries and
    no other, releases their nodes, and returns [last]. *)
Theorem erase_range_spec s h this pre mid post :
  wf h this → traverse s h this = Some (pre ++ mid ++ post) →
  ∃ h',
    bimap.erase_range _ _ s h this
      (iter this (hd this (mid ++ post))) (iter this (hd this post))
    = Some (h', iter this (hd this post))
    ∧ wf h' this
    ∧ traverse s h' this = Some (pre ++ post)
    ∧ (∀ s' ns, traverse s' h this = Some ns →
                traverse s' h' this = Some (filter (λ m, m ∉ mid) ns))
    ∧ (∀ m, nodes h' !! m = if decide (m ∈ mid) then None else nodes h !! m)
    ∧ size h' this = Some (Z.of_nat (length (pre ++ post))).
Proof.
  intros [ts Hinv]. rewrite (traverse_inv _ _ _ _ Hsw s h this ts Hinv).
  intros [= Hs].
  destruct (erase_range_inv s h this ts pre mid post Hinv Hs)
    as (h' & ts' & Her & Hinv' & Hs' & Hfil & Hnodes & _).
  exists h'. split_and!; [done|by eexists| | |done|].
  - by rewrite (traverse_inv _ _ _ _ Hsw s h' this ts' Hinv'), Hs'.
  - intros s' ns. rewrite (traverse_inv _ _ _ _ Hsw s' h this ts Hinv).
    intros [= <-].
    by rewrite (traverse_inv _ _ _ _ Hsw s' h' this ts' Hinv'), Hfil.
  - rewrite (wf_size _ _ CompareLeft CompareRight h' this ts' Hinv'). do 2 f_equal.
    rewrite <- Hs'. apply Permutation_length.
    destruct s; [done|]. apply (inv_same _ _ _ _ _ _ _ Hinv').
Qed.

(** X17: on a map that satisfies the invariant, [clear] erases every
    entry: the map is left empty, with size [0] and empty traversals,
    and the nodes of its entries are released. *)
Theorem clear_spec h this :
  wf h this →
  ∃ h',
    bimap.clear _ _ h this = Some h'
    ∧ wf h' this
    ∧ (∀ s, traverse s h' this = Some [])
    ∧ size h' this = Some 0
    ∧ bimap.empty _ _ h' this = Some true
    ∧ (∀ ns, traverse left_tag h this = Some ns →
             ∀ m, nodes h' !! m
                  = if decide (m ∈ ns) then None else nodes h !! m).
Proof.
  intros [ts Hinv].
  destruct (clear_inv h this ts Hinv)
    as (h' & ts' & Hcl & Hinv' & Hleaf & Hnodes & _).
  exists h'. split_and!; [done|by eexists| | | |].
  - intros s. by rewrite (traverse_inv _ _ _ _ Hsw s h' this ts' Hinv'), Hleaf.
  - by rewrite (wf_size _ _ CompareLeft CompareRight h' this ts' Hinv'), Hleaf.
  - rewrite (empty_inv _ _ CompareLeft CompareRight h' this ts' Hinv'). by rewrite Hleaf.
  - intros ns. rewrite (traverse_inv _ _ _ _ Hsw left_tag h this ts Hinv).
    by intros [= <-].
Qed.

End range.

(** ** [operator==] of two maps *)

Section equality.

Import invariant.

Variables left_t right_t : Type.
Variable CompareLeft : left_t → left_t → bool.
Variable CompareRight : right_t → right_t → bool.
Variable eq_left : left_t → left_t → bool.
Variable eq_right : right_t → right_t → bool.

Local Abbreviation heap := (bimap.heap left_t right_t).
Local Abbreviation Comparator :=
  (bimap.Comparator left_t right_t CompareLeft CompareRight).
Local Abbreviation traverse := (bimap.traverse left_t right_t).
Local Abbreviation nodes := (bimap.nodes left_t right_t).
Local Abbreviation inv := (inv left_t right_t CompareLeft CompareRight).
Local Abbreviation wf := (wf left_t right_t CompareLeft CompareRight).
Local Abbreviation pairs := (pairs left_t right_t).
Local Abbreviation eq_loop := (bimap.eq_loop left_t right_t).
Local Abbreviation holds :=
  (λ (h : heap) (n : nat) (p : left_t * right_t),
     nodes h !! n = Some (bimap.mk_node _ _ p)).
Local Abbreviation eq_pair :=
  (λ p q : left_t * right_t, eq_left p.1 q.1 && eq_right p.2 q.2 = true).

Hypothesis Hsw : ∀ s, strict_weak (Comparator s).

Implicit Types (h : heap) (ts : side → tree) (s : side).

Lemma pairs_inv h this ts :
  inv h this ts →
  ∃ ps, pairs h this = Some ps
        ∧ Forall2 (holds h) (inorder (ts left_tag)) ps.
Proof.
  intros Hinv. unfold invariant.pairs.
  rewrite (traverse_inv _ _ _ _ Hsw left_tag h this ts Hinv).
  cbn [mbind option_bind].
  destruct (mapM (λ n, bimap.lr _ _ <$> nodes h !! n)
              (inorder (ts left_tag))) as [ps|] eqn:Hm.
  - exists ps. split; [done|]. apply mapM_Some in Hm.
    eapply Forall2_impl; [done|]. intros n p. cbn beta.
    destruct (nodes h !! n) as [[p']|]; [|done]. by intros [= <-].
  - exfalso. assert (is_Some (mapM (λ n, bimap.lr _ _ <$> nodes h !! n)
                                (inorder (ts left_tag)))) as [? Hs];
      [|by rewrite Hs in Hm].
    apply mapM_is_Some, Forall_forall. intros n Hn.
    unfold compose.
    destruct (inv_nodes _ _ _ _ _ _ _ Hinv left_tag n Hn) as [nd ->].
    by eexists.
Qed.

Lemma eq_loop_inv h a b tsa tsb :
  inv h a tsa → inv h b tsb →
  ∀ resta restb psa psb prea preb f,
  inorder (tsa left_tag) = prea ++ resta →
  inorder (tsb left_tag) = preb ++ restb →
  Forall2 (holds h) resta psa → Forall2 (holds h) restb psb →
  length resta = length restb → (length resta < f)%nat →
  ∃ res : bool,
    eq_loop f eq_left eq_right h a (Some (hd a resta)) (Some (hd b restb))
    = Some res
    ∧ (res = true ↔ Forall2 eq_pair psa psb).
Proof.
  intros Ha Hb resta.
  induction resta as [|x resta IH];
    intros restb psb' psb prea preb f Hsa Hsb Hpa Hpb Hlen Hf.
  - destruct restb; [|done]. destruct f as [|f]; [simpl in Hf; lia|].
    apply Forall2_nil_inv_l in Hpa as ->. apply Forall2_nil_inv_l in Hpb as ->.
    exists true. cbn [hd bimap.eq_loop]. unfold intr_tree.end_.
    rewrite bool_decide_eq_false_2 by naive_solver.
    split; [done|]. split; [constructor|done].
  - destruct restb as [|y restb]; [done|].
    destruct f as [|f]; [simpl in Hf; lia|].
    apply Forall2_cons_inv_l in Hpa as (p & psa & Hx & Hpa & ->).
    apply Forall2_cons_inv_l in Hpb as (q & psb' & Hy & Hpb & ->).
    pose proof (inv_tree _ _ _ _ _ _ _ Ha left_tag) as Hta.
    pose proof (inv_tree _ _ _ _ _ _ _ Hb left_tag) as Htb.
    assert (x ≠ a) as Hxa.
    { intros ->. destruct Hta as (_ & _ & _ & Hnin). apply Hnin.
      rewrite Hsa. set_solver. }
    cbn [hd bimap.eq_loop]. unfold intr_tree.end_.
    rewrite bool_decide_eq_true_2 by naive_solver.
    cbn [mbind option_bind]. cbn beta in Hx, Hy. rewrite Hx, Hy.
    cbn [mbind option_bind]. unfold bimap.node_eqb. cbn [bimap.lr].
    destruct (eq_left p.1 q.1 && eq_right p.2 q.2) eqn:Heq; cbn [negb].
    + unfold intr_tree.incr. cbn [mbind option_bind].
      pose proof (tree_at_fuel _ _ _ Hta) as Hfa.
      pose proof (tree_at_fuel _ _ _ Htb) as Hfb.
      cbn [bimap.elements] in Hta, Htb, Hfa, Hfb.
      rewrite (next_tree_at _ a (tsa left_tag) prea x resta);
        [|done|done|unfold E.fuel_of; lia].
      rewrite (next_tree_at _ b (tsb left_tag) preb y restb);
        [|done|done|unfold E.fuel_of; lia].
      cbn [mbind option_bind].
      destruct (IH restb psa psb' (prea ++ [x]) (preb ++ [y]) f)
        as (res & Hloop & Hres);
        [by rewrite <- app_assoc|by rewrite <- app_assoc|done|done
        |simpl in Hlen; lia|simpl in Hf; lia|].
      exists res. split; [done|]. rewrite Hres. split.
      * intros ?. by constructor.
      * by intros (_ & ?)%Forall2_cons_1.
    + exists false. split; [done|]. split; [done|].
      intros (Hc & _)%Forall2_cons_1. cbn beta in Hc. congruence.
Qed.


End equality.

(** ** [swap] and move assignment *)

Section swap_tree.

Implicit Types (st : gmap nat E.t) (t l r : tree) (x y p : nat).

(** [move_from] into a sentinel that has no tree. *)
Lemma move_from_null st this other t :
  tree_at st other t → st !! this = Some E.null → this ≠ other →
  ∃ st', E.move_from st this other = Some st'
    ∧ tree_at st' this t
    ∧ st' !! other = Some E.null
    ∧ (∀ z, z ≠ this → z ≠ other → z ∉ inorder t → st' !! z = st !! z)
    ∧ (∀ z, st' !! z = None ↔ st !! z = None).
Proof.
  intros (Hroot & Hrep & Hnd & Hnin) Hthis Hne.
  assert (this ∉ inorder t) as Hnt.
  { intros Hin. destruct (rep_parent st other t this Hrep Hin)
      as (e & q & He & Hq & _).
    rewrite Hthis in He. by injection He as <-. }
  unfold E.move_from. rewrite Hroot.
  cbn [mbind option_bind E.left].
  change E.link_left with (link dL). change E.link_right with (link dR).
  destruct t as [|l c r].
  - cbn [root_of].
    rewrite (link_None dL _ this E.null) by done.
    cbn [mbind option_bind]. rewrite !lookup_insert_ne by done. rewrite Hroot.
    cbn [mbind option_bind E.right].
    rewrite (link_None dR _ this _) by (by rewrite lookup_insert_eq).
    cbn [mbind option_bind]. rewrite !lookup_insert_ne by done. rewrite Hroot.
    cbn [mbind option_bind]. eexists. split; [done|]. split_and!.
    + split_and!; [|done|done|done].
      rewrite lookup_insert_ne by done. by rewrite lookup_insert_eq.
    + by rewrite lookup_insert_eq.
    + intros z ? ? _. by rewrite !lookup_insert_ne.
    + intros z. rewrite !lookup_insert. repeat case_decide; subst;
        first [naive_solver
              |split; [done|]; intros Hz; by rewrite Hroot in Hz
              |split; [done|]; intros Hz; by rewrite Hthis in Hz].
  - cbn [root_of]. pose proof Hrep as (Hc & Hl & Hr).
    assert (c ≠ this) as Hct by (intros ->; set_solver).
    assert (c ≠ other) as Hco by (intros ->; set_solver).
    rewrite (link_Some dL _ this E.null c _) by done.
    cbn [mbind option_bind]. rewrite !lookup_insert_ne by done. rewrite Hroot.
    cbn [mbind option_bind E.right].
    erewrite (link_None dR _ this);
      [|rewrite lookup_insert_ne by done; by rewrite lookup_insert_eq].
    cbn [mbind option_bind]. rewrite !lookup_insert_ne by done. rewrite Hroot.
    cbn [mbind option_bind]. eexists. split; [done|]. split_and!.
    + split_and!; [|eapply (rep_reparent st _ other this)|done|done]; try done.
      * rewrite lookup_insert_ne by done. by rewrite lookup_insert_eq.
      * intros ? ? [= <-] ?. simplify_eq. rewrite !lookup_insert_ne by done.
        by rewrite lookup_insert_eq.
      * intros z Hz Hzc.
        assert (z ≠ c) by (intros ->; done).
        assert (z ≠ other) by (intros ->; done).
        assert (z ≠ this) by (intros ->; done).
        by rewrite !lookup_insert_ne.
    + by rewrite lookup_insert_eq.
    + intros z ? ? Hz.
      assert (z ≠ c) by (intros ->; set_solver).
      by rewrite !lookup_insert_ne.
    + intros z. rewrite !lookup_insert. repeat case_decide; subst;
        first [naive_solver
              |split; [done|]; intros Hz; by rewrite Hroot in Hz
              |split; [done|]; intros Hz; by rewrite Hthis in Hz
              |split; [done|]; intros Hz; by rewrite Hc in Hz].
Qed.

(** [std::swap] of the sentinels of two trees. *)
Lemma swap_tree_at st a b tmp ta tb :
  tree_at st a ta → tree_at st b tb → a ≠ b → st !! tmp = None →
  ∃ st', intr_tree.swap st a b tmp = Some st'
    ∧ tree_at st' a tb ∧ tree_at st' b ta
    ∧ (∀ z, z ≠ a → z ≠ b → z ∉ inorder ta → z ∉ inorder tb →
            st' !! z = st !! z)
    ∧ (∀ z, st' !! z = None ↔ st !! z = None).
Proof.
  intros Hta Htb Hab Htmp.
  assert (∀ z, z = a ∨ z ∈ inorder ta → z ≠ tmp) as Htmpa.
  { intros z Hz ->. destruct (tree_at_lookup st a ta tmp Hta Hz) as [? H].
    by rewrite Htmp in H. }
  assert (∀ z, z = b ∨ z ∈ inorder tb → z ≠ tmp) as Htmpb.
  { intros z Hz ->. destruct (tree_at_lookup st b tb tmp Htb Hz) as [? H].
    by rewrite Htmp in H. }
  assert (tmp ≠ a) as Hta0 by (apply not_eq_sym, Htmpa; auto).
  assert (tmp ≠ b) as Htb0 by (apply not_eq_sym, Htmpb; auto).
  assert (tmp ∉ inorder ta) as Htta by (intros ?; apply (Htmpa tmp); auto).
  assert (tmp ∉ inorder tb) as Httb by (intros ?; apply (Htmpb tmp); auto).
  assert (∀ z, z ∈ inorder ta → z ∉ inorder tb) as Hdisj
    by (intros z; by apply (tree_at_disjoint st a ta b tb)).
  pose proof (tree_at_sentinel st a ta b tb Hta Htb) as Hatb.
  pose proof (tree_at_sentinel st b tb a ta Htb Hta) as Hbta.
  assert (a ∉ inorder ta) as Hata by apply Hta.
  assert (b ∉ inorder tb) as Hbtb by apply Htb.
  unfold intr_tree.swap.
  (* tmp takes the tree of a *)
  destruct (move_from_null (<[tmp:=E.null]> st) tmp a ta)
    as (st1 & -> & Ht1 & Ha1 & Hfr1 & Hdom1).
  { eapply tree_at_ext; [|done]. intros z Hz. apply lookup_insert_ne.
    intros <-. naive_solver. }
  { by rewrite lookup_insert_eq. }
  { done. }
  cbn [mbind option_bind].
  assert (tree_at st1 b tb) as Htb1.
  { eapply tree_at_ext; [|done]. intros z Hz.
    rewrite Hfr1; [apply lookup_insert_ne| | |]; naive_solver. }
  (* a takes the tree of b *)
  destruct (move_from_null st1 a b tb Htb1 Ha1 Hab)
    as (st2 & -> & Ha2 & Hb2 & Hfr2 & Hdom2).
  cbn [mbind option_bind].
  assert (tree_at st2 tmp ta) as Ht2.
  { eapply tree_at_ext; [|done]. intros z Hz. apply Hfr2; naive_solver. }
  (* b takes the tree of tmp *)
  destruct (move_from_null st2 b tmp ta Ht2 Hb2)
    as (st3 & -> & Hb3 & Ht3 & Hfr3 & Hdom3); [done|].
  cbn [mbind option_bind].
  assert (tree_at st3 a tb) as Ha3.
  { eapply tree_at_ext; [|done]. intros z Hz. apply Hfr3; naive_solver. }
  (* the temporary is destroyed *)
  unfold E.fuel_of. cbn [E.unlink]. rewrite Ht3.
  cbn [mbind option_bind E.in_tree E.null E.parent E.left E.right E.is_null
       andb negb].
  eexists. split; [done|]. split_and!.
  - eapply tree_at_ext; [|done]. intros z Hz. apply lookup_delete_ne.
    intros <-. naive_solver.
  - eapply tree_at_ext; [|done]. intros z Hz. apply lookup_delete_ne.
    intros <-. naive_solver.
  - intros z Hza Hzb Hzta Hztb.
    destruct (decide (z = tmp)) as [->|Hzt];
      [by rewrite lookup_delete_eq|].
    rewrite lookup_delete_ne by done.
    rewrite Hfr3, Hfr2, Hfr1 by done. by rewrite lookup_insert_ne.
  - intros z. destruct (decide (z = tmp)) as [->|Hzt];
      [by rewrite lookup_delete_eq|].
    rewrite lookup_delete_ne by done.
    rewrite Hdom3, Hdom2, Hdom1. by rewrite lookup_insert_ne.
Qed.

(** [clear] of a tree that has no entry. *)
Lemma intr_clear_empty st root :
  tree_at st root Leaf → @intr_tree.clear st root = Some st.
Proof.
  intros Ht. pose proof (tree_at_size _ _ _ Ht) as Hsz.
  destruct Ht as (Hroot & _). cbn [root_of] in Hroot.
  unfold intr_tree.clear, E.fuel_of. cbn [intr_tree.delete_subtree].
  rewrite Hroot. cbn [mbind option_bind E.left].
  destruct (size st) as [|n] eqn:Hn; [simpl in Hsz; lia|].
  cbn [intr_tree.delete_subtree mbind option_bind]. rewrite Hroot.
  cbn [mbind option_bind E.right].
  unfold E.fuel_of. rewrite Hn. cbn [E.unlink]. by rewrite Hroot.
Qed.

End swap_tree.

(** ** Copies *)

Section insert_frame_tree.

Context {Key : Type}.
Variable Comparator : Key → Key → bool.
Variable get_key : nat → option Key.
Hypothesis Hsw : strict_weak Comparator.

Implicit Types (st : gmap nat E.t) (t l r : tree) (x y p : nat).

(** [insert] into a tree changes only the sentinel, the entries of the
    tree and the new element. *)
Lemma insert_tree_frame st root t e st' i :
  tree_at st root t → st !! e = None →
  apart Comparator get_key e t →
  intr_tree.insert Comparator get_key (<[e := E.null]> st) root e
  = Some (st', i) →
  ∀ z, z ≠ root → z ∉ inorder t → z ≠ e → st' !! z = st !! z.
Proof.
  intros Ht He Ha. pose proof (tree_at_fuel _ _ _ Ht) as Hf.
  destruct Ht as (Hroot & Hrep & Hnd & Hnin).
  assert (e ≠ root) as Her by (intros ->; by rewrite Hroot in He).
  assert (e ∉ inorder t) as Het.
  { intros [? Hin]%(rep_lookup st root t e Hrep). by rewrite He in Hin. }
  assert (rep (<[e:=E.null]> st) root t) as Hrep0.
  { eapply rep_ext; [|done]. intros z Hz. apply lookup_insert_ne.
    by intros ->. }
  unfold intr_tree.insert. rewrite lookup_insert_ne by done. rewrite Hroot.
  cbn [mbind option_bind E.left].
  change E.link_left with (link dL).
  destruct t as [|l x r].
  - cbn [root_of].
    erewrite (link_Some dL _ root _ e E.null);
      [|by rewrite lookup_insert_ne|done|by rewrite lookup_insert_eq].
    cbn [mbind option_bind]. intros [= <- <-] z Hz _ Hze.
    by rewrite !lookup_insert_ne.
  - cbn [root_of].
    destruct (insert_loop_rep Comparator get_key Hsw e (Node l x r)
                (<[e:=E.null]> st) root root (E.fuel_of (<[e:=E.null]> st)) x)
      as (st'' & Hins & _ & Hfr & _);
      [done|done|done|done|done|by rewrite lookup_insert_eq| |].
    { unfold E.fuel_of. rewrite map_size_insert_None by done. lia. }
    rewrite Hins. intros [= <- <-] z Hz Hzt Hze.
    rewrite Hfr by done. by rewrite lookup_insert_ne.
Qed.

End insert_frame_tree.

Section insert_frame.

Import invariant.

Variables left_t right_t : Type.
Variable CompareLeft : left_t → left_t → bool.
Variable CompareRight : right_t → right_t → bool.

Local Abbreviation heap := (bimap.heap left_t right_t).
Local Abbreviation key_t := (bimap.key_t left_t right_t).
Local Abbreviation Comparator :=
  (bimap.Comparator left_t right_t CompareLeft CompareRight).
Local Abbreviation get_key := (bimap.get_key left_t right_t).
Local Abbreviation elements := (bimap.elements left_t right_t).
Local Abbreviation traverse := (bimap.traverse left_t right_t).
Local Abbreviation nodes := (bimap.nodes left_t right_t).
Local Abbreviation size := (bimap.size left_t right_t).
Local Abbreviation inv := (inv left_t right_t CompareLeft CompareRight).
Local Abbreviation wf := (wf left_t right_t CompareLeft CompareRight).
Local Abbreviation same_at := (same_at left_t right_t).
Local Abbreviation pair_key := (pair_key left_t right_t).
Local Abbreviation iter := (λ this n, bimap.mk_iterator (Some n) this).
Local Abbreviation insert :=
  (bimap.insert left_t right_t CompareLeft CompareRight).

Hypothesis Hsw : ∀ s, strict_weak (Comparator s).

Implicit Types (h : heap) (ts : side → tree) (s : side).

(** [insert_no_check] changes only the map, its entries and the new
    node. *)
Lemma insert_no_check_frame h this ts l r h' i :
  inv h this ts →
  (∀ s n, n ∈ inorder (ts s) →
          ¬ has_key (Comparator s) (get_key s h) n (pair_key l r s)) →
  bimap.insert_no_check _ _ CompareLeft CompareRight h this l r
  = Some (h', i) →
  (∀ z, z ≠ this → z ∉ inorder (ts left_tag) → z ≠ bimap.brk _ _ h →
        same_at h h' z)
  ∧ bimap.brk _ _ h' = S (bimap.brk _ _ h).
Proof.
  intros Hinv Habs. set (e := bimap.brk _ _ h).
  destruct (inv_unused _ _ _ _ _ _ _ Hinv e (le_n _)) as (Hel & Her & Hen).
  set (ns := <[e := bimap.mk_node _ _ (l, r)]> (bimap.nodes _ _ h)).
  set (gk := λ s (p : nat),
         (n ← ns !! p; Some (bimap.key _ _ s n)) : option (key_t s)).
  assert (∀ s n, n ∈ inorder (ts s) → n ≠ e) as Hne.
  { intros s n Hn ->. destruct (inv_nodes _ _ _ _ _ _ _ Hinv s e Hn) as [? Hsome].
    by rewrite Hen in Hsome. }
  assert (∀ s n, n ≠ e → gk s n = get_key s h n) as Hgk.
  { intros s n Hn. unfold gk, ns, bimap.get_key. by rewrite lookup_insert_ne. }
  assert (∀ s, gk s e = Some (pair_key l r s)) as Hgke.
  { intros s. unfold gk, ns. rewrite lookup_insert_eq. by destruct s. }
  assert (∀ s, apart (Comparator s) (gk s) e (ts s)) as Hap.
  { intros s.
    apply (absent_apart (Comparator s) (gk s) e (pair_key l r s) (ts s));
      [|apply Hgke|].
    - intros n Hn. rewrite Hgk by (by eapply Hne).
      by eapply keyed_inv.
    - intros n Hn (kn & Hkn & Heq). apply (Habs s n Hn). exists kn.
      split; [|done]. rewrite <- Hgk; [done|by eapply Hne]. }
  unfold bimap.insert_no_check. rewrite (inv_size _ _ _ _ _ _ _ Hinv).
  cbn [mbind option_bind bimap.set_size bimap.brk bimap.elements_left
       bimap.elements_right bimap.nodes bimap.size_ bimap.set_elements].
  fold e.
  change (bimap.get_key _ _ left_tag _) with (gk left_tag).
  destruct (intr_tree.insert CompareLeft (gk left_tag) _ this e)
    as [[stl il]|] eqn:Hinsl; [|done].
  cbn [mbind option_bind].
  change (bimap.get_key _ _ right_tag _) with (gk right_tag).
  destruct (intr_tree.insert CompareRight (gk right_tag) _ this e)
    as [[str ir]|] eqn:Hinsr; [|done].
  cbn [mbind option_bind]. intros [= <- <-]. split; [|done].
  pose proof (insert_tree_frame CompareLeft (gk left_tag) (Hsw left_tag) _
                this (ts left_tag) e stl il
                (inv_tree _ _ _ _ _ _ _ Hinv left_tag) Hel (Hap left_tag)
                Hinsl) as Hfl.
  pose proof (insert_tree_frame CompareRight (gk right_tag) (Hsw right_tag) _
                this (ts right_tag) e str ir
                (inv_tree _ _ _ _ _ _ _ Hinv right_tag) Her (Hap right_tag)
                Hinsr) as Hfr.
  intros z Hz Hzl Hze. split_and!.
  - intros [|]; cbn [bimap.elements bimap.elements_left bimap.elements_right].
    + by apply Hfl.
    + apply Hfr; [done| |done]. intros ?. apply Hzl.
      by apply (inv_elem_of_sides _ _ CompareLeft CompareRight
                  right_tag left_tag h this ts).
  - cbn [bimap.nodes]. by rewrite lookup_insert_ne.
  - cbn [bimap.size_]. by rewrite lookup_insert_ne.
Qed.

(** [insert] of a pair neither key of which is in use, with what it
    leaves alone. *)
Lemma insert_absent_frame h this ts l r :
  inv h this ts →
  (∀ s n, n ∈ inorder (ts s) →
          ¬ has_key (Comparator s) (get_key s h) n (pair_key l r s)) →
  Z.of_nat (length (inorder (ts left_tag))) + 1 < bimap.size_max →
  ∃ h' ts',
    insert h this l r = Some (h', iter this (bimap.brk _ _ h))
    ∧ inv h' this ts'
    ∧ (∀ s, inorder (ts' s) ≡ₚ bimap.brk _ _ h :: inorder (ts s))
    ∧ nodes h' = <[bimap.brk _ _ h := bimap.mk_node _ _ (l, r)]> (nodes h)
    ∧ (∀ z, z ≠ this → z ∉ inorder (ts left_tag) → z ≠ bimap.brk _ _ h →
            same_at h h' z)
    ∧ bimap.brk _ _ h' = S (bimap.brk _ _ h).
Proof.
  intros Hinv Habs Hbound.
  destruct (insert_no_check_inv _ _ _ _ Hsw h this ts l r Hinv Habs Hbound)
    as (h' & ts' & Hins & Hinv' & Hperm & Hnodes & _).
  destruct (insert_no_check_frame h this ts l r h' _ Hinv Habs Hins)
    as [Hframe Hbrk].
  exists h', ts'. split_and!; [|done|done|done|done|done].
  unfold bimap.insert, bimap.insert_.
  unfold bimap.find_left, bimap.find_right.
  rewrite (find_inv_absent _ _ _ _ Hsw left_tag h this ts l Hinv
             (Habs left_tag)).
  cbn [mbind option_bind]. unfold bimap.end_left, bimap.iter_eqb.
  rewrite bool_decide_eq_true_2 by done. cbn [negb].
  rewrite (find_inv_absent _ _ _ _ Hsw right_tag h this ts r Hinv
             (Habs right_tag)).
  cbn [mbind option_bind]. unfold bimap.end_right.
  rewrite bool_decide_eq_true_2 by done. cbn [negb]. done.
Qed.

End insert_frame.

Section sorted_lists.

(** Two sorted lists with the same images, up to order, have the same
    images in order. *)
Lemma sorted_perm_eq {A B} (f : A → B) (R : A → A → Prop)
    (R' : B → B → Prop) (l1 l2 : list A) :
  (∀ a b, R a b → R' (f a) (f b)) →
  (∀ x y, R' x y → R' y x → False) →
  StronglySorted R l1 → StronglySorted R l2 →
  f <$> l1 ≡ₚ f <$> l2 → f <$> l1 = f <$> l2.
Proof.
  intros Hmono Hasym H1 H2 Hperm.
  apply (StronglySorted_unique_strong R'); [|by eapply StronglySorted_fmap
                                             |by eapply StronglySorted_fmap
                                             |done].
  intros x y _ _ Hxy Hyx. destruct (Hasym x y Hxy Hyx).
Qed.

Lemma mapM_ext_fmap {A B} (f : A → option B) (l1 l2 : list A) :
  f <$> l1 = f <$> l2 → mapM f l1 = mapM f l2.
Proof.
  revert l2. induction l1 as [|a l1 IH]; intros [|b l2]; try done.
  cbn [fmap list_fmap]. intros [= Hab Hl]. cbn [mapM].
  by rewrite Hab, (IH l2 Hl).
Qed.

End sorted_lists.

Section copy.

Import invariant.

Variables left_t right_t : Type.
Variable CompareLeft : left_t → left_t → bool.
Variable CompareRight : right_t → right_t → bool.

Local Abbreviation heap := (bimap.heap left_t right_t).
Local Abbreviation key_t := (bimap.key_t left_t right_t).
Local Abbreviation Comparator :=
  (bimap.Comparator left_t right_t CompareLeft CompareRight).
Local Abbreviation get_key := (bimap.get_key left_t right_t).
Local Abbreviation elements := (bimap.elements left_t right_t).
Local Abbreviation traverse := (bimap.traverse left_t right_t).
Local Abbreviation nodes := (bimap.nodes left_t right_t).
Local Abbreviation size := (bimap.size left_t right_t).
Local Abbreviation inv := (inv left_t right_t CompareLeft CompareRight).
Local Abbreviation wf := (wf left_t right_t CompareLeft CompareRight).
Local Abbreviation same_at := (same_at left_t right_t).
Local Abbreviation pair_key := (pair_key left_t right_t).
Local Abbreviation pairs := (pairs left_t right_t).
Local Abbreviation keys := (keys left_t right_t).
Local Abbreviation iter := (λ this n, bimap.mk_iterator (Some n) this).
Local Abbreviation val :=
  (λ (h : heap) (n : nat), bimap.lr left_t right_t <$> nodes h !! n).

Hypothesis Hsw : ∀ s, strict_weak (Comparator s).

Implicit Types (h : heap) (ts : side → tree) (s : side).

Lemma get_key_val s h n :
  get_key s h n = (λ p, pair_key p.1 p.2 s) <$> val h n.
Proof.
  unfold bimap.get_key. destruct (nodes h !! n) as [[[l r]]|]; [|done].
  by destruct s.
Qed.

Lemma same_at_val h h' z : same_at h h' z → val h' z = val h z.
Proof. intros (_ & Hn & _). cbn beta. by rewrite Hn. Qed.

(** An object of a map is below [brk]. *)
Lemma inv_below h this ts z :
  inv h this ts → z = this ∨ z ∈ inorder (ts left_tag) →
  (z < bimap.brk _ _ h)%nat.
Proof.
  intros Hinv Hz.
  destruct (tree_at_lookup _ this (ts left_tag) z
              (inv_tree _ _ _ _ _ _ _ Hinv left_tag) Hz) as [e He].
  destruct (decide (z < bimap.brk _ _ h)%nat) as [|Hge]; [done|].
  destruct (inv_unused _ _ _ _ _ _ _ Hinv z ltac:(lia)) as (Hl & _).
  cbn [bimap.elements] in He. by rewrite Hl in He.
Qed.

(** The loop of [copy_from] inserts a copy of every entry of [other]
    that is left to visit. *)
Lemma copy_loop_inv this other tso :
  ∀ rest h ts pre f,
  inv h this ts → inv h other tso → this ≠ other →
  inorder (tso left_tag) = pre ++ rest →
  val h <$> inorder (ts left_tag) ≡ₚ val h <$> pre →
  (length rest < f)%nat →
  ∃ h' ts',
    bimap.copy_loop _ _ CompareLeft CompareRight f h this other
      (Some (hd other rest)) = Some h'
    ∧ inv h' this ts' ∧ inv h' other tso
    ∧ val h' <$> inorder (ts' left_tag)
      ≡ₚ val h' <$> inorder (tso left_tag)
    ∧ (∀ z, z ≠ this → z ∉ inorder (ts left_tag) →
            (z < bimap.brk _ _ h)%nat → same_at h h' z).
Proof.
  induction rest as [|x rest IH]; intros h ts pre f Hinv Ho Hne Hs Hperm Hf.
  - destruct f as [|f]; [simpl in Hf; lia|].
    cbn [hd bimap.copy_loop]. unfold intr_tree.end_.
    rewrite bool_decide_eq_false_2 by naive_solver.
    exists h, ts. rewrite app_nil_r in Hs. rewrite Hs.
    split_and!; [done|done|done|done|done].
  - destruct f as [|f]; [simpl in Hf; lia|].
    assert (x ∈ inorder (tso left_tag)) as Hx by (rewrite Hs; set_solver).
    pose proof (inv_not_this _ _ CompareLeft CompareRight left_tag h other tso
                  x Ho Hx) as Hxo.
    destruct (inv_nodes _ _ _ _ _ _ _ Ho left_tag x Hx) as [[[l r]] Hnd].
    pose proof (inv_tree _ _ _ _ _ _ _ Ho left_tag) as (_ & _ & Hndo & _).
    rewrite Hs in Hndo. pose proof Hndo as [_ Hxpre]%NoDup_remove_mid.
    (* neither key of the entry is in use in the copy *)
    assert (∀ s n, n ∈ inorder (ts s) →
                   ¬ has_key (Comparator s) (get_key s h) n (pair_key l r s))
      as Habs.
    { intros s n Hn Hk.
      assert (n ∈ inorder (ts left_tag)) as Hnl
        by (by eapply (inv_elem_of_sides _ _ CompareLeft CompareRight s)).
      assert (val h n ∈ val h <$> pre) as (y & Hy & Hypre)%list_elem_of_fmap.
      { rewrite <- Hperm. apply list_elem_of_fmap. eauto. }
      assert (has_key (Comparator s) (get_key s h) y (pair_key l r s)) as Hky.
      { destruct Hk as (kn & Hkn & He). exists kn. split; [|done].
        rewrite get_key_val in Hkn |- *. by rewrite <- Hy. }
      assert (has_key (Comparator s) (get_key s h) x (pair_key l r s)) as Hkx.
      { pose proof (has_key_self _ _ _ _ Hsw s h x _ Hnd) as H.
        by destruct s. }
      assert (y = x) as ->.
      { apply (has_key_unique _ _ _ _ Hsw s h other tso y x
                 (pair_key l r s) Ho);
          [|by eapply (inv_elem_of_sides _ _ CompareLeft CompareRight left_tag)
           |done|done].
        eapply (inv_elem_of_sides _ _ CompareLeft CompareRight left_tag);
          [done|]. rewrite Hs. set_solver. }
      apply Hxpre. set_solver. }
    assert (Z.of_nat (length (inorder (ts left_tag))) + 1 < bimap.size_max)
      as Hbound.
    { pose proof (inv_size_bound _ _ _ _ _ _ _ Ho) as Hb.
      apply Permutation_length in Hperm. rewrite !length_fmap in Hperm.
      rewrite Hs, length_app in Hb. simpl in Hb. lia. }
    destruct (insert_absent_frame _ _ _ _ Hsw h this ts l r Hinv Habs Hbound)
      as (h1 & ts1 & Hins & Hinv1 & Hperm1 & Hnodes1 & Hfr1 & Hbrk1).
    assert (∀ z, z = other ∨ z ∈ inorder (tso left_tag) → same_at h h1 z)
      as Hsame.
    { intros z Hz.
      destruct (inv_disjoint _ _ _ _ h other tso this ts z Ho Hinv) as [? ?];
        [done|done|].
      pose proof (inv_below h other tso z Ho Hz).
      apply Hfr1; [done|done|lia]. }
    pose proof (inv_frame _ _ _ _ Hsw h h1 other tso Ho Hsame
                  (inv_unused _ _ _ _ _ _ _ Hinv1)) as Ho1.
    cbn [hd bimap.copy_loop]. unfold intr_tree.end_.
    rewrite bool_decide_eq_true_2 by naive_solver.
    cbn [mbind option_bind]. rewrite Hnd. cbn [mbind option_bind].
    cbn [bimap.key bimap.lr fst snd]. rewrite Hins. cbn [mbind option_bind].
    unfold intr_tree.incr. cbn [mbind option_bind].
    pose proof (inv_tree _ _ _ _ _ _ _ Ho1 left_tag) as Hto1.
    pose proof (tree_at_fuel _ _ _ Hto1) as Hfo1.
    cbn [bimap.elements] in Hto1, Hfo1.
    rewrite (next_tree_at _ other (tso left_tag) pre x rest);
      [|done|done|unfold E.fuel_of; lia].
    cbn [mbind option_bind].
    assert (∀ n, n ≠ bimap.brk _ _ h → val h1 n = val h n) as Hval.
    { intros n Hn. cbn beta. rewrite Hnodes1. by rewrite lookup_insert_ne. }
    assert (∀ ns : list nat, bimap.brk _ _ h ∉ ns →
                             val h1 <$> ns = val h <$> ns) as Hvals.
    { intros ns Hns. apply list_fmap_ext. intros i n Hi. apply Hval.
      intros ->. apply Hns. by eapply list_elem_of_lookup_2. }
    assert (∀ z, z ∈ inorder (tso left_tag) → z ≠ bimap.brk _ _ h) as Hobrk.
    { intros z Hz. pose proof (inv_below h other tso z Ho (or_intror Hz)).
      lia. }
    assert (bimap.brk _ _ h ∉ inorder (ts left_tag)) as Htbrk.
    { intros Hz. pose proof (inv_below h this ts _ Hinv (or_intror Hz)).
      lia. }
    destruct (IH h1 ts1 (pre ++ [x]) f Hinv1 Ho1 Hne)
      as (h' & ts' & Hloop & Hinv' & Ho' & Hperm' & Hfr');
      [by rewrite <- app_assoc| |simpl in Hf; lia|].
    { rewrite (Hperm1 left_tag). rewrite fmap_cons, fmap_app.
      rewrite (Hvals (inorder (ts left_tag)) Htbrk).
      assert (bimap.brk _ _ h ∉ pre) as Hpbrk.
      { intros Hz. apply (Hobrk (bimap.brk _ _ h)); [|done].
        rewrite Hs. set_solver. }
      rewrite (Hvals pre Hpbrk).
      rewrite Hperm. cbn [fmap list_fmap].
      rewrite (Hval x) by (by apply Hobrk).
      cbn beta. rewrite Hnodes1, lookup_insert_eq, Hnd. cbn.
      by rewrite Permutation_app_comm. }
    exists h', ts'. split_and!; [done|done|done|done|].
    intros z Hz Hzt Hzb. eapply same_at_trans; [apply Hfr1; [done|done|lia]|].
    apply Hfr'; [done| |lia]. rewrite (Hperm1 left_tag).
    intros [->|?]%elem_of_cons; [lia|done].
Qed.

Lemma sides_perm h this ts s :
  inv h this ts → inorder (ts s) ≡ₚ inorder (ts left_tag).
Proof.
  intros Hinv. destruct s; [done|].
  symmetry. apply (inv_same _ _ _ _ _ _ _ Hinv).
Qed.

Lemma lt_node_val h x y :
  lt_node CompareLeft (get_key left_tag h) x y →
  ∃ p q, val h x = Some p ∧ val h y = Some q ∧ CompareLeft p.1 q.1 = true.
Proof.
  intros (ka & kb & Ha & Hb & Hlt)%lt_node_inv.
  rewrite get_key_val in Ha, Hb. cbn beta in Ha, Hb |- *.
  destruct (nodes h !! x) as [[p]|]; [|done].
  destruct (nodes h !! y) as [[q]|]; [|done].
  exists p, q. by simplify_eq/=.
Qed.

(** Two maps with the same pairs, in whatever order of the nodes, have
    them in the same order on either side. *)
Lemma copies_equal h a b tsa tsb :
  inv h a tsa → inv h b tsb →
  val h <$> inorder (tsa left_tag) ≡ₚ val h <$> inorder (tsb left_tag) →
  pairs h a = pairs h b ∧ ∀ s, keys s h a = keys s h b.
Proof.
  intros Ha Hb Hperm. split.
  - unfold invariant.pairs.
    rewrite (traverse_inv _ _ _ _ Hsw left_tag h a tsa Ha).
    rewrite (traverse_inv _ _ _ _ Hsw left_tag h b tsb Hb).
    cbn [mbind option_bind]. apply mapM_ext_fmap.
    apply (sorted_perm_eq (val h)
             (lt_node CompareLeft (get_key left_tag h))
             (λ x y, ∃ p q, x = Some p ∧ y = Some q
                            ∧ CompareLeft p.1 q.1 = true));
      [apply lt_node_val| | | |done].
    + intros x y (p & q & -> & -> & Hpq) (? & ? & [= <-] & [= <-] & Hqp).
      pose proof (sw_trans _ (Hsw left_tag) _ _ _ Hpq Hqp) as Hc.
      cbn in Hc. by rewrite (sw_irrefl _ (Hsw left_tag)) in Hc.
    + apply (bst_sorted _ _ (Hsw left_tag)), (inv_bst _ _ _ _ _ _ _ Ha).
    + apply (bst_sorted _ _ (Hsw left_tag)), (inv_bst _ _ _ _ _ _ _ Hb).
  - intros s. unfold invariant.keys.
    rewrite (traverse_inv _ _ _ _ Hsw s h a tsa Ha).
    rewrite (traverse_inv _ _ _ _ Hsw s h b tsb Hb).
    cbn [mbind option_bind]. apply mapM_ext_fmap.
    apply (sorted_perm_eq (get_key s h)
             (lt_node (Comparator s) (get_key s h))
             (λ x y, ∃ ka kb, x = Some ka ∧ y = Some kb
                              ∧ Comparator s ka kb = true)).
    + intros x y (ka & kb & ? & ? & ?)%lt_node_inv. by exists ka, kb.
    + intros x y (p & q & -> & -> & Hpq) (? & ? & [= <-] & [= <-] & Hqp).
      pose proof (sw_trans _ (Hsw s) _ _ _ Hpq Hqp) as Hc.
      by rewrite (sw_irrefl _ (Hsw s)) in Hc.
    + apply (bst_sorted _ _ (Hsw s)), (inv_bst _ _ _ _ _ _ _ Ha).
    + apply (bst_sorted _ _ (Hsw s)), (inv_bst _ _ _ _ _ _ _ Hb).
    + rewrite (sides_perm h a tsa s Ha), (sides_perm h b tsb s Hb).
      assert (∀ ns : list nat,
                get_key s h <$> ns
                = fmap (λ p, pair_key p.1 p.2 s) <$> (val h <$> ns)) as Hg.
      { intros ns. rewrite <- list_fmap_compose. apply list_fmap_ext.
        intros i n _. apply get_key_val. }
      rewrite !Hg. by rewrite Hperm.
Qed.

(** A map none of whose objects changed has the pairs and keys it
    had. *)
Lemma pairs_frame h h' o tso :
  inv h o tso → inv h' o tso →
  (∀ z, z ∈ inorder (tso left_tag) → same_at h h' z) →
  pairs h' o = pairs h o ∧ ∀ s, keys s h' o = keys s h o.
Proof.
  intros Ho Ho' Hsame. split.
  - unfold invariant.pairs.
    rewrite (traverse_inv _ _ _ _ Hsw left_tag h o tso Ho).
    rewrite (traverse_inv _ _ _ _ Hsw left_tag h' o tso Ho').
    cbn [mbind option_bind]. apply Forall_mapM_ext, Forall_forall.
    intros n Hn. by apply (same_at_val h h'), Hsame.
  - intros s. unfold invariant.keys.
    rewrite (traverse_inv _ _ _ _ Hsw s h o tso Ho).
    rewrite (traverse_inv _ _ _ _ Hsw s h' o tso Ho').
    cbn [mbind option_bind]. apply Forall_mapM_ext, Forall_forall.
    intros n Hn. rewrite !get_key_val. f_equal.
    apply (same_at_val h h'), Hsame.
    by apply (inv_elem_of_sides _ _ CompareLeft CompareRight s left_tag h o
                tso).
Qed.

Lemma copy_from_inv h this other ts tso :
  inv h this ts → inv h other tso → this ≠ other →
  ∃ h' ts',
    bimap.copy_from _ _ CompareLeft CompareRight h this other = Some h'
    ∧ inv h' this ts' ∧ inv h' other tso
    ∧ val h' <$> inorder (ts' left_tag)
      ≡ₚ val h' <$> inorder (tso left_tag)
    ∧ (∀ z, z ≠ this → z ∉ inorder (ts left_tag) →
            (z < bimap.brk _ _ h)%nat → same_at h h' z)
    ∧ (∀ m, m ∈ inorder (ts left_tag) → nodes h' !! m = None).
Proof.
  intros Hinv Ho Hne.
  destruct (clear_inv _ _ _ _ Hsw h this ts Hinv)
    as (h1 & ts1 & Hcl & Hinv1 & Hleaf & Hnodes1 & Hfr1 & Hbrk1).
  assert (∀ z, z = other ∨ z ∈ inorder (tso left_tag) → same_at h h1 z)
    as Hsame.
  { intros z Hz.
    destruct (inv_disjoint _ _ _ _ h other tso this ts z Ho Hinv) as [? ?];
      [done|done|]. by apply Hfr1. }
  pose proof (inv_frame _ _ _ _ Hsw h h1 other tso Ho Hsame
                (inv_unused _ _ _ _ _ _ _ Hinv1)) as Ho1.
  unfold bimap.copy_from. rewrite Hcl. cbn [mbind option_bind].
  pose proof (inv_tree _ _ _ _ _ _ _ Ho1 left_tag) as Hto1.
  cbn [bimap.elements] in Hto1.
  rewrite (begin_rep _ other (tso left_tag) Hto1). cbn [mbind option_bind].
  destruct (copy_loop_inv this other tso (inorder (tso left_tag)) h1 ts1 []
              (bimap.fuel _ _ h1) Hinv1 Ho1 Hne)
    as (h' & ts' & Hloop & Hinv' & Ho' & Hperm' & Hfr');
    [done|by rewrite Hleaf
    |apply (fuel_inv _ _ CompareLeft CompareRight left_tag h1 other tso Ho1)|].
  exists h', ts'. split_and!; [done|done|done|done| |].
  - intros z Hz Hzt Hzb. eapply same_at_trans; [by apply Hfr1|].
    apply Hfr'; [done|by rewrite Hleaf; intros ?%not_elem_of_nil|lia].
  - intros m Hm.
    pose proof (inv_not_this _ _ CompareLeft CompareRight left_tag h this ts
                  m Hinv Hm) as Hmt.
    pose proof (inv_below h this ts m Hinv (or_intror Hm)) as Hmb.
    destruct (Hfr' m) as (_ & -> & _);
      [done|by rewrite Hleaf; intros ?%not_elem_of_nil|lia|].
    rewrite Hnodes1. by rewrite decide_True.
Qed.

(** A new map leaves the maps there are as they were. *)
Lemma ctor_other_inv h o tso :
  inv h o tso → inv (bimap.ctor _ _ h).1 o tso.
Proof.
  intros Ho.
  pose proof (ctor_inv _ _ CompareLeft CompareRight h
                (inv_unused _ _ _ _ _ _ _ Ho)) as Hinv0.
  apply (inv_frame _ _ _ _ Hsw h _ o tso Ho);
    [|apply (inv_unused _ _ _ _ _ _ _ Hinv0)].
  intros z Hz. pose proof (inv_below h o tso z Ho Hz) as Hzb.
  split_and!; [intros [|]|..]; cbn; rewrite ?lookup_insert_ne by lia;
    done.
Qed.

(** [insert] into a map leaves another map as it was. *)
Lemma insert_other_inv h this ts o tso l r :
  inv h this ts → inv h o tso → this ≠ o →
  (∀ s n, n ∈ inorder (ts s) →
          ¬ has_key (Comparator s) (get_key s h) n (pair_key l r s)) →
  Z.of_nat (length (inorder (ts left_tag))) + 1 < bimap.size_max →
  ∃ h', bimap.insert _ _ CompareLeft CompareRight h this l r
        = Some (h', iter this (bimap.brk _ _ h))
        ∧ wf h' this ∧ inv h' o tso.
Proof.
  intros Hinv Ho Hne Habs Hbound.
  destruct (insert_absent_frame _ _ _ _ Hsw h this ts l r Hinv Habs Hbound)
    as (h1 & ts1 & Hins & Hinv1 & _ & _ & Hfr1 & _).
  exists h1. split_and!; [done|by eexists|].
  apply (inv_frame _ _ _ _ Hsw h h1 o tso Ho);
    [|apply (inv_unused _ _ _ _ _ _ _ Hinv1)].
  intros z Hz.
  destruct (inv_disjoint _ _ _ _ h o tso this ts z Ho Hinv) as [? ?];
    [done|done|].
  pose proof (inv_below h o tso z Ho Hz).
  apply Hfr1; [done|done|lia].
Qed.

Lemma copied_size h h' this other ts' tso :
  inv h other tso → inv h' this ts' →
  val h' <$> inorder (ts' left_tag) ≡ₚ val h' <$> inorder (tso left_tag) →
  size h' this = size h other.
Proof.
  intros Ho Hinv' Hperm.
  rewrite (wf_size _ _ CompareLeft CompareRight h' this ts' Hinv').
  rewrite (wf_size _ _ CompareLeft CompareRight h other tso Ho).
  apply Permutation_length in Hperm. rewrite !length_fmap in Hperm.
  by rewrite Hperm.
Qed.

(** X21: from a map [other] that satisfies the invariant, the copy
    constructor makes a new map with its own nodes that has the pairs
    of [other], in the same order on either side, and its size; [other]
    is left as it was. *)
Theorem copy_ctor_spec h other :
  wf h other →
  ∃ h' this ps,
    bimap.copy_ctor _ _ CompareLeft CompareRight h other = Some (h', this)
    ∧ this ≠ other
    ∧ wf h' this ∧ wf h' other
    ∧ pairs h other = Some ps
    ∧ pairs h' other = Some ps
    ∧ pairs h' this = Some ps
    ∧ (∀ s, keys s h' this = keys s h other)
    ∧ (∀ s, traverse s h' other = traverse s h other)
    ∧ size h' this = size h other
    ∧ (∀ ns ms, traverse left_tag h' this = Some ns →
                traverse left_tag h' other = Some ms →
                ∀ n, n ∈ ns → n ∉ ms).
Proof.
  intros [tso Ho].
  pose proof (ctor_inv _ _ CompareLeft CompareRight h
                (inv_unused _ _ _ _ _ _ _ Ho)) as Hinv0.
  pose proof (inv_below h other tso other Ho (or_introl eq_refl)) as Hob.
  assert (bimap.brk _ _ h ≠ other) as Hne by lia.
  pose proof (ctor_other_inv h other tso Ho) as Ho0.
  destruct (copy_from_inv _ (bimap.brk _ _ h) other _ tso Hinv0 Ho0 Hne)
    as (h' & ts' & Hcp & Hinv' & Ho' & Hperm & Hfr & _).
  destruct (pairs_inv _ _ _ _ Hsw h other tso Ho) as (ps & Hps & _).
  assert (∀ z, z ∈ inorder (tso left_tag) → same_at h h' z) as Hsame.
  { intros z Hz. pose proof (inv_below h other tso z Ho (or_intror Hz)) as Hzb.
    eapply same_at_trans; [|apply Hfr; [lia|by intros ?%not_elem_of_nil
                                        |cbn; lia]].
    split_and!; [intros [|]|..]; cbn; rewrite ?lookup_insert_ne by lia;
      done. }
  destruct (pairs_frame h h' other tso Ho Ho' Hsame) as [Hpo Hko].
  destruct (copies_equal h' _ other ts' tso Hinv' Ho' Hperm) as [Hpt Hkt].
  exists h', (bimap.brk _ _ h), ps.
  split_and!; [|done|by eexists|by eexists|done|by rewrite Hpo
              |by rewrite Hpt, Hpo|intros s; by rewrite Hkt, Hko| | |].
  - unfold bimap.copy_ctor, bimap.ctor in Hcp |- *. cbn [fst snd] in Hcp.
    cbv beta iota zeta. by rewrite Hcp.
  - intros s. by rewrite (traverse_inv _ _ _ _ Hsw s h' other tso Ho'),
                (traverse_inv _ _ _ _ Hsw s h other tso Ho).
  - by apply (copied_size h h' _ other ts' tso).
  - intros ns ms. rewrite (traverse_inv _ _ _ _ Hsw _ h' _ ts' Hinv').
    rewrite (traverse_inv _ _ _ _ Hsw _ h' other tso Ho').
    intros [= <-] [= <-] n Hn.
    by destruct (inv_disjoint _ _ _ _ h' _ ts' other tso n Hinv' Ho' Hne
                   (or_intror Hn)).
Qed.


End copy.

(** ** The first entry *)

Section first_entry.

Import invariant.

Variables left_t right_t : Type.
Variable CompareLeft : left_t → left_t → bool.
Variable CompareRight : right_t → right_t → bool.

Local Abbreviation heap := (bimap.heap left_t right_t).
Local Abbreviation Comparator :=
  (bimap.Comparator left_t right_t CompareLeft CompareRight).
Local Abbreviation get_key := (bimap.get_key left_t right_t).
Local Abbreviation iter := (λ this n, bimap.mk_iterator (Some n) this).
Local Abbreviation wf := (invariant.wf left_t right_t CompareLeft CompareRight).
Local Abbreviation resident := (resident left_t right_t).

Hypothesis Hsw : ∀ s, strict_weak (Comparator s).

Implicit Types (h : heap) (s : side).

(** X7: on a well-formed map [begin_left()] (resp. [begin_right()]) is
    the iterator at the entry with the least key of that side: the key
    of every other entry of the map compares greater; on a map without
    entries it is [end_left()] (resp. [end_right()]). *)
Theorem begin_spec s h this :
  wf h this →
  ∃ b,
    bimap.begin _ _ s h this = Some b
    ∧ ((∀ n, ¬ resident s h this n) → b = bimap.end_ s this)
    ∧ (∀ m, resident s h this m →
            ∃ n, b = iter this n ∧ resident s h this n
                 ∧ (m = n ∨ lt_node (Comparator s) (get_key s h) n m)).
Proof.
  intros [ts Hinv].
  pose proof (traverse_inv _ _ _ _ Hsw s h this ts Hinv) as Htr.
  unfold bimap.begin.
  rewrite (begin_rep _ this (ts s)) by apply Hinv.
  cbn [mbind option_bind]. eexists. split; [done|].
  pose proof (inv_bst _ _ _ _ _ _ _ Hinv s) as Hbst.
  apply (bst_sorted _ _ (Hsw s)) in Hbst.
  destruct (inorder (ts s)) as [|x ns] eqn:Hns; cbn [hd].
  - split; [done|]. intros m (ns' & Hm & Hin).
    rewrite Htr in Hm. injection Hm as <-. by apply not_elem_of_nil in Hin.
  - assert (resident s h this x) as Hx.
    { exists (x :: ns). split; [done|]. apply list_elem_of_here. }
    split; [intros Hno; by destruct (Hno x)|].
    intros m (ns' & Hm & Hin). rewrite Htr in Hm. injection Hm as <-.
    exists x. split_and!; [done|done|].
    apply StronglySorted_inv in Hbst as [_ Hall].
    apply elem_of_cons in Hin as [->|Hin]; [by left|right].
    by apply (proj1 (Forall_forall _ _) Hall).
Qed.

End first_entry.

(** ** Maps with different comparators *)

Section two_orders.

Import invariant.

Variables left_t right_t : Type.
Variable CompareLeft : left_t → left_t → bool.
Variable CompareRight : right_t → right_t → bool.
Variable CompareLeft' : left_t → left_t → bool.
Variable CompareRight' : right_t → right_t → bool.

Local Abbreviation heap := (bimap.heap left_t right_t).
Local Abbreviation Comparator :=
  (bimap.Comparator left_t right_t CompareLeft CompareRight).
Local Abbreviation Comparator' :=
  (bimap.Comparator left_t right_t CompareLeft' CompareRight').
Local Abbreviation get_key := (bimap.get_key left_t right_t).
Local Abbreviation inv := (invariant.inv left_t right_t CompareLeft CompareRight).
Local Abbreviation inv' := (invariant.inv left_t right_t CompareLeft' CompareRight').

Implicit Types (h : heap) (ts : side → tree) (s : side).

(** Two maps in one memory share no entry, whatever their
    comparators. *)
Lemma inv_apart h a tsa b tsb x :
  inv h a tsa → inv' h b tsb → a ≠ b →
  x = a ∨ x ∈ inorder (tsa left_tag) →
  x ≠ b ∧ x ∉ inorder (tsb left_tag).
Proof.
  intros Ha Hb Hab.
  pose proof (inv_tree _ _ _ _ _ _ _ Ha left_tag) as Hta.
  pose proof (inv_tree _ _ _ _ _ _ _ Hb left_tag) as Htb.
  intros [->|Hx].
  - split; [done|]. by eapply tree_at_sentinel.
  - split.
    + intros ->. by eapply (tree_at_sentinel _ b (tsb left_tag) a).
    + by eapply (tree_at_disjoint _ a (tsa left_tag) b).
Qed.

(** Comparators that compare alike have the same search trees. *)
Lemma inv_alike h this ts :
  (∀ s k k', Comparator s k k' = Comparator' s k k') →
  inv h this ts → inv' h this ts.
Proof.
  intros Heq Hinv.
  split; [apply Hinv| |apply Hinv|apply Hinv|apply Hinv|apply Hinv
         |apply Hinv].
  intros s. pose proof (inv_bst _ _ _ _ _ _ _ Hinv s) as Hbst.
  assert (∀ x y, lt_node (Comparator s) (get_key s h) x y →
                 lt_node (Comparator' s) (get_key s h) x y) as Hlt.
  { intros x y. unfold lt_node, intr_tree.cmp_node, intr_tree.cmp_key.
    destruct (get_key s h x) as [kx|]; [|done].
    destruct (get_key s h y) as [ky|]; [|done].
    cbn [mbind option_bind]. by rewrite Heq. }
  induction (ts s) as [|l IHl x r IHr]; [done|].
  destruct Hbst as (Hl & Hr & Hlx & Hxr).
  split_and!; [by apply IHl|by apply IHr|..]; intros y Hy; apply Hlt;
    [by apply Hlx|by apply Hxr].
Qed.

End two_orders.

Section comparators_kept.

Import invariant.

Variables left_t right_t : Type.

(** The comparators of the first map (the receiver) and those of the
    second map. *)
Variable CompareLeft : left_t → left_t → bool.
Variable CompareRight : right_t → right_t → bool.
Variable CompareLeft' : left_t → left_t → bool.
Variable CompareRight' : right_t → right_t → bool.

Local Abbreviation heap := (bimap.heap left_t right_t).
Local Abbreviation Comparator :=
  (bimap.Comparator left_t right_t CompareLeft CompareRight).
Local Abbreviation Comparator' :=
  (bimap.Comparator left_t right_t CompareLeft' CompareRight').
Local Abbreviation get_key := (bimap.get_key left_t right_t).
Local Abbreviation elements := (bimap.elements left_t right_t).
Local Abbreviation traverse := (bimap.traverse left_t right_t).
Local Abbreviation nodes := (bimap.nodes left_t right_t).
Local Abbreviation size := (bimap.size left_t right_t).
Local Abbreviation iter := (λ this n, bimap.mk_iterator (Some n) this).
Local Abbreviation inv := (invariant.inv left_t right_t CompareLeft CompareRight).
Local Abbreviation inv' := (invariant.inv left_t right_t CompareLeft' CompareRight').
Local Abbreviation wf := (invariant.wf left_t right_t CompareLeft CompareRight).
Local Abbreviation wf' := (invariant.wf left_t right_t CompareLeft' CompareRight').
Local Abbreviation same_at := (same_at left_t right_t).

Hypothesis Hsw : ∀ s, strict_weak (Comparator s).
Hypothesis Hsw' : ∀ s, strict_weak (Comparator' s).

Implicit Types (h : heap) (ts : side → tree) (s : side).

(** [swap] exchanges the trees and the sizes: afterwards the trees of
    either map are search trees for the comparators of the other. *)
Lemma swap_inv h a b tsa tsb :
  inv h a tsa → inv' h b tsb → a ≠ b →
  ∃ h', bimap.swap _ _ h a b = Some h'
    ∧ inv' h' a tsb ∧ inv h' b tsa
    ∧ nodes h' = nodes h
    ∧ (∀ z, z ≠ a → z ≠ b → z ∉ inorder (tsa left_tag) →
            z ∉ inorder (tsb left_tag) → same_at h h' z)
    ∧ bimap.brk _ _ h' = bimap.brk _ _ h.
Proof.
  intros Ha Hb Hab.
  destruct (inv_unused _ _ _ _ _ _ _ Ha (bimap.brk _ _ h) (le_n _))
    as (Hl & Hr & _).
  destruct (swap_tree_at _ a b (bimap.brk _ _ h) (tsa left_tag)
              (tsb left_tag) (inv_tree _ _ _ _ _ _ _ Ha left_tag)
              (inv_tree _ _ _ _ _ _ _ Hb left_tag) Hab Hl)
    as (stl & Hswl & Hal & Hbl & Hfrl & Hdoml).
  destruct (swap_tree_at _ a b (bimap.brk _ _ h) (tsa right_tag)
              (tsb right_tag) (inv_tree _ _ _ _ _ _ _ Ha right_tag)
              (inv_tree _ _ _ _ _ _ _ Hb right_tag) Hab Hr)
    as (str & Hswr & Har & Hbr & Hfrr & Hdomr).
  cbn [bimap.elements] in Hswl, Hswr.
  unfold bimap.swap. rewrite Hswl. cbn [mbind option_bind].
  rewrite Hswr. cbn [mbind option_bind].
  rewrite (inv_size _ _ _ _ _ _ _ Ha), (inv_size _ _ _ _ _ _ _ Hb).
  cbn [mbind option_bind]. eexists. split; [done|].
  assert (unused_above left_t right_t
            (bimap.mk_heap _ _ stl str (nodes h)
               (<[b:=Z.of_nat (length (inorder (tsa left_tag)))]>
                  (<[a:=Z.of_nat (length (inorder (tsb left_tag)))]>
                     (bimap.size_ _ _ h))) (bimap.brk _ _ h))) as Hunused.
  { intros z Hz. destruct (inv_unused _ _ _ _ _ _ _ Ha z Hz) as (? & ? & ?).
    cbn. split_and!; [by apply Hdoml|by apply Hdomr|done]. }
  split_and!; [| |done| |done].
  - split; [by intros [|]|intros s; apply Hb|apply Hb
           |intros s; apply Hb| |apply Hb|done].
    cbn [bimap.size_]. rewrite lookup_insert_ne by done.
    by rewrite lookup_insert_eq.
  - split; [by intros [|]|intros s; apply Ha|apply Ha
           |intros s; apply Ha| |apply Ha|done].
    cbn [bimap.size_]. by rewrite lookup_insert_eq.
  - intros z Hza Hzb Hzta Hztb. split_and!.
    + intros [|]; cbn [bimap.elements bimap.elements_left
                       bimap.elements_right].
      * by apply Hfrl.
      * apply Hfrr; [done|done| |].
        -- intros ?. apply Hzta.
           by apply (inv_elem_of_sides _ _ CompareLeft CompareRight
                       right_tag left_tag h a tsa).
        -- intros ?. apply Hztb.
           by apply (inv_elem_of_sides _ _ CompareLeft' CompareRight'
                       right_tag left_tag h b tsb).
    + done.
    + cbn [bimap.size_]. by rewrite !lookup_insert_ne.
Qed.

(** X19: [a.swap(b)] of two different well-formed maps exchanges their
    contents: afterwards each has the entries, in both orders, and the
    size the other had, and no node has moved or changed.  The
    comparators are not exchanged: the trees that [a] has afterwards are
    search trees for the comparators of [b], and those of [b] for the
    comparators of [a]; where the comparators of the two maps compare
    alike, both maps are well-formed again. *)
Theorem swap_spec h a b :
  wf h a → wf' h b → a ≠ b →
  ∃ h',
    bimap.swap _ _ h a b = Some h'
    ∧ wf' h' a ∧ wf h' b
    ∧ ((∀ s k k', Comparator s k k' = Comparator' s k k') →
       wf h' a ∧ wf' h' b)
    ∧ (∀ s, traverse s h' a = traverse s h b)
    ∧ (∀ s, traverse s h' b = traverse s h a)
    ∧ size h' a = size h b ∧ size h' b = size h a
    ∧ nodes h' = nodes h.
Proof.
  intros [tsa Ha] [tsb Hb] Hab.
  destruct (swap_inv h a b tsa tsb Ha Hb Hab)
    as (h' & Hswap & Ha' & Hb' & Hnodes & _).
  exists h'. split_and!; [done|by eexists|by eexists| | | | | |done].
  - intros Heq. split.
    + exists tsb. apply (inv_alike _ _ CompareLeft' CompareRight'); [|done].
      intros s k k'. symmetry. apply Heq.
    + exists tsa. by apply (inv_alike _ _ CompareLeft CompareRight).
  - intros s. by rewrite (traverse_inv _ _ _ _ Hsw' s h' a tsb Ha'),
                (traverse_inv _ _ _ _ Hsw' s h b tsb Hb).
  - intros s. by rewrite (traverse_inv _ _ _ _ Hsw s h' b tsa Hb'),
                (traverse_inv _ _ _ _ Hsw s h a tsa Ha).
  - by rewrite (wf_size _ _ _ _ h' a tsb Ha'), (wf_size _ _ _ _ h b tsb Hb).
  - by rewrite (wf_size _ _ _ _ h' b tsa Hb'), (wf_size _ _ _ _ h a tsa Ha).
Qed.

Lemma inv_Leaf h this ts :
  inv h this ts → (∀ s, ts s = Leaf) →
  ∀ s, tree_at (elements s h) this Leaf.
Proof.
  intros Hinv Hleaf s. rewrite <- (Hleaf s). apply Hinv.
Qed.

(** Move assignment gives the map the trees and the size of [other]:
    its trees then are search trees for the comparators of [other]. *)
Lemma move_assign_inv h this other ts tso :
  inv h this ts → inv' h other tso → this ≠ other →
  ∃ h', bimap.move_assign _ _ h this other = Some h'
    ∧ inv' h' this tso
    ∧ (∀ s, elements s h' !! other = Some E.null)
    ∧ bimap.size_ _ _ h' !! other = bimap.size_ _ _ h !! other
    ∧ (∀ m, nodes h' !! m
            = if decide (m ∈ inorder (ts left_tag)) then None
              else nodes h !! m)
    ∧ (∀ z, z ≠ this → z ≠ other → z ∉ inorder (ts left_tag) →
            z ∉ inorder (tso left_tag) → same_at h h' z)
    ∧ bimap.brk _ _ h' = bimap.brk _ _ h.
Proof.
  intros Hinv Ho Hne.
  destruct (clear_inv _ _ _ _ Hsw h this ts Hinv)
    as (h1 & ts1 & Hcl & Hinv1 & Hleaf & Hnodes1 & Hfr1 & Hbrk1).
  assert (∀ z, z = other ∨ z ∈ inorder (tso left_tag) → same_at h h1 z)
    as Hsame.
  { intros z Hz.
    destruct (inv_apart _ _ _ _ _ _ h other tso this ts z Ho Hinv)
      as [? ?]; [done|done|]. by apply Hfr1. }
  pose proof (inv_frame _ _ _ _ Hsw' h h1 other tso Ho Hsame
                (inv_unused _ _ _ _ _ _ _ Hinv1)) as Ho1.
  pose proof (inv_Leaf h1 this ts1 Hinv1 Hleaf) as Hempty.
  unfold bimap.move_assign. rewrite bool_decide_eq_true_2 by done.
  rewrite Hcl. cbn [mbind option_bind]. unfold intr_tree.move_assign.
  pose proof (Hempty left_tag) as Hel. pose proof (Hempty right_tag) as Her.
  cbn [bimap.elements] in Hel, Her.
  rewrite (intr_clear_empty _ this Hel).
  cbn [mbind option_bind].
  destruct (move_from_null _ this other (tso left_tag)
              (inv_tree _ _ _ _ _ _ _ Ho1 left_tag))
    as (stl & Hml & Htl & Hol & Hfrl & Hdoml); [|done|].
  { by destruct (Hempty left_tag) as (-> & _). }
  cbn [bimap.elements] in Hml. rewrite Hml. cbn [mbind option_bind].
  cbn [bimap.set_elements bimap.elements_right].
  rewrite (intr_clear_empty _ this Her).
  cbn [mbind option_bind].
  destruct (move_from_null _ this other (tso right_tag)
              (inv_tree _ _ _ _ _ _ _ Ho1 right_tag))
    as (str & Hmr & Htr & Hor & Hfrr & Hdomr); [|done|].
  { by destruct (Hempty right_tag) as (-> & _). }
  cbn [bimap.elements] in Hmr. rewrite Hmr. cbn [mbind option_bind].
  cbn [bimap.set_elements bimap.size_ bimap.elements_left bimap.nodes
       bimap.brk].
  rewrite (inv_size _ _ _ _ _ _ _ Ho1). cbn [mbind option_bind].
  eexists. split; [done|]. split_and!.
  - split.
    + by intros [|].
    + intros s. apply Ho1.
    + apply Ho1.
    + intros s. apply Ho1.
    + cbn. by rewrite lookup_insert_eq.
    + apply Ho1.
    + intros z Hz. cbn in Hz.
      destruct (inv_unused _ _ _ _ _ _ _ Hinv1 z Hz) as (? & ? & ?).
      cbn. split_and!; [by apply Hdoml|by apply Hdomr|done].
  - by intros [|].
  - cbn. rewrite lookup_insert_ne by done.
    by destruct (Hsame other (or_introl eq_refl)) as (_ & _ & ->).
  - done.
  - intros z Hz Hzo Hzt Hzto.
    eapply same_at_trans; [by apply Hfr1|]. split_and!.
    + intros [|]; cbn [bimap.elements bimap.set_size bimap.elements_left
                       bimap.elements_right].
      * by apply Hfrl.
      * apply Hfrr; [done|done|]. intros ?. apply Hzto.
        by apply (inv_elem_of_sides _ _ CompareLeft' CompareRight'
                    right_tag left_tag h other tso).
    + done.
    + cbn. by rewrite lookup_insert_ne.
  - done.
Qed.

(** X20: move assignment [this = std::move(other)] between two different
    well-formed maps erases the entries [this] had and releases their
    nodes, then gives [this] the entries of [other], in both orders, and
    its size; [other] is left with two empty trees and with the [size_]
    it had.  The comparators are not moved: the trees that [this] has
    afterwards are search trees for the comparators of [other]; where
    the comparators of the two maps compare alike, [this] is well-formed
    again. *)
Theorem move_assign_spec h this other :
  wf h this → wf' h other → this ≠ other →
  ∃ h',
    bimap.move_assign _ _ h this other = Some h'
    ∧ wf' h' this
    ∧ ((∀ s k k', Comparator s k k' = Comparator' s k k') → wf h' this)
    ∧ (∀ s, traverse s h' this = traverse s h other)
    ∧ size h' this = size h other
    ∧ (∀ ns, traverse left_tag h this = Some ns →
             ∀ m, nodes h' !! m
                  = if decide (m ∈ ns) then None else nodes h !! m)
    ∧ bimap.empty _ _ h' other = Some true
    ∧ (∀ s, traverse s h' other = Some [])
    ∧ size h' other = size h other.
Proof.
  intros [ts Hinv] [tso Ho] Hne.
  destruct (move_assign_inv h this other ts tso Hinv Ho Hne)
    as (h' & Hmv & Hinv' & Hnull & Hsz & Hnodes & _).
  exists h'. split_and!; [done|by eexists| | | | | | |done].
  - intros Heq. exists tso.
    apply (inv_alike _ _ CompareLeft' CompareRight'); [|done].
    intros s k k'. symmetry. apply Heq.
  - intros s. by rewrite (traverse_inv _ _ _ _ Hsw' s h' this tso Hinv'),
                (traverse_inv _ _ _ _ Hsw' s h other tso Ho).
  - by rewrite (wf_size _ _ _ _ h' this tso Hinv'),
       (wf_size _ _ _ _ h other tso Ho).
  - intros ns. rewrite (traverse_inv _ _ _ _ Hsw left_tag h this ts Hinv).
    by intros [= <-].
  - unfold bimap.empty, intr_tree.empty.
    pose proof (Hnull left_tag) as Hl. cbn [bimap.elements] in Hl.
    by rewrite Hl.
  - intros s. by apply traverse_empty.
Qed.

(** X11: the move constructor gives the new map the entries of a
    well-formed [other], in both orders, and its size; [other] is left
    with two empty trees, and with the [size_] it had.  The comparators
    of the new map are not those of [other] but [CompareLeft()] and
    [CompareRight()]: its trees are search trees for the comparators of
    [other], and the new map is well-formed where the default
    constructed comparators compare like those of [other]. *)
Theorem move_ctor_spec h other :
  wf' h other →
  ∃ h' this,
    bimap.move_ctor _ _ h other = Some (h', this)
    ∧ wf' h' this
    ∧ ((∀ s k k', Comparator s k k' = Comparator' s k k') → wf h' this)
    ∧ (∀ s, traverse s h' this = traverse s h other)
    ∧ size h' this = size h other
    ∧ nodes h' = nodes h
    ∧ bimap.empty _ _ h' other = Some true
    ∧ (∀ s, traverse s h' other = Some [])
    ∧ size h' other = size h other.
Proof.
  intros [ts Hinv].
  destruct (move_ctor_inv _ _ CompareLeft' CompareRight' h other ts Hinv)
    as (h' & Hmv & Hinv' & Hempty & Htr & Hsize).
  pose proof Hmv as Hmv'. unfold bimap.move_ctor in Hmv'.
  exists h', (bimap.brk _ _ h).
  split_and!; [done|by eexists| | | | |done|done|].
  - intros Heq. exists ts.
    apply (inv_alike _ _ CompareLeft' CompareRight'); [|done].
    intros s k k'. symmetry. apply Heq.
  - intros s. rewrite (traverse_inv _ _ _ _ Hsw' s h other ts Hinv).
    by apply (traverse_inv _ _ CompareLeft' CompareRight' Hsw').
  - rewrite (wf_size _ _ _ _ h other ts Hinv).
    apply (wf_size _ _ _ _ h' _ ts Hinv').
  - cbv zeta in Hmv'.
    destruct (intr_tree.move_ctor (<[_:=_]> (bimap.elements_left _ _ h)) _ _)
      as [stl|]; [|discriminate Hmv'].
    cbn [mbind option_bind] in Hmv'.
    destruct (intr_tree.move_ctor _ _ _) as [str|]; [|discriminate Hmv'].
    cbn [mbind option_bind] in Hmv'.
    destruct (bimap.size_ _ _ h !! other); [|discriminate Hmv'].
    cbn [mbind option_bind] in Hmv'. by injection Hmv' as <-.
  - rewrite Hsize. symmetry. apply (wf_size _ _ _ _ h other ts Hinv).
Qed.

(** [insert] into a map leaves a map with other comparators as it
    was. *)
Lemma insert_other_order h this ts o tso l r :
  inv h this ts → inv' h o tso → this ≠ o →
  (∀ s n, n ∈ inorder (ts s) →
          ¬ has_key (Comparator s) (get_key s h) n (pair_key _ _ l r s)) →
  Z.of_nat (length (inorder (ts left_tag))) + 1 < bimap.size_max →
  ∃ h' ts',
    bimap.insert _ _ CompareLeft CompareRight h this l r
    = Some (h', iter this (bimap.brk _ _ h))
    ∧ inv h' this ts' ∧ inv' h' o tso
    ∧ (∀ s, inorder (ts' s) ≡ₚ bimap.brk _ _ h :: inorder (ts s)).
Proof.
  intros Hinv Ho Hne Habs Hbound.
  destruct (insert_absent_frame _ _ _ _ Hsw h this ts l r Hinv Habs Hbound)
    as (h1 & ts1 & Hins & Hinv1 & Hperm & _ & Hfr1 & _).
  exists h1, ts1. split_and!; [done|done| |done].
  apply (inv_frame _ _ _ _ Hsw' h h1 o tso Ho);
    [|apply (inv_unused _ _ _ _ _ _ _ Hinv1)].
  intros z Hz.
  destruct (inv_apart _ _ _ _ _ _ h o tso this ts z Ho Hinv) as [? ?];
    [done|done|].
  pose proof (inv_below _ _ _ _ h o tso z Ho Hz).
  apply Hfr1; [done|done|lia].
Qed.

End comparators_kept.

(** ** [intr_tree::insert] of an equivalent key *)

Section insert_equivalent.

Context {Key : Type}.
Variable Comparator : Key → Key → bool.
Variable get_key : nat → option Key.
Hypothesis Hsw : strict_weak Comparator.

Implicit Types (st : gmap nat E.t) (t l r : tree) (x y p : nat).

Local Abbreviation lt_node := (lt_node Comparator get_key).
Local Abbreviation has_key := (has_key Comparator get_key).
Local Abbreviation keyed := (keyed get_key).
Local Abbreviation bst := (bst Comparator get_key).
Local Abbreviation insert_loop := (intr_tree.insert_loop Comparator get_key).

Lemma insert_loop_equivalent t :
  ∀ st p root f c e n ke,
  root_of t = Some c → rep st p t → keyed t → bst t →
  n ∈ inorder t → get_key e = Some ke → has_key n ke →
  (height t ≤ f)%nat →
  insert_loop f st root c e = Some (st, intr_tree.end_ root).
Proof.
  induction t as [|l IHl x r IHr];
    intros st p root f c e n ke Hc Hrep Hk Hb Hn He Hnk Hf; [done|].
  injection Hc as <-.
  rewrite height_Node in Hf. destruct f as [|f]; [lia|].
  destruct Hrep as (Hx & Hl & Hr). destruct Hb as (Hbl & Hbr & Hlx & Hxr).
  apply (keyed_Node Comparator _ Hsw) in Hk as (Hkl & [kx Hkx] & Hkr).
  destruct Hnk as (kn & Hkn & Hequiv).
  rewrite (insert_loop_S Comparator get_key).
  unfold intr_tree.cmp_node, intr_tree.cmp_key.
  rewrite Hkx, He. cbn [mbind option_bind].
  cbn [inorder] in Hn.
  apply elem_of_app in Hn as [Hn|Hn]; [|apply elem_of_cons in Hn as [->|Hn]].
  - destruct (lt_node_inv _ _ _ _ (Hlx n Hn)) as (? & ? & ? & ? & Hlt).
    simplify_eq.
    assert (Comparator ke kx = true) as H2.
    { eapply (equiv_lt _ Hsw); [|done]. destruct Hequiv. by split. }
    assert (Comparator kx ke = false) as H1.
    { destruct (Comparator kx ke) eqn:H1; [|done].
      pose proof (sw_trans _ Hsw ke kx ke H2 H1) as Hc.
      by rewrite (sw_irrefl _ Hsw ke) in Hc. }
    rewrite H1, H2. rewrite Hx. cbn [mbind option_bind E.left].
    destruct l as [|ll y lr]; [by apply not_elem_of_nil in Hn|].
    cbn [root_of].
    eapply (IHl st x root f y e n ke); [done|done|done|done|done|done| |lia].
    by exists kn.
  - simplify_eq. destruct Hequiv as [-> ->]. done.
  - destruct (lt_node_inv _ _ _ _ (Hxr n Hn)) as (? & ? & ? & ? & Hlt).
    simplify_eq.
    assert (Comparator kx ke = true) as H1 by (by eapply (lt_equiv _ Hsw)).
    rewrite H1. rewrite Hx. cbn [mbind option_bind E.right].
    destruct r as [|rl y rr]; [by apply not_elem_of_nil in Hn|].
    cbn [root_of].
    eapply (IHr st x root f y e n ke); [done|done|done|done|done|done| |lia].
    by exists kn.
Qed.

(** X23: on a linked search tree all of whose elements have keys,
    [intr_tree::insert] of an element whose key is equivalent to the key
    of an element of the tree links nothing and returns [end()]. *)
Theorem intr_insert_equivalent st root t e n ke :
  tree_at st root t → keyed t → bst t →
  n ∈ inorder t → get_key e = Some ke → has_key n ke →
  intr_tree.insert Comparator get_key st root e
  = Some (st, intr_tree.end_ root).
Proof.
  intros Ht Hk Hb Hn He Hnk. pose proof (tree_at_fuel _ _ _ Ht) as Hf.
  destruct Ht as (Hroot & Hrep & _).
  unfold intr_tree.insert. rewrite Hroot. cbn [mbind option_bind E.left].
  destruct t as [|l x r]; [by apply not_elem_of_nil in Hn|].
  cbn [root_of].
  apply (insert_loop_equivalent (Node l x r) st root root _ x e n ke);
    [done|done|done|done|done|done|done|unfold E.fuel_of; lia].
Qed.

End insert_equivalent.

(** ** The claims on concrete maps *)

Section concrete.

Import bimap invariant examples.

Local Abbreviation iter := (λ this n, bimap.mk_iterator (Some n) this).

(** C1: in the map [{(10, "b"), (5, "")}] the key [20] is absent on the
    left and the default right value is in use by the entry [2];
    [at_left_or_default(20)] overwrites the left key of that entry in
    place and returns the default, without a second entry, but the entry
    stays where the key [5] was linked: afterwards [find_left(20)] is
    [end_left] and [at_left(20)] throws. *)
Theorem at_left_or_default_loses_repaired_entry :
  (h ← two_entries;
   Some (find_left h 0%nat 20, find_right h 0%nat EmptyString))
  = Some (Some (end_left 0), Some (iter 0%nat 2%nat))
  ∧ (h ← two_entries;
     '(h', v) ← at_left_or_default h 0%nat 20;
     Some (v, nodes _ _ h' !! 2%nat, size _ _ h' 0%nat,
           traverse left_tag h' 0%nat,
           find_left h' 0%nat 20, at_left h' 0%nat 20))
    = Some (EmptyString, Some (mk_node _ _ (20, EmptyString)), Some 2,
            Some [2%nat; 1%nat],
            Some (end_left 0),
            Some (Thrown (out_of_range "No such element"))).
Proof. split; vm_compute; reflexivity. Qed.

(** C2: after [insert(10, "b")], [insert(5, "")] and
    [at_left_or_default(20)] the traversal of the left tree meets the
    left keys [20] and then [10], which is not increasing. *)
Theorem at_left_or_default_breaks_left_order :
  (h ← two_entries; left_keys h 0%nat) = Some [5; 10]
  ∧ (h ← two_entries;
     '(h', _) ← at_left_or_default h 0%nat 20;
     left_keys h' 0%nat) = Some [20; 10]
  ∧ Z.ltb 20 10 = false.
Proof. split_and!; vm_compute; reflexivity. Qed.

(** C3: [erase_left(10)] on the empty map returns [true] although no
    entry was there; on the map [{(10, "b"), (5, "")}] it removes the
    entry with the largest left key and returns [false]. *)
Theorem erase_key_result_wrong :
  ('(h', b) ← erase_left_key new_map 0%nat 10;
   Some (b, traverse left_tag h' 0%nat))
  = Some (true, Some [])
  ∧ (h ← two_entries;
     '(h', b) ← erase_left_key h 0%nat 10;
     Some (b, traverse left_tag h 0%nat, traverse left_tag h' 0%nat,
           traverse right_tag h' 0%nat, size _ _ h' 0%nat))
    = Some (false, Some [2%nat; 1%nat], Some [2%nat], Some [2%nat], Some 1).
Proof. split; vm_compute; reflexivity. Qed.

(** C4: after the move constructor or the move assignment took the two
    entries of a map, the moved-from map is [empty()] and both of its
    traversals meet nothing, but its [size()] still is [2]. *)
Theorem moved_from_size_stale :
  (h ← two_entries;
   '(h', m) ← move_ctor _ _ h 0%nat;
   Some (empty _ _ h' 0%nat, size _ _ h' 0%nat,
         traverse left_tag h' 0%nat, traverse right_tag h' 0%nat,
         size _ _ h' m, traverse left_tag h' m, traverse right_tag h' m))
  = Some (Some true, Some 2, Some [], Some [],
          Some 2, Some [2%nat; 1%nat], Some [2%nat; 1%nat])
  ∧ (h ← two_entries;
     let '(h1, m) := ctor _ _ h in
     h' ← move_assign _ _ h1 m 0%nat;
     Some (empty _ _ h' 0%nat, size _ _ h' 0%nat,
           traverse left_tag h' 0%nat, traverse right_tag h' 0%nat,
           size _ _ h' m, traverse left_tag h' m, traverse right_tag h' m))
    = Some (Some true, Some 2, Some [], Some [],
            Some 2, Some [2%nat; 1%nat], Some [2%nat; 1%nat]).
Proof. split; vm_compute; reflexivity. Qed.

(** C5: [unlink] of the leaf [2] takes it out of its parent but leaves
    its own parent pointer set, so that [in_tree] still holds of it; a
    second [unlink] of it then cuts the other child [3] off the
    parent.  [unlink] of [1], which has two children, does reset the
    three pointers of [1].  After [clear] of the tree, which unlinks
    every element, [in_tree] still holds of all three. *)
Theorem unlink_leaf_not_detached :
  (st ← E.unlink 4 three_elements 2%nat;
   Some (st !! 1%nat, st !! 2%nat, E.in_tree <$> st !! 2%nat))
  = Some (Some (E.mk None (Some 3%nat) (Some 0%nat)),
          Some (E.mk None None (Some 1%nat)), Some true)
  ∧ (st ← E.unlink 4 three_elements 2%nat;
     st' ← E.unlink 4 st 2%nat;
     Some (st' !! 1%nat, st' !! 3%nat))
    = Some (Some (E.mk None None (Some 0%nat)),
            Some (E.mk None None (Some 1%nat)))
  ∧ (st ← E.unlink 4 three_elements 1%nat; Some (st !! 1%nat))
    = Some (Some E.null)
  ∧ (st ← intr_tree.clear three_elements 0%nat;
     Some (intr_tree.empty st 0%nat, E.in_tree <$> st !! 1%nat,
           E.in_tree <$> st !! 2%nat, E.in_tree <$> st !! 3%nat))
    = Some (Some true, Some true, Some true, Some true).
Proof. split_and!; vm_compute; reflexivity. Qed.

(** C6: after [insert(10, "b")], [insert(5, "")] and
    [at_left_or_default(20)] the map has the left keys [20] and [10]
    and the size [2], and the left key [20] is in use by the entry [2];
    [insert(20, "c")] looks for [20] to the right of the entry with the
    key [10], finds nothing, and creates the entry [3] instead of
    returning [end_left]: the size becomes [3] and the left keys are
    [20], [10], [20].  The entry [2] came to its key through the
    overwrite of C1 and C2. *)
Theorem insert_duplicates_rewritten_key :
  (h ← rewritten_leaf;
   Some (left_keys h 0%nat, size _ _ h 0%nat, nodes _ _ h !! 2%nat,
         traverse left_tag h 0%nat))
  = Some (Some [20; 10], Some 2, Some (mk_node _ _ (20, EmptyString)),
          Some [2%nat; 1%nat])
  ∧ (h ← rewritten_leaf;
     '(h', i) ← insert h 0%nat 20 "c"%string;
     Some (i, size _ _ h' 0%nat, left_keys h' 0%nat,
           traverse left_tag h' 0%nat, nodes _ _ h' !! 3%nat))
    = Some (iter 0%nat 3%nat, Some 3, Some [20; 10; 20],
            Some [2%nat; 1%nat; 3%nat],
            Some (mk_node _ _ (20, "c"%string))).
Proof. split; vm_compute; reflexivity. Qed.

(** C8: after [insert(5, "")], [insert(10, "a")] and
    [at_left_or_default(20)] the entry [2] of the map still is the pair
    [(10, "a")] and both traversals meet it, so the left key [10] is in
    use; [at_left(10)] descends to the left of the root, whose key now
    is [20], and throws [out_of_range], while [at_right("a")] returns
    [10].  The root came to its key through the overwrite of C1 and
    C2. *)
Theorem at_left_misses_key_in_use :
  (h ← rewritten_root;
   Some (nodes _ _ h !! 2%nat, traverse left_tag h 0%nat,
         traverse right_tag h 0%nat, left_keys h 0%nat))
  = Some (Some (mk_node _ _ (10, "a"%string)), Some [1%nat; 2%nat],
          Some [1%nat; 2%nat], Some [20; 10])
  ∧ (h ← rewritten_root; at_left h 0%nat 10)
    = Some (Thrown (out_of_range "No such element"))
  ∧ (h ← rewritten_root;
     bimap.at_right Z string Z.ltb String.ltb h 0%nat "a"%string)
    = Some (Returned 10).
Proof. split_and!; vm_compute; reflexivity. Qed.

(** C9: the pair [(10, "a")] is inserted by [insert(10, "a")] and found
    by [find_left(10)] at the entry [2]; after the later
    [at_left_or_default(20)], which neither erases nor rewrites that
    entry, [find_left(10)] is [end_left], while [find_right("a")] still
    is at the entry [2] and its [flip()] is the left iterator at [2],
    whose left key is [10].  It is the overwrite of C1 and C2 that
    takes the entry out of the reach of [find_left]. *)
Theorem find_left_misses_inserted_pair :
  ('(h, _) ← insert new_map 0%nat 5 EmptyString;
   '(h, i) ← insert h 0%nat 10 "a"%string;
   Some (i, find_left h 0%nat 10))
  = Some (iter 0%nat 2%nat, Some (iter 0%nat 2%nat))
  ∧ (h ← rewritten_root;
     Some (nodes _ _ h !! 2%nat, find_left h 0%nat 10,
           find_right h 0%nat "a"%string))
    = Some (Some (mk_node _ _ (10, "a"%string)), Some (end_left 0),
            Some (iter 0%nat 2%nat))
  ∧ (h ← rewritten_root;
     i ← find_right h 0%nat "a"%string;
     j ← flip _ _ right_tag h i;
     Some (j, deref _ _ left_tag h j))
    = Some (iter 0%nat 2%nat, Some 10).
Proof. split_and!; vm_compute; reflexivity. Qed.

End concrete.

(** ** The theorems of the operations at concrete maps *)

Section witnesses.

Import bimap invariant examples.

Local Abbreviation iter := (λ this n, bimap.mk_iterator (Some n) this).
Local Abbreviation wf := (wf Z Z Z.ltb Z.ltb).

Lemma Z_ltb_strict_weak : strict_weak Z.ltb.
Proof.
  split.
  - intros a. apply Z.ltb_irrefl.
  - intros a b c. rewrite !Z.ltb_lt. lia.
  - intros a b c. unfold equiv_key. rewrite !Z.ltb_ge. lia.
Qed.

Lemma int_strict_weak s : strict_weak (Comparator Z Z Z.ltb Z.ltb s).
Proof. destruct s; exact Z_ltb_strict_weak. Qed.

Lemma int_map_inv : inv Z Z Z.ltb Z.ltb int_map 0 (λ _, Leaf).
Proof. apply (ctor_inv Z Z Z.ltb Z.ltb), unused_above_empty. Qed.

Lemma int_map_wf : wf int_map 0.
Proof. eexists. exact int_map_inv. Qed.

Lemma int_one_entry_wf : wf int_one_entry 0.
Proof.
  destruct (insert_absent Z Z Z.ltb Z.ltb int_strict_weak int_map 0%nat
              (λ _, Leaf) 5 7 int_map_inv)
    as (h' & ts' & Hins & Hinv' & _).
  - intros s n Hn. by apply not_elem_of_nil in Hn.
  - done.
  - unfold int_one_entry. rewrite Hins. by exists ts'.
Qed.

Lemma int_map_unused s k : ¬ key_in_use Z Z Z.ltb Z.ltb s int_map 0 k.
Proof.
  intros (n & (ns & Htr & Hn) & _). destruct s; vm_compute in Htr;
    injection Htr as <-; by apply not_elem_of_nil in Hn.
Qed.

Lemma insert_spec_witness :
  wf int_map 0
  ∧ (∃ h' n,
       bimap.insert Z Z Z.ltb Z.ltb int_map 0%nat 5 7 = Some (h', iter 0%nat n)
       ∧ wf h' 0 ∧ size Z Z h' 0%nat = Some 1)
  ∧ bimap.insert Z Z Z.ltb Z.ltb int_one_entry 0%nat 5 9
    = Some (int_one_entry, end_left 0).
Proof.
  split; [exact int_map_wf|]. split.
  - destruct (proj2 (insert_spec Z Z Z.ltb Z.ltb int_strict_weak
                       int_map 0%nat 5 7 int_map_wf)
                (int_map_unused left_tag 5) (int_map_unused right_tag 7)
                0 eq_refl eq_refl)
      as (h' & n & Hins & _ & Hwf & _ & _ & _ & Hsz & _).
    by exists h', n.
  - apply (proj1 (insert_spec Z Z Z.ltb Z.ltb int_strict_weak
                    int_one_entry 0%nat 5 9 int_one_entry_wf)).
    left. exists 1%nat. split.
    + exists [1%nat]. split; [vm_compute; reflexivity|constructor].
    + exists 5. split; [vm_compute; reflexivity|]. split; reflexivity.
Defined.

Lemma int_one_entry_resident s :
  resident Z Z s int_one_entry 0 1.
Proof. exists [1%nat]. split; [by destruct s|constructor]. Qed.


Lemma at_spec_witness :
  wf int_one_entry 0
  ∧ bimap.at_left Z Z Z.ltb Z.ltb int_one_entry 0%nat 5 = Some (Returned 7)
  ∧ bimap.at_right Z Z Z.ltb Z.ltb int_one_entry 0%nat 7 = Some (Returned 5)
  ∧ bimap.at_left Z Z Z.ltb Z.ltb int_map 0%nat 5
    = Some (Thrown (out_of_range "No such element")).
Proof.
  split; [exact int_one_entry_wf|]. split_and!.
  - apply (proj1 (at_spec Z Z Z.ltb Z.ltb int_strict_weak left_tag
                    int_one_entry 0%nat 5 int_one_entry_wf)
             1%nat (mk_node Z Z (5, 7)) (int_one_entry_resident left_tag));
      [|reflexivity].
    exists 5. split; [reflexivity|]. split; reflexivity.
  - apply (proj1 (at_spec Z Z Z.ltb Z.ltb int_strict_weak right_tag
                    int_one_entry 0%nat 7 int_one_entry_wf)
             1%nat (mk_node Z Z (5, 7)) (int_one_entry_resident right_tag));
      [|reflexivity].
    exists 7. split; [reflexivity|]. split; reflexivity.
  - apply (proj2 (at_spec Z Z Z.ltb Z.ltb int_strict_weak left_tag
                    int_map 0%nat 5 int_map_wf)).
    apply int_map_unused.
Defined.

Lemma bijection_flip_spec_witness :
  wf int_one_entry 0
  ∧ bimap.find_left Z Z Z.ltb Z.ltb int_one_entry 0%nat 5
    = Some (iter 0%nat 1%nat)
  ∧ deref Z Z right_tag int_one_entry (iter 0%nat 1%nat) = Some 7
  ∧ bimap.find_right Z Z Z.ltb Z.ltb int_one_entry 0%nat 7
    = Some (iter 0%nat 1%nat)
  ∧ deref Z Z left_tag int_one_entry (iter 0%nat 1%nat) = Some 5
  ∧ flip Z Z left_tag int_one_entry (iter 0%nat 1%nat)
    = Some (iter 0%nat 1%nat)
  ∧ flip Z Z left_tag int_one_entry (end_left 0) = Some (end_right 0).
Proof.
  split; [exact int_one_entry_wf|].
  destruct (bijection_flip_spec Z Z Z.ltb Z.ltb int_strict_weak
              int_one_entry 0%nat int_one_entry_wf) as [Hentry Hend].
  destruct (Hentry left_tag 1%nat 5 7 (int_one_entry_resident left_tag)
              eq_refl) as (Hfl & Hdr & Hfr & Hdl & Hflip).
  split_and!; [exact Hfl|exact Hdr|exact Hfr|exact Hdl| |].
  - exact (proj1 (Hflip left_tag)).
  - exact (proj1 (Hend left_tag)).
Defined.

Lemma insert_empty_returns_null_witness :
  (∀ s, strict_weak (Comparator Z Z Z.ltb Z.ltb s))
  ∧ intr_tree.insert Z.ltb (get_key Z Z left_tag int_map)
      (<[1%nat := E.null]> (elements_left Z Z int_map)) 0 1
    = Some (<[1%nat := E.mk None None (Some 0%nat)]>
              (<[0%nat := E.mk (Some 1%nat) None None]>
                 (<[1%nat := E.null]> (elements_left Z Z int_map))), None)
  ∧ (∃ h', insert_no_check Z Z Z.ltb Z.ltb int_map 0%nat 5 7
           = Some (h', iter 0%nat 1%nat)
           ∧ bimap.traverse Z Z left_tag h' 0%nat = Some [1%nat]
           ∧ bimap.traverse Z Z right_tag h' 0%nat = Some [1%nat]).
Proof.
  split; [exact int_strict_weak|].
  destruct (insert_empty_returns_null Z Z Z.ltb Z.ltb int_strict_weak)
    as (Htree & _ & Hmap).
  split.
  - apply (Htree Z Z.ltb (get_key Z Z left_tag int_map)
             (<[1%nat := E.null]> (elements_left Z Z int_map)) 0%nat 1%nat
             E.null E.null);
      [reflexivity|reflexivity|discriminate|reflexivity].
  - exact (Hmap int_map 0%nat 5 7 int_map_inv).
Defined.

End witnesses.

(** ** The further properties on concrete maps *)

Section further_witnesses.

Import bimap invariant examples.

Local Abbreviation iter := (λ this n, bimap.mk_iterator (Some n) this).
Local Abbreviation wf := (wf Z Z Z.ltb Z.ltb).
Local Abbreviation built := (built Z Z Z.ltb Z.ltb).

Lemma int_map_built : built int_map 0.
Proof.
  apply (built_ctor Z Z Z.ltb Z.ltb (empty_heap Z Z)), unused_above_empty.
Qed.

Lemma built_insert_default (h : bimap.heap Z Z) this l r :
  built h this →
  (∀ sz, size Z Z h this = Some sz → sz + 1 < size_max) →
  built (default h (fst <$> bimap.insert Z Z Z.ltb Z.ltb h this l r)) this.
Proof.
  intros Hb Hbound.
  destruct (bimap.insert Z Z Z.ltb Z.ltb h this l r) as [[h' i]|] eqn:Hins;
    cbn; [by eapply built_insert|done].
Qed.

Lemma int_one_entry_built : built int_one_entry 0.
Proof.
  apply built_insert_default; [exact int_map_built|].
  intros sz Hsz. vm_compute in Hsz. by injection Hsz as <-.
Qed.

Lemma int_default_entry_built : built int_default_entry 0.
Proof.
  apply built_insert_default; [exact int_map_built|].
  intros sz Hsz. vm_compute in Hsz. by injection Hsz as <-.
Qed.

Lemma int_three_entries_built : built int_three_entries 0.
Proof.
  unfold int_three_entries. cbv zeta.
  apply built_insert_default; [apply built_insert_default|].
  - exact int_one_entry_built.
  - intros sz Hsz. vm_compute in Hsz. by injection Hsz as <-.
  - intros sz Hsz. vm_compute in Hsz. by injection Hsz as <-.
Qed.

Lemma int_three_entries_wf : wf int_three_entries 0.
Proof.
  exact (built_wf Z Z Z.ltb Z.ltb int_strict_weak _ _ int_three_entries_built).
Qed.

Lemma int_default_entry_wf : wf int_default_entry 0.
Proof.
  exact (built_wf Z Z Z.ltb Z.ltb int_strict_weak _ _ int_default_entry_built).
Qed.

Lemma int_two_maps_wf : wf int_two_maps 0 ∧ wf int_two_maps 2.
Proof.
  destruct int_one_entry_wf as [ts Hinv].
  pose proof (ctor_other_inv Z Z Z.ltb Z.ltb int_strict_weak int_one_entry 0
                ts Hinv) as Ho.
  pose proof (ctor_inv Z Z Z.ltb Z.ltb int_one_entry
                (inv_unused _ _ _ _ _ _ _ Hinv)) as Hnew.
  destruct (insert_other_inv Z Z Z.ltb Z.ltb int_strict_weak
              (ctor Z Z int_one_entry).1 2%nat (λ _, Leaf) 0%nat ts 4 6
              Hnew Ho) as (h' & Hins & Hwf & Ho').
  - done.
  - intros s n Hn. by apply not_elem_of_nil in Hn.
  - done.
  - unfold int_two_maps. cbv zeta. rewrite Hins. cbn [fmap option_fmap
      option_map default fst]. split; [by exists ts|done].
Qed.

Lemma int_one_entry_has_key_left :
  has_key Z.ltb (get_key Z Z left_tag int_one_entry) 1 5.
Proof. exists 5. split; [reflexivity|]. split; reflexivity. Qed.

Lemma int_one_entry_free_left k :
  k ≠ 5 → ¬ key_in_use Z Z Z.ltb Z.ltb left_tag int_one_entry 0 k.
Proof.
  intros Hk (n & (ns & Htr & Hn) & (kn & Hkn & [H1 H2])).
  vm_compute in Htr. injection Htr as <-.
  apply list_elem_of_singleton in Hn as ->.
  vm_compute in Hkn. injection Hkn as <-.
  cbn [Comparator] in H1, H2. apply Z.ltb_ge in H1, H2. apply Hk. lia.
Qed.

Lemma int_one_entry_free_right k :
  k ≠ 7 → ¬ key_in_use Z Z Z.ltb Z.ltb right_tag int_one_entry 0 k.
Proof.
  intros Hk (n & (ns & Htr & Hn) & (kn & Hkn & [H1 H2])).
  vm_compute in Htr. injection Htr as <-.
  apply list_elem_of_singleton in Hn as ->.
  vm_compute in Hkn. injection Hkn as <-.
  cbn [Comparator] in H1, H2. apply Z.ltb_ge in H1, H2. apply Hk. lia.
Qed.

Lemma int_default_entry_free_left k :
  k ≠ 5 → ¬ key_in_use Z Z Z.ltb Z.ltb left_tag int_default_entry 0 k.
Proof.
  intros Hk (n & (ns & Htr & Hn) & (kn & Hkn & [H1 H2])).
  vm_compute in Htr. injection Htr as <-.
  apply list_elem_of_singleton in Hn as ->.
  vm_compute in Hkn. injection Hkn as <-.
  cbn [Comparator] in H1, H2. apply Z.ltb_ge in H1, H2. apply Hk. lia.
Qed.

Lemma built_size_consistent_witness :
  built int_three_entries 0
  ∧ ∃ nl nr,
      bimap.traverse Z Z left_tag int_three_entries 0 = Some nl
      ∧ bimap.traverse Z Z right_tag int_three_entries 0 = Some nr
      ∧ nl ≡ₚ nr ∧ NoDup nl
      ∧ size Z Z int_three_entries 0 = Some (Z.of_nat (length nl))
      ∧ bimap.empty Z Z int_three_entries 0 = Some (bool_decide (nl = [])).
Proof.
  split; [exact int_three_entries_built|].
  exact (built_size_consistent Z Z Z.ltb Z.ltb int_strict_weak
           int_three_entries 0%nat int_three_entries_built).
Defined.

Lemma built_keys_sorted_witness :
  built int_three_entries 0
  ∧ ∃ ks, keys Z Z right_tag int_three_entries 0 = Some ks
          ∧ StronglySorted
              (λ a b, Comparator Z Z Z.ltb Z.ltb right_tag a b = true) ks.
Proof.
  split; [exact int_three_entries_built|].
  exact (built_keys_sorted Z Z Z.ltb Z.ltb int_strict_weak right_tag
           int_three_entries 0%nat int_three_entries_built).
Defined.

Lemma resident_keys_unique_witness :
  wf int_one_entry 0
  ∧ resident Z Z left_tag int_one_entry 0 1
  ∧ has_key Z.ltb (get_key Z Z left_tag int_one_entry) 1 5
  ∧ 1%nat = 1%nat.
Proof.
  split; [exact int_one_entry_wf|].
  split; [exact (int_one_entry_resident left_tag)|].
  split; [exact int_one_entry_has_key_left|].
  exact (resident_keys_unique Z Z Z.ltb Z.ltb int_strict_weak left_tag
           int_one_entry 0%nat 1%nat 1%nat 5 int_one_entry_wf
           (int_one_entry_resident left_tag)
           (int_one_entry_resident left_tag)
           int_one_entry_has_key_left int_one_entry_has_key_left).
Defined.


Lemma erase_then_lookup_witness :
  wf int_one_entry 0
  ∧ resident Z Z left_tag int_one_entry 0 1
  ∧ ∃ h' i,
      erase Z Z left_tag int_one_entry 0%nat (iter 0%nat 1%nat)
      = Some (h', i)
      ∧ bimap.find_left Z Z Z.ltb Z.ltb h' 0%nat 5 = Some (end_left 0)
      ∧ bimap.find_right Z Z Z.ltb Z.ltb h' 0%nat 7 = Some (end_right 0)
      ∧ bimap.at_left Z Z Z.ltb Z.ltb h' 0%nat 5
        = Some (Thrown (out_of_range "No such element")).
Proof.
  split; [exact int_one_entry_wf|].
  split; [exact (int_one_entry_resident left_tag)|].
  destruct (erase Z Z left_tag int_one_entry 0%nat (iter 0%nat 1%nat))
    as [[h' i]|] eqn:Her; [|vm_compute in Her; discriminate Her].
  exists h', i. split; [reflexivity|].
  destruct (erase_then_lookup Z Z Z.ltb Z.ltb int_strict_weak left_tag
              int_one_entry 0%nat 1%nat 5 7 h' i int_one_entry_wf
              (int_one_entry_resident left_tag) eq_refl Her)
    as (Hfl & Hfr & Hal & _).
  split_and!; [exact Hfl|exact Hfr|exact Hal].
Defined.

Lemma erase_key_effect_witness :
  wf int_one_entry 0
  ∧ (∃ h', erase_key Z Z Z.ltb Z.ltb left_tag int_one_entry 0%nat 5
           = Some (h', true)
           ∧ wf h' 0
           ∧ bimap.traverse Z Z left_tag h' 0%nat = Some [])
  ∧ erase_key Z Z Z.ltb Z.ltb left_tag int_one_entry 0%nat 9
    = Some (int_one_entry, false).
Proof.
  split; [exact int_one_entry_wf|].
  destruct (erase_key_effect Z Z Z.ltb Z.ltb int_strict_weak left_tag
              int_one_entry 0%nat 5 int_one_entry_wf) as [Hfound _].
  destruct (erase_key_effect Z Z Z.ltb Z.ltb int_strict_weak left_tag
              int_one_entry 0%nat 9 int_one_entry_wf) as [_ Habsent].
  split.
  - destruct (Hfound [] 1%nat [] eq_refl int_one_entry_has_key_left)
      as (h' & Her & Hwf & Htr & _).
    exists h'. split_and!; [exact Her|exact Hwf|exact Htr].
  - destruct (Habsent (int_one_entry_free_left 9 ltac:(discriminate)))
      as (ns & Htr & Her).
    vm_compute in Htr. injection Htr as <-. exact Her.
Defined.

Lemma at_or_default_present_witness :
  wf int_one_entry 0
  ∧ resident Z Z left_tag int_one_entry 0 1
  ∧ has_key Z.ltb (get_key Z Z left_tag int_one_entry) 1 5
  ∧ bimap.at_or_default Z Z Z.ltb Z.ltb int_default left_tag int_one_entry
      0%nat 5
    = Some (int_one_entry, 7).
Proof.
  split; [exact int_one_entry_wf|].
  split; [exact (int_one_entry_resident left_tag)|].
  split; [exact int_one_entry_has_key_left|].
  exact (at_or_default_present Z Z Z.ltb Z.ltb int_default int_strict_weak
           left_tag int_one_entry 0%nat 5 1%nat (mk_node Z Z (5, 7))
           int_one_entry_wf (int_one_entry_resident left_tag)
           int_one_entry_has_key_left eq_refl).
Defined.

Lemma at_or_default_inserts_witness :
  wf int_one_entry 0
  ∧ ¬ key_in_use Z Z Z.ltb Z.ltb left_tag int_one_entry 0 9
  ∧ ¬ key_in_use Z Z Z.ltb Z.ltb right_tag int_one_entry 0 0
  ∧ ∃ h', bimap.at_or_default Z Z Z.ltb Z.ltb int_default left_tag
            int_one_entry 0%nat 9 = Some (h', 0)
          ∧ wf h' 0
          ∧ ∃ ns, bimap.traverse Z Z left_tag h' 0%nat = Some ns
                  ∧ length ns = 2%nat.
Proof.
  assert (9 ≠ 5) as H95 by discriminate.
  assert (0 ≠ 7) as H07 by discriminate.
  split; [exact int_one_entry_wf|].
  split; [exact (int_one_entry_free_left 9 H95)|].
  split; [exact (int_one_entry_free_right 0 H07)|].
  destruct (at_or_default_inserts Z Z Z.ltb Z.ltb int_default
              int_strict_weak left_tag int_one_entry 0%nat 9
              int_one_entry_wf (int_one_entry_free_left 9 H95)
              (int_one_entry_free_right 0 H07))
    as (h' & n & nd & Hat & Hwf & _ & _ & _ & _ & Htr).
  - intros sz Hsz. vm_compute in Hsz. injection Hsz as <-. reflexivity.
  - exists h'. split_and!; [exact Hat|exact Hwf|].
    destruct (Htr left_tag [1%nat] eq_refl) as (ns' & Hns & Hperm).
    exists ns'. split; [exact Hns|].
    exact (Permutation_length Hperm).
Defined.

Lemma at_or_default_overwrites_witness :
  wf int_default_entry 0
  ∧ ¬ key_in_use Z Z Z.ltb Z.ltb left_tag int_default_entry 0 9
  ∧ resident Z Z right_tag int_default_entry 0 1
  ∧ has_key Z.ltb (get_key Z Z right_tag int_default_entry) 1 0
  ∧ ∃ h', bimap.at_or_default Z Z Z.ltb Z.ltb int_default left_tag
            int_default_entry 0%nat 9 = Some (h', 0)
          ∧ get_key Z Z left_tag h' 1 = Some 9
          ∧ get_key Z Z right_tag h' 1 = Some 0
          ∧ size Z Z h' 0%nat = Some 1.
Proof.
  assert (9 ≠ 5) as H95 by discriminate.
  assert (resident Z Z right_tag int_default_entry 0 1) as Hres.
  { exists [1%nat]. split; [reflexivity|apply list_elem_of_here]. }
  assert (has_key Z.ltb (get_key Z Z right_tag int_default_entry) 1 0)
    as Hkey.
  { exists 0. split; [reflexivity|]. split; reflexivity. }
  split; [exact int_default_entry_wf|].
  split; [exact (int_default_entry_free_left 9 H95)|].
  split; [exact Hres|]. split; [exact Hkey|].
  destruct (at_or_default_overwrites Z Z Z.ltb Z.ltb int_default
              int_strict_weak left_tag int_default_entry 0%nat 9 1%nat
              (mk_node Z Z (5, 0)) int_default_entry_wf
              (int_default_entry_free_left 9 H95) Hres Hkey eq_refl)
    as (h' & Hat & _ & Hkl & Hkr & Hsz & _).
  exists h'. split_and!; [exact Hat|exact Hkl|exact Hkr|exact Hsz].
Defined.

Lemma lower_bound_spec_witness :
  wf int_three_entries 0
  ∧ ∃ pre post,
      bimap.traverse Z Z left_tag int_three_entries 0%nat
      = Some (pre ++ post)
      ∧ Forall (λ n, ∃ kn, get_key Z Z left_tag int_three_entries n = Some kn
                           ∧ Comparator Z Z Z.ltb Z.ltb left_tag kn 4 = true)
          pre
      ∧ Forall (λ n, ∃ kn, get_key Z Z left_tag int_three_entries n = Some kn
                           ∧ Comparator Z Z Z.ltb Z.ltb left_tag kn 4 = false)
          post
      ∧ bimap.lower_bound Z Z Z.ltb Z.ltb left_tag int_three_entries 0%nat 4
        = Some (iter 0%nat (hd 0%nat post)).
Proof.
  split; [exact int_three_entries_wf|].
  exact (lower_bound_spec Z Z Z.ltb Z.ltb int_strict_weak left_tag
           int_three_entries 0%nat 4 int_three_entries_wf).
Defined.

Lemma upper_bound_spec_witness :
  wf int_three_entries 0
  ∧ ∃ pre post,
      bimap.traverse Z Z left_tag int_three_entries 0%nat
      = Some (pre ++ post)
      ∧ Forall (λ n, ∃ kn, get_key Z Z left_tag int_three_entries n = Some kn
                           ∧ Comparator Z Z Z.ltb Z.ltb left_tag 5 kn = false)
          pre
      ∧ Forall (λ n, ∃ kn, get_key Z Z left_tag int_three_entries n = Some kn
                           ∧ Comparator Z Z Z.ltb Z.ltb left_tag 5 kn = true)
          post
      ∧ bimap.upper_bound Z Z Z.ltb Z.ltb left_tag int_three_entries 0%nat 5
        = Some (iter 0%nat (hd 0%nat post)).
Proof.
  split; [exact int_three_entries_wf|].
  exact (upper_bound_spec Z Z Z.ltb Z.ltb int_strict_weak left_tag
           int_three_entries 0%nat 5 int_three_entries_wf).
Defined.



Lemma erase_range_spec_witness :
  wf int_three_entries 0
  ∧ bimap.traverse Z Z left_tag int_three_entries 0%nat
    = Some ([2%nat] ++ [1%nat] ++ [3%nat])
  ∧ ∃ h',
      erase_range Z Z left_tag int_three_entries 0%nat (iter 0%nat 1%nat)
        (iter 0%nat 3%nat)
      = Some (h', iter 0%nat 3%nat)
      ∧ wf h' 0
      ∧ bimap.traverse Z Z left_tag h' 0%nat = Some [2%nat; 3%nat]
      ∧ bimap.traverse Z Z right_tag h' 0%nat = Some [3%nat; 2%nat]
      ∧ nodes Z Z h' !! 1%nat = None
      ∧ size Z Z h' 0%nat = Some 2.
Proof.
  split; [exact int_three_entries_wf|]. split; [reflexivity|].
  destruct (erase_range_spec Z Z Z.ltb Z.ltb int_strict_weak left_tag
              int_three_entries 0%nat [2%nat] [1%nat] [3%nat]
              int_three_entries_wf eq_refl)
    as (h' & Her & Hwf & Htr & Hother & Hnodes & Hsz).
  exists h'.
  split_and!; [exact Her|exact Hwf|exact Htr| |exact (Hnodes 1%nat)
              |exact Hsz].
  exact (Hother right_tag [3%nat; 1%nat; 2%nat] eq_refl).
Defined.

Lemma clear_spec_witness :
  wf int_three_entries 0
  ∧ ∃ h',
      clear Z Z int_three_entries 0%nat = Some h'
      ∧ wf h' 0
      ∧ (∀ s, bimap.traverse Z Z s h' 0%nat = Some [])
      ∧ size Z Z h' 0%nat = Some 0
      ∧ bimap.empty Z Z h' 0%nat = Some true
      ∧ nodes Z Z h' !! 2%nat = None.
Proof.
  split; [exact int_three_entries_wf|].
  destruct (clear_spec Z Z Z.ltb Z.ltb int_strict_weak int_three_entries
              0%nat int_three_entries_wf)
    as (h' & Hcl & Hwf & Htr & Hsz & He & Hnodes).
  exists h'.
  split_and!; [exact Hcl|exact Hwf|exact Htr|exact Hsz|exact He|].
  exact (Hnodes [2%nat; 1%nat; 3%nat] eq_refl 2%nat).
Defined.


Lemma copy_ctor_spec_witness :
  wf int_three_entries 0
  ∧ ∃ h' this,
      copy_ctor Z Z Z.ltb Z.ltb int_three_entries 0%nat = Some (h', this)
      ∧ this ≠ 0%nat
      ∧ wf h' this ∧ wf h' 0
      ∧ pairs Z Z h' this = Some [(3, 9); (5, 7); (8, 1)]
      ∧ pairs Z Z h' 0 = Some [(3, 9); (5, 7); (8, 1)]
      ∧ keys Z Z right_tag h' this = Some [1; 7; 9]
      ∧ size Z Z h' this = Some 3.
Proof.
  split; [exact int_three_entries_wf|].
  destruct (copy_ctor_spec Z Z Z.ltb Z.ltb int_strict_weak int_three_entries
              0%nat int_three_entries_wf)
    as (h' & this & ps & Hcp & Hne & Hwt & Hwo & Hps & Hpo & Hpt & Hk & _
        & Hsz & _).
  vm_compute in Hps. injection Hps as <-.
  exists h', this.
  split_and!; [exact Hcp|exact Hne|exact Hwt|exact Hwo|exact Hpt|exact Hpo
              |exact (Hk right_tag)|exact Hsz].
Defined.


Lemma int_one_entry_tree :
  tree_at (elements_left Z Z int_one_entry) 0 (Node Leaf 1 Leaf).
Proof.
  split_and!; [reflexivity|by split_and!| |].
  - apply NoDup_singleton.
  - cbn. intros [=]%list_elem_of_singleton.
Qed.

Lemma intr_insert_equivalent_witness :
  strict_weak Z.ltb
  ∧ tree_at (elements_left Z Z int_one_entry) 0 (Node Leaf 1 Leaf)
  ∧ intr_tree.insert Z.ltb (λ _ : nat, Some 5)
      (elements_left Z Z int_one_entry) 0 7
    = Some (elements_left Z Z int_one_entry, intr_tree.end_ 0).
Proof.
  split; [exact Z_ltb_strict_weak|]. split; [exact int_one_entry_tree|].
  apply (intr_insert_equivalent Z.ltb (λ _ : nat, Some 5) Z_ltb_strict_weak
           (elements_left Z Z int_one_entry) 0%nat (Node Leaf 1 Leaf)
           7%nat 1%nat 5 int_one_entry_tree).
  - intros n _. exists 5. reflexivity.
  - split_and!; [exact I|exact I| |]; intros y Hy;
      destruct (not_elem_of_nil y Hy).
  - apply list_elem_of_here.
  - reflexivity.
  - exists 5. split; [reflexivity|]. split; reflexivity.
Defined.

Local Abbreviation wf' := (invariant.wf Z Z Z.gtb Z.gtb).

Lemma Z_gtb_strict_weak : strict_weak Z.gtb.
Proof.
  split.
  - intros a. rewrite Z.gtb_ltb. apply Z.ltb_irrefl.
  - intros a b c. rewrite !Z.gtb_ltb, !Z.ltb_lt. lia.
  - intros a b c. unfold equiv_key. rewrite !Z.gtb_ltb, !Z.ltb_ge. lia.
Qed.

Lemma int_strict_weak_gtb s : strict_weak (Comparator Z Z Z.gtb Z.gtb s).
Proof. destruct s; exact Z_gtb_strict_weak. Qed.

Lemma int_two_orders_wf : wf int_two_orders 0 ∧ wf' int_two_orders 2.
Proof.
  destruct int_one_entry_wf as [ts Hinv].
  pose proof (ctor_other_inv Z Z Z.ltb Z.ltb int_strict_weak int_one_entry 0
                ts Hinv) as Ho.
  pose proof (ctor_inv Z Z Z.gtb Z.gtb int_one_entry
                (inv_unused _ _ _ _ _ _ _ Hinv)) as Hnew.
  destruct (insert_other_order Z Z Z.gtb Z.gtb Z.ltb Z.ltb
              int_strict_weak_gtb int_strict_weak
              (ctor Z Z int_one_entry).1 2%nat (λ _, Leaf) 0%nat ts 1 1
              Hnew Ho) as (h1 & ts1 & Hins1 & Hinv1 & Ho1 & Hperm1).
  { done. }
  { intros s n Hn. by apply not_elem_of_nil in Hn. }
  { done. }
  destruct (insert_other_order Z Z Z.gtb Z.gtb Z.ltb Z.ltb
              int_strict_weak_gtb int_strict_weak
              h1 2%nat ts1 0%nat ts 2 2 Hinv1 Ho1)
    as (h2 & ts2 & Hins2 & Hinv2 & Ho2 & _).
  { done. }
  { intros s n Hn. rewrite (Hperm1 s) in Hn. cbn [inorder] in Hn.
    apply list_elem_of_singleton in Hn as ->.
    intros (kn & Hkn & [_ H2]).
    vm_compute in Hins1. injection Hins1 as <-.
    destruct s; vm_compute in Hkn; injection Hkn as <-; discriminate H2. }
  { rewrite (Hperm1 left_tag). cbn. done. }
  unfold int_two_orders. cbv zeta. rewrite Hins1.
  cbn [fmap option_fmap option_map default fst id]. rewrite Hins2.
  cbn [fmap option_fmap option_map default fst].
  split; [by exists ts|by exists ts2].
Qed.

(** After [swap], move assignment and the move constructor a map whose
    comparators differ from those its trees were built with does not
    find its keys: the map at [0] compares with [<] and takes the
    entries [(1, 1)] and [(2, 2)] of a map that compares with [>]; its
    traversal then meets the left keys [2] and [1] in that order, and
    [find_left(2)] with [<] is [end_left], where [>] finds the entry.
    The same holds of a new map that compares with [<] and is move
    constructed from that map. *)
Lemma comparators_stay_behind :
  (h' ← swap Z Z int_two_orders 0%nat 2%nat;
   Some (keys Z Z left_tag h' 0%nat,
         bimap.find_left Z Z Z.ltb Z.ltb h' 0%nat 2,
         bimap.find_left Z Z Z.gtb Z.gtb h' 0%nat 2))
  = Some (Some [2; 1], Some (end_left 0), Some (iter 0%nat 4%nat))
  ∧ (h' ← move_assign Z Z int_two_orders 0%nat 2%nat;
     Some (keys Z Z left_tag h' 0%nat,
           bimap.find_left Z Z Z.ltb Z.ltb h' 0%nat 2,
           bimap.find_left Z Z Z.gtb Z.gtb h' 0%nat 2))
    = Some (Some [2; 1], Some (end_left 0), Some (iter 0%nat 4%nat))
  ∧ ('(h', this) ← move_ctor Z Z int_two_orders 2%nat;
     Some (this, keys Z Z left_tag h' this,
           bimap.find_left Z Z Z.ltb Z.ltb h' this 2,
           bimap.find_left Z Z Z.gtb Z.gtb h' this 2))
    = Some (5%nat, Some [2; 1], Some (end_left 5), Some (iter 5%nat 4%nat)).
Proof. split_and!; vm_compute; reflexivity. Qed.

Lemma begin_spec_witness :
  wf int_three_entries 0
  ∧ ∃ b,
      bimap.begin Z Z left_tag int_three_entries 0%nat = Some b
      ∧ ((∀ n, ¬ resident Z Z left_tag int_three_entries 0 n) →
         b = end_ left_tag 0)
      ∧ (∀ m, resident Z Z left_tag int_three_entries 0 m →
              ∃ n, b = iter 0%nat n
                   ∧ resident Z Z left_tag int_three_entries 0 n
                   ∧ (m = n
                      ∨ lt_node Z.ltb
                          (get_key Z Z left_tag int_three_entries) n m)).
Proof.
  split; [exact int_three_entries_wf|].
  exact (begin_spec Z Z Z.ltb Z.ltb int_strict_weak left_tag
           int_three_entries 0%nat int_three_entries_wf).
Defined.

Lemma move_ctor_spec_witness :
  wf' int_two_orders 2
  ∧ ∃ h' this,
      move_ctor Z Z int_two_orders 2%nat = Some (h', this)
      ∧ wf' h' this
      ∧ bimap.traverse Z Z left_tag h' this = Some [4%nat; 3%nat]
      ∧ size Z Z h' this = Some 2
      ∧ bimap.empty Z Z h' 2%nat = Some true
      ∧ bimap.traverse Z Z left_tag h' 2%nat = Some []
      ∧ size Z Z h' 2%nat = Some 2.
Proof.
  split; [exact (proj2 int_two_orders_wf)|].
  destruct (move_ctor_spec Z Z Z.ltb Z.ltb Z.gtb Z.gtb int_strict_weak_gtb
              int_two_orders 2%nat (proj2 int_two_orders_wf))
    as (h' & this & Hmv & Hwf & _ & Htr & Hsz & _ & He & Hto & Hso).
  exists h', this.
  split_and!; [exact Hmv|exact Hwf|exact (Htr left_tag)|exact Hsz|exact He
              |exact (Hto left_tag)|exact Hso].
Defined.

Lemma swap_spec_witness :
  wf int_two_orders 0 ∧ wf' int_two_orders 2 ∧ 0%nat ≠ 2%nat
  ∧ ∃ h',
      swap Z Z int_two_orders 0%nat 2%nat = Some h'
      ∧ wf' h' 0 ∧ wf h' 2
      ∧ bimap.traverse Z Z left_tag h' 0%nat = Some [4%nat; 3%nat]
      ∧ bimap.traverse Z Z left_tag h' 2%nat = Some [1%nat]
      ∧ size Z Z h' 0%nat = Some 2 ∧ size Z Z h' 2%nat = Some 1
      ∧ nodes Z Z h' = nodes Z Z int_two_orders.
Proof.
  assert (0%nat ≠ 2%nat) as Hne by discriminate.
  split; [exact (proj1 int_two_orders_wf)|].
  split; [exact (proj2 int_two_orders_wf)|]. split; [exact Hne|].
  destruct (swap_spec Z Z Z.ltb Z.ltb Z.gtb Z.gtb int_strict_weak
              int_strict_weak_gtb int_two_orders
              0%nat 2%nat (proj1 int_two_orders_wf) (proj2 int_two_orders_wf)
              Hne)
    as (h' & Hsw & Hwa & Hwb & _ & Hta & Htb & Hsa & Hsb & Hnodes).
  exists h'.
  split_and!; [exact Hsw|exact Hwa|exact Hwb|exact (Hta left_tag)
              |exact (Htb left_tag)|exact Hsa|exact Hsb|exact Hnodes].
Defined.

Lemma move_assign_spec_witness :
  wf int_two_orders 0 ∧ wf' int_two_orders 2 ∧ 0%nat ≠ 2%nat
  ∧ ∃ h',
      move_assign Z Z int_two_orders 0%nat 2%nat = Some h'
      ∧ wf' h' 0
      ∧ bimap.traverse Z Z left_tag h' 0%nat = Some [4%nat; 3%nat]
      ∧ size Z Z h' 0%nat = Some 2
      ∧ nodes Z Z h' !! 1%nat = None
      ∧ bimap.empty Z Z h' 2%nat = Some true
      ∧ bimap.traverse Z Z left_tag h' 2%nat = Some []
      ∧ size Z Z h' 2%nat = Some 2.
Proof.
  assert (0%nat ≠ 2%nat) as Hne by discriminate.
  split; [exact (proj1 int_two_orders_wf)|].
  split; [exact (proj2 int_two_orders_wf)|]. split; [exact Hne|].
  destruct (move_assign_spec Z Z Z.ltb Z.ltb Z.gtb Z.gtb int_strict_weak
              int_strict_weak_gtb int_two_orders
              0%nat 2%nat (proj1 int_two_orders_wf) (proj2 int_two_orders_wf)
              Hne)
    as (h' & Hmv & Hwf & _ & Htr & Hsz & Hnodes & He & Hto & Hso).
  exists h'.
  split_and!; [exact Hmv|exact Hwf|exact (Htr left_tag)|exact Hsz
              |exact (Hnodes [1%nat] eq_refl 1%nat)|exact He
              |exact (Hto left_tag)|exact Hso].
Defined.

End further_witnesses.
